(** * geniust: text utilities of the lyrics bot, verified against their source

    A shallow embedding of [geniust/utils.py], of [geniust/zip_album.py]
    and of [Database.user] of [geniust/db.py].

    Python [str] values are sequences of Unicode code points, so a string is a
    [list N] here; [u "..."] turns an ASCII literal into its code points and
    non-ASCII characters are written with their code point.  The compiled
    patterns of [utils.py] are kept as regular-expression syntax trees and run
    by a small backtracking matcher that follows the search order of Python's
    [re] module (ordered alternation, greedy and lazy repetition, groups,
    negative lookahead, [^] under [re.MULTILINE]). *)

From Stdlib Require Import String Ascii.
From Stdlib Require Import List NArith ZArith Arith Bool Lia.
Import ListNotations.

Set Implicit Arguments.
Local Set Warnings "-register-all".

(* ================================================================== *)
(** * Strings *)
(* ================================================================== *)

Module Str.

Definition char := N.
Definition str := list char.

(** ASCII literal to code points. *)
Definition u (s : string) : str :=
  List.map N_of_ascii (list_ascii_of_string s).

(** One ASCII character. *)
Definition ch (a : ascii) : char := N_of_ascii a.
Arguments ch a%_char.

Definition ceqb (a b : char) : bool := N.eqb a b.

Fixpoint eqb (a b : str) : bool :=
  match a, b with
  | [], [] => true
  | x :: a', y :: b' => ceqb x y && eqb a' b'
  | _, _ => false
  end.

Definition LF : char := 10%N.

(** [str.isspace] for one character; also the class [\s] of a [str]
    pattern. *)
Definition is_space (c : char) : bool :=
  ((9 <=? c) && (c <=? 13) || (28 <=? c) && (c <=? 32)
   || (c =? 133) || (c =? 160) || (c =? 5760)
   || (8192 <=? c) && (c <=? 8202)
   || (c =? 8232) || (c =? 8233) || (c =? 8239) || (c =? 8287)
   || (c =? 12288))%N.

(** [s.startswith(p)] *)
Fixpoint startswith (p s : str) : bool :=
  match p, s with
  | [], _ => true
  | x :: p', y :: s' => ceqb x y && startswith p' s'
  | _ :: _, [] => false
  end.

(** [p in s] *)
Fixpoint contains (p s : str) : bool :=
  startswith p s
  || match s with
     | [] => false
     | _ :: s' => contains p s'
     end.

Fixpoint lstrip (s : str) : str :=
  match s with
  | c :: s' => if is_space c then lstrip s' else s
  | [] => []
  end.

(** [s.strip()] *)
Definition strip (s : str) : str := rev (lstrip (rev (lstrip s))).

(** [sep.join(parts)] *)
Fixpoint join (sep : str) (parts : list str) : str :=
  match parts with
  | [] => []
  | [p] => p
  | p :: rest => p ++ sep ++ join sep rest
  end.

(** [s.split(sep)] for a non-empty [sep]: a left-to-right scan for
    non-overlapping occurrences.  [acc] is the current field, reversed;
    [skip] counts the characters of an occurrence still to be passed. *)
Fixpoint split_from (sep s acc : str) (skip : nat) : list str :=
  match s with
  | [] => [rev acc]
  | c :: s' =>
      match skip with
      | S k => split_from sep s' acc k
      | O =>
          if startswith sep s
          then rev acc :: split_from sep s' [] (length sep - 1)
          else split_from sep s' (c :: acc) 0
      end
  end.

Definition split (sep s : str) : list str := split_from sep s [] 0.

(** [s.replace(old, new)] for a one-character [old]. *)
Definition replace_char (old : char) (new s : str) : str :=
  flat_map (fun c => if ceqb c old then new else [c]) s.

(** Decimal digits of a natural number, as [str(n)] prints them. *)
Fixpoint digits_fuel (fuel n : nat) (acc : str) : str :=
  match fuel with
  | O => acc
  | S f =>
      let d := N.of_nat (48 + n mod 10) in
      if n <? 10 then d :: acc else digits_fuel f (n / 10) (d :: acc)
  end.

Definition of_nat (n : nat) : str := digits_fuel (S n) n [].

End Str.
Import Str.

(* ================================================================== *)
(** * Regular expressions, as [re] runs them *)
(* ================================================================== *)

Module Re.

Inductive re : Type :=
| Eps
| Chr (p : char -> bool)        (* one character of a class *)
| Seq (a b : re)
| Alt (a b : re)                (* a|b, [a] tried first *)
| Star (greedy : bool) (a : re) (* a* and a*? *)
| Grp (n : nat) (a : re)        (* capturing group number n *)
| Bol                           (* ^ with re.MULTILINE *)
| NLook (a : re).               (* (?!a) *)

(** The matcher's position: the character before it (for [^]), the text
    still ahead, and the groups captured so far. *)
Record state := mk { prev : option char; rest : str; caps : list (nat * str) }.

Definition consumed (st st' : state) : str :=
  firstn (length (rest st) - length (rest st')) (rest st).

Definition at_bol (st : state) : bool :=
  match prev st with
  | None => true
  | Some c => ceqb c LF
  end.

(** Repetition: every way of iterating the step [f], in the order the
    backtracking matcher tries them.  An iteration that consumes nothing is
    not repeated.  [fuel] bounds the number of iterations by the length of
    the text ahead. *)
Fixpoint iter (greedy : bool) (f : state -> list state) (fuel : nat)
         (st : state) : list state :=
  match fuel with
  | O => [st]
  | S k =>
      let more :=
        flat_map
          (fun st' =>
             if length (rest st') <? length (rest st)
             then iter greedy f k st' else [])
          (f st) in
      if greedy then more ++ [st] else st :: more
  end.

(** All ways [r] matches at [st], in backtracking order: the head of the
    list is the match [re] reports. *)
Fixpoint run (r : re) (st : state) {struct r} : list state :=
  match r with
  | Eps => [st]
  | Chr p =>
      match rest st with
      | c :: s' => if p c then [mk (Some c) s' (caps st)] else []
      | [] => []
      end
  | Seq a b => flat_map (run b) (run a st)
  | Alt a b => run a st ++ run b st
  | Star g a => iter g (run a) (length (rest st)) st
  | Grp n a =>
      List.map (fun st' => mk (prev st') (rest st')
                             ((n, consumed st st') :: caps st'))
               (run a st)
  | Bol => if at_bol st then [st] else []
  | NLook a => match run a st with [] => [st] | _ :: _ => [] end
  end.

(** Pattern-building shorthands. *)
Definition c1 (c : char) : re := Chr (ceqb c).
Fixpoint lit (s : str) : re :=
  match s with
  | [] => Eps
  | [c] => c1 c
  | c :: s' => Seq (c1 c) (lit s')
  end.
Definition plus (g : bool) (a : re) : re := Seq a (Star g a).
(** a{2,} *)
Definition two_or_more (a : re) : re := Seq a (Seq a (Star true a)).
(** [.] without re.DOTALL *)
Definition dot : re := Chr (fun c => negb (ceqb c LF)).
(** [[\S\s]] *)
Definition any : re := Chr (fun _ => true).
Definition space : re := Chr is_space.

(** A replacement template: literal text and group references [\n]. *)
Inductive piece := Lit (s : str) | Ref (n : nat).

Fixpoint group (n : nat) (cs : list (nat * str)) : str :=
  match cs with
  | [] => []     (* a group that took no part expands to the empty string *)
  | (m, s) :: cs' => if Nat.eqb m n then s else group n cs'
  end.

Definition expand (repl : list piece) (st : state) : str :=
  flat_map (fun p => match p with Lit s => s | Ref n => group n (caps st) end)
           repl.

Definition match_len (s : str) (st : state) : nat :=
  length s - length (rest st).

Definition first_match (r : re) (p : option char) (s : str) : option state :=
  hd_error (run r (mk p s [])).

Definition first_nonempty (r : re) (p : option char) (s : str)
  : option state :=
  List.find (fun st => negb (match_len s st =? 0)) (run r (mk p s [])).

(** [pattern.sub(repl, s)]: scan left to right, replace each leftmost
    match, copy what no match covers.  [p] is the character before the
    position, [skip] the characters of the last match still to be passed.
    An empty match is replaced too; the next match at that position must
    then be non-empty. *)
Fixpoint sub_from (r : re) (repl : list piece) (p : option char) (s : str)
         (skip : nat) : str :=
  match s with
  | [] =>
      match first_match r p [] with
      | Some st => expand repl st
      | None => []
      end
  | c :: s' =>
      match skip with
      | S k => sub_from r repl (Some c) s' k
      | O =>
          match first_match r p s with
          | Some st =>
              match match_len s st with
              | S k => expand repl st ++ sub_from r repl (Some c) s' k
              | O =>
                  expand repl st ++
                  match first_nonempty r p s with
                  | Some st2 =>
                      expand repl st2 ++
                      sub_from r repl (Some c) s' (match_len s st2 - 1)
                  | None => c :: sub_from r repl (Some c) s' 0
                  end
              end
          | None => c :: sub_from r repl (Some c) s' 0
          end
      end
  end.

Definition sub (r : re) (repl : list piece) (s : str) : str :=
  sub_from r repl None s 0.

End Re.
Import Re.

(* ================================================================== *)
(** * The compiled patterns of utils.py *)
(* ================================================================== *)

Definition non_ascii (c : char) : bool := (127 <? c)%N.
Definition ascii_letter (c : char) : bool :=
  ((65 <=? c) && (c <=? 90) || (97 <=? c) && (c <=? 122))%N.
Definition persian (c : char) : bool := ((1536 <=? c) && (c <=? 1791))%N.

(** [\[[^\]\n]+\]] : a section header *)
Definition header_re : re :=
  Seq (c1 (ch "["))
      (Seq (plus true (Chr (fun c => negb (ceqb c (ch "]") || ceqb c LF))))
           (c1 (ch "]"))).
(** [\\n] : a backslash followed by the letter n *)
Definition escaped_newline_re : re := lit (u "\n").
(** [!--![\S\s]*?!__!] : an inlined annotation *)
Definition annotation_re : re :=
  Seq (lit (u "!--!")) (Seq (Star false any) (lit (u "!__!"))).
(** [<.*?>] : a tag *)
Definition tag_re : re :=
  Seq (c1 (ch "<")) (Seq (Star false dot) (c1 (ch ">"))).

(** [remove_non_english] *)
Definition remove_non_english : re :=
  Alt (Grp 1 (Alt header_re
             (Alt escaped_newline_re (Alt annotation_re tag_re))))
      (Seq (Star true dot) (Seq (Chr non_ascii) (Star true dot))).

(** [remove_english] *)
Definition remove_english : re :=
  Alt (Grp 1 (Alt header_re
             (Alt escaped_newline_re
             (Alt (Seq (lit (u "\u200"))
                       (Chr (fun c => ceqb c (ch "5") || ceqb c (ch "c"))))
             (Alt annotation_re tag_re)))))
      (Seq Bol (Seq (Star true dot)
               (Seq (plus true (Chr ascii_letter)) (Star true dot)))).

(** One newline-or-break marker, [(\n|<br\s*[/]*>)]. *)
Definition marker_re : re :=
  Grp 1 (Alt (c1 LF)
             (Seq (lit (u "<br"))
                  (Seq (Star true space)
                       (Seq (Star true (c1 (ch "/"))) (c1 (ch ">")))))).

(** [newline_pattern], [(\n|<br\s*[/]*>){2,}(?!\[)] *)
Definition newline_pattern : re :=
  Seq (two_or_more marker_re) (NLook (c1 (ch "["))).

(** [TRANSLATION_PARENTHESES]: an opening parenthesis, one character of
    U+0600..U+06FF, a closing parenthesis. *)
Definition TRANSLATION_PARENTHESES : re :=
  Seq (c1 (ch "(")) (Seq (Chr persian) (c1 (ch ")"))).

(** [remove_extra_newlines] *)
Definition remove_extra_newlines (s : str) : str :=
  sub newline_pattern [Lit [LF]] s.

(** [format_filename] removes the characters a file name may not hold:
    backslash, slash, colon, star, question mark, double quote (code point
    34), angle brackets and the bar. *)
Definition invalid_in_filename (c : char) : bool :=
  existsb (ceqb c) (34%N :: u "\/:*?<>|").

Definition format_filename (s : str) : str :=
  sub (Chr invalid_in_filename) [] s.

(** [format_title] *)
Definition format_title (artist title : str) : str :=
  if contains (u "Genius") artist then title
  else artist ++ u " - " ++ title.

(* ================================================================== *)
(** * Exceptions *)
(* ================================================================== *)

(** The exceptions that leave the functions below: three built-in ones
    of the code itself, [AttributeError] from an element that bs4 has
    emptied, and bs4's [ParserRejectedMarkup]. *)
Inductive exn :=
| TypeError | ValueError | KeyError | AttributeError | ParserRejectedMarkup.

Inductive result (A : Type) : Type :=
| Ok (a : A)
| Raise (e : exn).
Arguments Ok {A} a.
Arguments Raise {A} e.

Definition bind {A B} (r : result A) (f : A -> result B) : result B :=
  match r with
  | Ok a => f a
  | Raise e => Raise e
  end.

Notation "x <- r ;; k" := (bind r (fun x => k))
  (at level 61, r at next level, right associativity).

(* ================================================================== *)
(** * Documents: the BeautifulSoup tree *)
(* ================================================================== *)

Module Dom.

(** A page element: a [NavigableString], a [Comment], or a [Tag] with its
    name, attributes (a dict, in insertion order) and contents.  The
    documents covered are made of these three: bs4's other string classes
    ([Doctype], [CData], [Declaration], [ProcessingInstruction], and the
    classes it gives to the strings of [script], [style] and [template]
    tags) have no constructor. *)
Inductive node : Type :=
| Text (s : str)
| Comment (s : str)
| Elem (name : str) (attrs : list (str * str)) (children : list node).

(** [tag.name]: [None] for strings. *)
Definition name_of (n : node) : option str :=
  match n with
  | Elem nm _ _ => Some nm
  | Text _ | Comment _ => None
  end.

(** [tag.text] / [get_text()]: the strings of the subtree in document
    order; comments are left out.  This is bs4's text for the trees of
    [node], whose strings are all of class [NavigableString]. *)
Fixpoint text_of (n : node) : str :=
  match n with
  | Text s => s
  | Comment _ => []
  | Elem _ _ kids => flat_map text_of kids
  end.

Definition get_text (soup : list node) : str := flat_map text_of soup.

(** Number of tags in a subtree. *)
Fixpoint tags_in (n : node) : nat :=
  match n with
  | Text _ | Comment _ => 0
  | Elem _ _ kids => S (list_sum (List.map tags_in kids))
  end.

Definition tag_count (soup : list node) : nat :=
  list_sum (List.map tags_in soup).

(** The names of every tag of the subtree, [soup.find_all(True)] order. *)
Fixpoint names_in (n : node) : list str :=
  match n with
  | Text _ | Comment _ => []
  | Elem nm _ kids => nm :: flat_map names_in kids
  end.

Definition descendant_names (soup : list node) : list str :=
  flat_map names_in soup.

End Dom.
Import Dom.

(* ================================================================== *)
(** * remove_unsupported_tags (utils.py, lines 106-131) *)
(* ================================================================== *)

Definition is_supported (supported : list str) (nm : str) : bool :=
  existsb (Str.eqb nm) supported.

(** One run of [for tag in soup], which walks the direct children of
    [soup].  [Some soup'] when the loop body fired (and broke out) leaving
    [soup'], [None] when the loop ran to its end. *)
Fixpoint scan_once (supported : list str) (soup : list node)
  : option (list node) :=
  match soup with
  | [] => None
  | tag :: rest =>
      match tag with
      | Elem nm _ kids =>
          if negb (is_supported supported nm)
          then
            (* [tag.unwrap()] when [tag.text] is non-empty, then
               [tag.decompose()] of what is left of the tag *)
            Some ((match text_of tag with
                   | [] => []
                   | _ :: _ => kids
                   end) ++ rest)
          else option_map (cons tag) (scan_once supported rest)
      | Text _ | Comment _ =>
          option_map (cons tag) (scan_once supported rest)
      end
  end.

(** [while restart] *)
Fixpoint restart_loop (supported : list str) (fuel : nat) (soup : list node)
  : list node :=
  match fuel with
  | O => soup
  | S k =>
      match scan_once supported soup with
      | Some soup' => restart_loop supported k soup'
      | None => soup
      end
  end.

Definition remove_unsupported_tags (soup : list node) (supported : list str)
  : list node :=
  restart_loop supported (S (tag_count soup)) soup.

(* ================================================================== *)
(** * find_matching_lyrics (utils.py, lines 180-204) *)
(* ================================================================== *)

Section SnippetMatcher.

(** [Levenshtein.ratio(a, b) > 0.75] and [lyricsgenius.utils.clean_str],
    both from outside the repository. *)
Variable similar : str -> str -> bool.
Variable clean_str : str -> str.

(** The test of the inner loop. *)
Definition line_hit (found_line line : str) : bool :=
  similar found_line line || contains (clean_str found_line) (clean_str line).

(** The inner [for found_line in lines] with its [break]. *)
Definition any_hit (lines : list str) (line : str) : bool :=
  existsb (fun found_line => line_hit found_line line) lines.

(** The outer loop over [lyrics.split("\n")], [matching_lyrics] threaded
    through, with the [break] when it is as long as [lines]. *)
Fixpoint collect (lines todo matching_lyrics : list str) : list str :=
  match todo with
  | [] => matching_lyrics
  | line :: todo' =>
      let matching_lyrics :=
        if any_hit lines line then matching_lyrics ++ [line]
        else matching_lyrics in
      if length matching_lyrics =? length lines then matching_lyrics
      else collect lines todo' matching_lyrics
  end.

Definition matching_lines (lines : list str) (lyrics : str) : list str :=
  collect lines (split [LF] lyrics) [].

Definition find_matching_lyrics (lines : list str) (lyrics : str)
  : option str :=
  match matching_lines lines lyrics with
  | [] => None
  | m => Some (join [LF] m)
  end.

End SnippetMatcher.

(* ================================================================== *)
(** * format_language (utils.py, lines 219-266) *)
(* ================================================================== *)

(** What a caller can pass as [lyrics]: a [Tag], a [BeautifulSoup] document,
    a [str], or a value of some other type. *)
Inductive pyvalue : Type :=
| VTag (name : str) (attrs : list (str * str)) (children : list node)
| VSoup (contents : list node)
| VStr (s : str)
| VNone
| VInt (z : Z)
| VBytes (b : list N).

(** [string_formatter], the closure over [lyrics_language]. *)
Definition string_formatter (lyrics_language : str) (s : str) : str :=
  let s :=
    if Str.eqb lyrics_language (u "English")
    then sub remove_non_english [Ref 1] s
    else if Str.eqb lyrics_language (u "Non-English")
         then sub remove_english [Ref 1] s
         else s in
  remove_extra_newlines s.

(** [len(x.strip()) != 0] *)
Definition not_blank (s : str) : bool :=
  negb (length (strip s) =? 0).

(** The strings collected from [lyrics.descendants] (every
    [NavigableString] that is not blank and not a [Comment]) are each
    replaced by their formatted text, in place. *)
Fixpoint format_node (lyrics_language : str) (n : node) : node :=
  match n with
  | Text s => if not_blank s then Text (string_formatter lyrics_language s)
              else n
  | Comment _ => n
  | Elem nm attrs kids =>
      Elem nm attrs (List.map (format_node lyrics_language) kids)
  end.

Section Parsed.

(** html.parser, from outside the repository: the contents of the document
    it builds, or [None] for markup it does not accept. *)
Variable html_parser : str -> option (list node).

(** [BeautifulSoup(markup, "html.parser")]; bs4 raises
    [ParserRejectedMarkup] when the parser gives up. *)
Definition BeautifulSoup (markup : str) : result (list node) :=
  match html_parser markup with
  | Some contents => Ok contents
  | None => Raise ParserRejectedMarkup
  end.

Definition format_language (lyrics : pyvalue) (lyrics_language : str)
  : result pyvalue :=
  match lyrics with
  | VTag nm attrs kids =>
      Ok (VTag nm attrs (List.map (format_node lyrics_language) kids))
  | VSoup kids =>
      Ok (VSoup (List.map (format_node lyrics_language) kids))
  | VStr s =>
      soup <- BeautifulSoup (string_formatter lyrics_language s) ;;
      Ok (VSoup soup)
  | VNone | VInt _ | VBytes _ => Raise TypeError
  end.

(* ================================================================ *)
(** * format_annotations (utils.py, lines 269-334) *)
(* ================================================================ *)

(** The tags that the clean-up loop takes out of the annotation:
    [tag.decompose()] for the first three, [tag.unwrap()] for the last. *)
Definition decomposed (nm : str) : bool :=
  Str.eqb nm (u "div") || Str.eqb nm (u "script") || Str.eqb nm (u "iframe").

Definition unwrapped (nm : str) : bool := Str.eqb nm (u "blockquote").

(** No tag of the subtree is taken out by the loop. *)
Fixpoint left_in_place (n : node) : bool :=
  match n with
  | Text _ | Comment _ => true
  | Elem nm _ kids =>
      negb (decomposed nm) && negb (unwrapped nm) && forallb left_in_place kids
  end.

(** [tag.attrs.pop(attribute)] for every attribute but [href]. *)
Definition keep_href (attrs : list (str * str)) : list (str * str) :=
  List.filter (fun kv => Str.eqb (fst kv) (u "href")) attrs.

Fixpoint strip_attrs (n : node) : node :=
  match n with
  | Text _ | Comment _ => n
  | Elem nm attrs kids => Elem nm (keep_href attrs) (List.map strip_attrs kids)
  end.

(** Once the loop has taken a tag out, [annotation.descendants] goes on
    from an element that is no longer in the tree: what is visited next,
    and whether the walk ends with an [AttributeError], is decided inside
    bs4. *)
Variable walk_changed_tree : list node -> result (list node).

(** The clean-up loop over [annotation.descendants] (lines 320-328).  With
    no [div], [script], [iframe] or [blockquote] in the annotation it
    visits every element and only pops attributes. *)
Definition clean_up (annotation : list node) : result (list node) :=
  if forallb left_in_place annotation
  then Ok (List.map strip_attrs annotation)
  else walk_changed_tree annotation.

(** A dict with string keys, in insertion order. *)
Fixpoint lookup (k : str) (d : list (str * str)) : option str :=
  match d with
  | [] => None
  | (k', v) :: d' => if Str.eqb k' k then Some v else lookup k d'
  end.

(** The f-string that wraps the annotation body. *)
Definition annotation_content (format_type : str) (identifiers : str * str)
           (body : str) : str :=
  if Str.eqb format_type (u "zip")
  then u "<annotation>" ++ [LF] ++ fst identifiers ++ [LF] ++ body
       ++ [LF] ++ snd identifiers ++ [LF] ++ u "</annotation>"
  else u "<annotation>" ++ body ++ u "</annotation>".

Section Walk.

Variable annotations : list (str * str).
Variable identifiers : str * str.
Variable format_type : str.

(** The loop over [soup.find_all("a")] visits the anchors in document
    order; [used] is threaded through.  An anchor is returned followed
    by what [insert_after] put behind it, the contents of the annotation
    document.  The list of anchors is made before the loop, so an anchor
    inside an inserted annotation is not visited.  [a.attrs["href"]] and
    [annotations[annotation_id]] raise [KeyError] on a missing key. *)
Fixpoint visit (n : node) (used : list str) {struct n}
  : result (list node * list str) :=
  match n with
  | Text _ | Comment _ => Ok ([n], used)
  | Elem nm attrs kids =>
      let visit_all :=
        fix visit_all (l : list node) (used : list str)
          : result (list node * list str) :=
          match l with
          | [] => Ok ([], used)
          | k :: l' =>
              r <- visit k used ;;
              r' <- visit_all l' (snd r) ;;
              Ok (fst r ++ fst r', snd r')
          end in
      if Str.eqb nm (u "a")
      then
        match lookup (u "href") attrs with
        | None => Raise KeyError
        | Some annotation_id =>
            if existsb (Str.eqb annotation_id) used
            then (* continue *)
              r <- visit_all kids used ;;
              Ok ([Elem nm attrs (fst r)], snd r)
            else
              match lookup annotation_id annotations with
              | None => Raise KeyError
              | Some body =>
                  annotation <-
                    BeautifulSoup
                      (annotation_content format_type identifiers body) ;;
                  annotation <- clean_up annotation ;;
                  r <- visit_all kids (used ++ [annotation_id]) ;;
                  Ok (Elem nm [] (fst r) :: annotation, snd r)
              end
        end
      else
        r <- visit_all kids used ;;
        Ok ([Elem nm attrs (fst r)], snd r)
  end.

Fixpoint visit_all (l : list node) (used : list str)
  : result (list node * list str) :=
  match l with
  | [] => Ok ([], used)
  | k :: l' =>
      r <- visit k used ;;
      r' <- visit_all l' (snd r) ;;
      Ok (fst r ++ fst r', snd r')
  end.

End Walk.

Definition format_annotations (lyrics : str) (annotations : list (str * str))
           (include_annotations : bool) (identifiers : str * str)
           (format_type : str) : result (list node) :=
  soup <- BeautifulSoup lyrics ;;
  if include_annotations && negb (length annotations =? 0)
  then r <- visit_all annotations identifiers format_type soup [] ;;
       Ok (fst r)
  else Ok soup.

End Parsed.

(** The default arguments of [format_annotations]. *)
Definition default_identifiers : str * str := (u "!--!", u "!__!").
Definition default_format_type : str := u "zip".

(* ================================================================== *)
(** * get_song_metadata (utils.py, lines 392-421) *)
(* ================================================================== *)

Record artist := { name : str }.
Record song := {
  title : str;
  primary_artist : artist;
  featured_artists : list artist
}.

Definition get_song_metadata (song : song)
  : result (str * list str * list str) :=
  let title := title song in
  let primary_artists := split (u " & ") (name (primary_artist song)) in
  let featured_artists := List.map name (featured_artists song) in
  if startswith (u "Genius") (hd [] primary_artists)
     && (length featured_artists =? 0)
  then
    let title := strip (sub TRANSLATION_PARENTHESES [] title) in
    match List.map strip (split (u "-") title) with
    | [artists; title] =>
        (* primary_artists.clear(); primary_artists.extend(...) *)
        Ok (title, split (u " & ") artists, featured_artists)
    | _ => Raise ValueError   (* the unpacking fails *)
    end
  else Ok (title, primary_artists, featured_artists).

(* ================================================================== *)
(** * create_zip (zip_album.py, lines 8-54) *)
(* ================================================================== *)

Record album_song := {
  song_title : str;
  song_lyrics : str;
  song_annotations : list (str * str)
}.

Record album := {
  album_title : str;
  album_artist : str;
  songs : list album_song
}.

Record user_data := {
  lyrics_lang : str;
  include_annotations : bool
}.

(** The in-memory file: its name and the entries written to the archive. *)
Record zip_buffer := {
  bio_name : str;
  namelist : list (str * str)
}.

(** The name [ZipFile.writestr] gives to an entry: [ZipInfo] ends the file
    name at its first null character.  (Where [os.sep] is not ["/"],
    [ZipInfo] also turns it into ["/"]; the name is taken as on a POSIX
    system.) *)
Fixpoint zip_name (filename : str) : str :=
  match filename with
  | [] => []
  | c :: rest => if (c =? 0)%N then [] else c :: zip_name rest
  end.

(** [re.sub(r'.*[\s]*-\s*', '', title)] *)
Definition artist_prefix_re : re :=
  Seq (Star true dot)
      (Seq (Star true space) (Seq (c1 (ch "-")) (Star true space))).

(** [re.sub(r'[\s][\(\[][^\x00-\x7F]+.*[\)\]]', '', title)] *)
Definition translation_suffix_re : re :=
  Seq space
      (Seq (Chr (fun c => ceqb c (ch "(") || ceqb c (ch "[")))
      (Seq (plus true (Chr non_ascii))
      (Seq (Star true dot)
           (Chr (fun c => ceqb c (ch ")") || ceqb c (ch "]")))))).

Section ZipAlbum.

(** [zip_album.py] imports its helpers from a module [string_funcs] that is
    not among the sources; they are taken as they are called. *)
Variable lyrics_doc : Type.
Variable sf_format_title : str -> str -> str.
Variable sf_format_filename : str -> str.
Variable sf_format_annotations :
  str -> list (str * str) -> bool -> str * str -> lyrics_doc.
Variable sf_format_language : lyrics_doc -> str -> str.

(** The title cleaning of the loop body. *)
Definition entry_title (title : str) : str :=
  sf_format_filename
    (sub translation_suffix_re [] (sub artist_prefix_re [] title)).

(** The file name of the song at index [i] of [enumerate]. *)
Definition file_name (i : nat) (title : str) : str :=
  if i <? 9
  then u "0" ++ of_nat (i + 1) ++ u " - " ++ title ++ u ".txt"
  else of_nat (i + 1) ++ u " - " ++ title ++ u ".txt".

(** The loop [for i, song in enumerate(data['songs'])], from index [i]. *)
Fixpoint write_songs (ud : user_data) (i : nat) (l : list album_song)
  : list (str * str) :=
  match l with
  | [] => []
  | song :: l' =>
      let lyrics :=
        sf_format_annotations (song_lyrics song) (song_annotations song)
                              (include_annotations ud)
                              (u "!--!", u "!__!") in
      let lyrics := sf_format_language lyrics (lyrics_lang ud) in
      (* lyrics.replace('\n', '\r\n') *)
      let lyrics := replace_char LF [13%N; LF] lyrics in
      (* zip_file.writestr(file_name, lyrics) *)
      (zip_name (file_name i (entry_title (song_title song))), lyrics)
      :: write_songs ud (S i) l'
  end.

Definition create_zip (data : album) (ud : user_data) : zip_buffer :=
  let full_title := sf_format_title (album_artist data) (album_title data) in
  let full_title := sf_format_filename full_title in
  {| bio_name := full_title ++ u ".zip";
     namelist := write_songs ud 0 (songs data) |}.

End ZipAlbum.

(* ================================================================== *)
(** * Library behaviour at concrete inputs *)
(* ================================================================== *)

(** The functions below stand for code outside the repository where a
    statement is evaluated on a concrete input. *)
Module Lib.

(** Length of a longest common subsequence. *)
Fixpoint lcs (a b : str) : nat :=
  match a with
  | [] => 0
  | x :: a' =>
      (fix inner (b : str) : nat :=
         match b with
         | [] => 0
         | y :: b' =>
             if ceqb x y then S (lcs a' b')
             else Nat.max (lcs a' b) (inner b')
         end) b
  end.

(** [Levenshtein.ratio(a, b) > 0.75].  The ratio is
    [(lensum - ldist) / lensum] with [lensum = len(a) + len(b)] and [ldist]
    the edit distance in which a substitution costs 2, that is
    [lensum - 2 * lcs]; it is [1.0] when both strings are empty. *)
Definition similar (a b : str) : bool :=
  let lensum := length a + length b in
  if lensum =? 0 then true
  else 3 * lensum <? 4 * (2 * lcs a b).

(** [string.punctuation]; [clean_str] also removes U+2019 and U+200B. *)
Definition punctuation (c : char) : bool :=
  ((33 <=? c) && (c <=? 47) || (58 <=? c) && (c <=? 64)
   || (91 <=? c) && (c <=? 96) || (123 <=? c) && (c <=? 126)
   || (c =? 8217) || (c =? 8203))%N.

Definition lower (c : char) : char :=
  if ((65 <=? c) && (c <=? 90))%N then (c + 32)%N else c.

(** [lyricsgenius.utils.clean_str] on ASCII text: punctuation removed,
    stripped, lower-cased (NFKC leaves ASCII text as it is). *)
Definition clean_str (s : str) : str :=
  List.map lower (strip (List.filter (fun c => negb (punctuation c)) s)).

(** html.parser given by the documents it builds for the markup in play. *)
Fixpoint parse_table (tbl : list (str * list node)) (markup : str)
  : option (list node) :=
  match tbl with
  | [] => None
  | (m, doc) :: tbl' =>
      if Str.eqb m markup then Some doc else parse_table tbl' markup
  end.

(** html.parser on text without markup: one string. *)
Definition parse_plain (markup : str) : list node :=
  match markup with
  | [] => []
  | _ :: _ => [Text markup]
  end.

(** The same as a parser that may give up, which it does not on such
    text. *)
Definition parse_text (markup : str) : option (list node) :=
  Some (parse_plain markup).

End Lib.

(** Text in which html.parser finds neither a tag nor a character
    reference. *)
Definition markup_free (s : str) : bool :=
  forallb (fun c => negb (ceqb c (ch "<") || ceqb c (ch "&"))) s.

(** No anchor in a subtree. *)
Fixpoint no_anchor (n : node) : bool :=
  match n with
  | Text _ | Comment _ => true
  | Elem nm _ kids => negb (Str.eqb nm (u "a")) && forallb no_anchor kids
  end.


Definition is_document (v : pyvalue) : bool :=
  match v with
  | VTag _ _ _ | VSoup _ => true
  | _ => false
  end.

Definition is_string (v : pyvalue) : bool :=
  match v with
  | VStr _ => true
  | _ => false
  end.

(* ================================================================== *)
(** * Inputs of the examples *)
(* ================================================================== *)

(** The code points of the Persian word in the title of the example. *)
Definition farsi : str := [1601; 1575; 1585; 1587; 1740]%N.

Definition translation_stub : song :=
  {| title := u "Artist Name - Song Title (" ++ farsi ++ u ")";
     primary_artist := {| name := u "Genius Translations" |};
     featured_artists := [] |}.

Definition no_hyphen_stub : song :=
  {| title := u "Song Title";
     primary_artist := {| name := u "Genius Translations" |};
     featured_artists := [] |}.

(** A supported tag around an unsupported one. *)
Definition nested_div : list node :=
  [Elem (u "b") [] [Elem (u "div") [] [Text (u "x")]]].

(** Two anchors with the same reference, and the annotation they name. *)
Definition two_anchors_markup : str :=
  u "<a href=1>x</a><a href=1>y</a>".

Definition two_anchors : list node :=
  [Elem (u "a") [(u "href", u "1")] [Text (u "x")];
   Elem (u "a") [(u "href", u "1")] [Text (u "y")]].

Definition note_annotations : list (str * str) := [(u "1", u "note")].

Definition note_markup : str :=
  u "<annotation>" ++ [LF] ++ u "!--!" ++ [LF] ++ u "note" ++ [LF]
    ++ u "!__!" ++ [LF] ++ u "</annotation>".

Definition note_block : list node :=
  [Elem (u "annotation") []
        [Text ([LF] ++ u "!--!" ++ [LF] ++ u "note" ++ [LF] ++ u "!__!"
               ++ [LF])]].

(** What html.parser builds for the two pieces of markup above. *)
Definition two_anchors_parser : str -> option (list node) :=
  Lib.parse_table [(two_anchors_markup, two_anchors);
                   (note_markup, note_block)].

(** The lyrics of the language example: Hello, [Chorus], a Persian word,
    world, one per line. *)
Definition salam : str := [1587; 1604; 1575; 1605]%N.

Definition mixed_lyrics : str :=
  u "Hello" ++ [LF] ++ u "[Chorus]" ++ [LF] ++ salam ++ [LF] ++ u "world".

Definition english_lyrics : str :=
  u "Hello" ++ [LF] ++ u "[Chorus]" ++ [LF] ++ u "world".


Definition plain_user : user_data :=
  {| lyrics_lang := u "English"; include_annotations := false |}.

(** A marked section with an unknown keyword.  html.parser fails on it
    in [parse_marked_section], which bs4 reports as
    [ParserRejectedMarkup]; text without markup is accepted. *)
Definition marked_section : str := u "<![a]>".

Definition marked_section_parser (markup : str) : option (list node) :=
  if Str.eqb markup marked_section then None else Lib.parse_text markup.

(** Two anchors with the same reference at different depths of a
    paragraph, and an annotation whose body has a tag with an attribute. *)
Definition nested_anchors_markup : str :=
  u "<p><a href=1>x</a> <i><a href=1>y</a></i></p>".

Definition nested_anchors : list node :=
  [Elem (u "p") []
        [Elem (u "a") [(u "href", u "1")] [Text (u "x")];
         Text (u " ");
         Elem (u "i") [] [Elem (u "a") [(u "href", u "1")] [Text (u "y")]]]].

Definition titled_annotations : list (str * str) :=
  [(u "1", u "<i title=t>note</i>")].

Definition titled_markup : str :=
  u "<annotation>" ++ [LF] ++ u "!--!" ++ [LF] ++ u "<i title=t>note</i>"
    ++ [LF] ++ u "!__!" ++ [LF] ++ u "</annotation>".

Definition titled_block : list node :=
  [Elem (u "annotation") []
        [Text ([LF] ++ u "!--!" ++ [LF]);
         Elem (u "i") [(u "title", u "t")] [Text (u "note")];
         Text ([LF] ++ u "!__!" ++ [LF])]].

Definition nested_anchors_parser : str -> option (list node) :=
  Lib.parse_table [(nested_anchors_markup, nested_anchors);
                   (titled_markup, titled_block)].



(* ================================================================== *)
(** * The matcher seen from outside: where matches end, and scanning *)
(* ================================================================== *)

(** No [^] in a pattern: its matches then depend on the text ahead only. *)
Fixpoint bol_free (r : re) : bool :=
  match r with
  | Bol => false
  | Seq a b | Alt a b => bol_free a && bol_free b
  | Star _ a | Grp _ a | NLook a => bol_free a
  | Eps | Chr _ => true
  end.

(** No group in a pattern: its matches capture nothing. *)
Fixpoint group_free (r : re) : bool :=
  match r with
  | Grp _ _ => false
  | Seq a b | Alt a b => group_free a && group_free b
  | Star _ a | NLook a => group_free a
  | Eps | Chr _ | Bol => true
  end.

(** [iter] on the text ahead alone. *)
Fixpoint iters (greedy : bool) (f : str -> list str) (fuel : nat) (s : str)
  : list str :=
  match fuel with
  | O => [s]
  | S k =>
      let more :=
        flat_map
          (fun s' => if length s' <? length s then iters greedy f k s' else [])
          (f s) in
      if greedy then more ++ [s] else s :: more
  end.

(** The texts left ahead by the matches of [r] at [s], in backtracking
    order. *)
Fixpoint ends (r : re) (s : str) {struct r} : list str :=
  match r with
  | Eps => [s]
  | Chr p =>
      match s with
      | c :: s' => if p c then [s'] else []
      | [] => []
      end
  | Seq a b => flat_map (ends b) (ends a s)
  | Alt a b => ends a s ++ ends b s
  | Star g a => iters g (ends a) (length s) s
  | Grp _ a => ends a s
  | Bol => [s]
  | NLook a => match ends a s with [] => [s] | _ :: _ => [] end
  end.

(** What one search reports to [sub]: the replacement text and the length
    of the match. *)
Definition step_of (r : re) (repl : list piece) (p : option char) (s : str)
  : option (str * nat) :=
  match first_match r p s with
  | Some st => Some (expand repl st, match_len s st)
  | None => None
  end.

(** A left-to-right scan driven by a search function [F] that reports only
    non-empty matches. *)
Fixpoint scan (F : option char -> str -> option (str * nat))
         (p : option char) (s : str) (skip : nat) : str :=
  match s with
  | [] => []
  | c :: s' =>
      match skip with
      | S k => scan F (Some c) s' k
      | O =>
          match F p s with
          | Some (out, S k) => out ++ scan F (Some c) s' k
          | _ => c :: scan F (Some c) s' 0
          end
      end
  end.

(** The character before the position reached after passing [a]. *)
Definition prev_after (p : option char) (a : str) : option char :=
  match rev a with
  | [] => p
  | c :: _ => Some c
  end.

(* ================================================================== *)
(** * The patterns, read directly *)
(* ================================================================== *)

Fixpoint drop_while (P : char -> bool) (s : str) : str :=
  match s with
  | c :: s' => if P c then drop_while P s' else s
  | [] => []
  end.

(** The texts left by a greedy star over a character class, the longest
    run first. *)
Fixpoint class_tails (P : char -> bool) (s : str) : list str :=
  match s with
  | c :: s' => if P c then class_tails P s' ++ [s] else [s]
  | [] => [[]]
  end.

(** The text after one newline-or-break marker at the head of [s]: a line
    feed, or [<br], white space, slashes and [>]. *)
Definition take_marker (s : str) : option str :=
  match s with
  | [] => None
  | c :: s' =>
      if ceqb LF c then Some s'
      else if startswith (u "<br") s
           then match drop_while (ceqb (ch "/"))
                                 (drop_while is_space (skipn 3 s)) with
                | c2 :: s3 => if ceqb (ch ">") c2 then Some s3 else None
                | [] => None
                end
           else None
  end.

Definition marker_ends (s : str) : list str :=
  match take_marker s with
  | Some s' => [s']
  | None => []
  end.

(** The texts left after each number of markers at the head of [s], the
    longest run first. *)
Definition marker_tails (s : str) : list str :=
  iters true marker_ends (length s) s.

(** Where the match of [newline_pattern] at the head of [s] ends. *)
Definition newline_end (s : str) : option str :=
  match take_marker s with
  | Some s1 =>
      match take_marker s1 with
      | Some s2 =>
          List.find (fun t => negb (startswith (u "[") t)) (marker_tails s2)
      | None => None
      end
  | None => None
  end.

(** The search of [remove_extra_newlines], read directly. *)
Definition newline_step (p : option char) (s : str) : option (str * nat) :=
  match newline_end s with
  | Some t => Some ([LF], length s - length t)
  | None => None
  end.

(** [m] is exactly one newline-or-break marker. *)
Definition is_marker (m : str) : bool :=
  match take_marker m with
  | Some [] => true
  | _ => false
  end.

(** [s] does not begin with a marker. *)
Definition no_marker_ahead (s : str) : bool :=
  match take_marker s with
  | Some _ => false
  | None => true
  end.

(** The texts left after each number of the markers [ms] before [t], the
    whole run first. *)
Fixpoint tails_of (ms : list str) (t : str) : list str :=
  match ms with
  | [] => [t]
  | m :: ms' => tails_of ms' t ++ [concat (m :: ms') ++ t]
  end.

(** Text without an opening angle bracket: no tag and no break marker. *)
Definition plain (s : str) : bool :=
  forallb (fun c => negb (ceqb (ch "<") c)) s.

(** [s] ends with a line feed. *)
Definition ends_in_newline (s : str) : bool :=
  match rev s with
  | c :: _ => ceqb LF c
  | [] => false
  end.

(** What a run of [k] line feeds before [t] becomes. *)
Definition squeezed_run (k : nat) (t : str) : str :=
  match k with
  | 0 => []
  | 1 => [LF]
  | _ => if startswith (u "[") t then [LF; LF] else [LF]
  end.

(* ================================================================== *)
(** * Lines, and the two language filters read directly *)
(* ================================================================== *)

(** The class of [.]: every character but the line feed. *)
Definition not_lf (c : char) : bool := negb (ceqb c LF).

Fixpoint take_while (P : char -> bool) (s : str) : str :=
  match s with
  | c :: s' => if P c then c :: take_while P s' else []
  | [] => []
  end.

(** The text up to the next line feed, and the text from it on. *)
Definition line (s : str) : str := take_while not_lf s.
Definition after_line (s : str) : str := drop_while not_lf s.

(** [^] under MULTILINE at a position whose previous character is [p]. *)
Definition bol (p : option char) : bool :=
  match p with
  | None => true
  | Some c => ceqb c LF
  end.

(** One search of a language filter: a protected span (header, escape,
    annotation, tag) found by [prot] is copied; otherwise the remainder of
    the line is dropped when it holds a character of class [Q], for an
    anchored filter only at the start of a line. *)
Definition strip_step (prot : str -> option str) (anchored : bool)
           (Q : char -> bool) (p : option char) (s : str)
  : option (str * nat) :=
  match prot s with
  | Some t => Some (firstn (length s - length t) s, length s - length t)
  | None =>
      if (negb anchored || bol p) && existsb Q (line s)
      then Some ([], length s - length (after_line s))
      else None
  end.

(** [y] is [s] without some pieces, each of which stood right before a
    line feed or at the very end. *)
Inductive trunc : str -> str -> Prop :=
| trunc_nil : trunc [] []
| trunc_keep (c : char) (y s : str) : trunc y s -> trunc (c :: y) (c :: s)
| trunc_drop (d y s : str) :
    trunc y s -> (s = [] \/ exists s', s = LF :: s') -> trunc y (d ++ s).

(** [v] is [u] without some line feeds, each of which stood right before a
    line feed that is kept. *)
Inductive squeeze : str -> str -> Prop :=
| squeeze_nil : squeeze [] []
| squeeze_keep (c : char) (v u : str) :
    squeeze v u -> squeeze (c :: v) (c :: u)
| squeeze_drop (v u : str) :
    squeeze (LF :: v) (LF :: u) -> squeeze (LF :: v) (LF :: LF :: u).

(** No break markup in a text. *)
Definition br_free (s : str) : bool := negb (contains (u "<br") s).

(** A language filter as a scan. *)
Definition strip_scan (prot : str -> option str) (anchored : bool)
           (Q : char -> bool) (p : option char) (s : str) : str :=
  scan (strip_step prot anchored Q) p s 0.

(** [a] is exactly one protected span: it is recognised whatever follows,
    it neither begins nor ends with a line feed. *)
Definition token (prot : str -> option str) (a : str) : Prop :=
  (forall w, prot (a ++ w) = Some w)
  /\ (exists c a', a = c :: a' /\ ceqb c LF = false)
  /\ ends_in_newline a = false.

(** A text in which the filter finds nothing to drop: it is made of
    protected spans and of characters at which the filter does not fire. *)
Inductive stable (prot : str -> option str) (anchored : bool)
          (Q : char -> bool) : option char -> str -> Prop :=
| stable_nil (p : option char) : stable prot anchored Q p []
| stable_token (p : option char) (a t : str) :
    token prot a ->
    stable prot anchored Q (prev_after p a) t ->
    stable prot anchored Q p (a ++ t)
| stable_keep (p : option char) (c : char) (s : str) :
    prot (c :: s) = None ->
    (negb anchored || bol p) && existsb Q (line (c :: s)) = false ->
    stable prot anchored Q (Some c) s ->
    stable prot anchored Q p (c :: s).

(** The texts left by a lazy star over a character class, the shortest run
    first. *)
Fixpoint lazy_tails (P : char -> bool) (s : str) : list str :=
  match s with
  | [] => [[]]
  | c :: s' => s :: (if P c then lazy_tails P s' else [])
  end.

Definition orelse {A : Type} (a b : option A) : option A :=
  match a with
  | Some x => Some x
  | None => b
  end.

(** The text after the first occurrence of [w] in [s]. *)
Fixpoint after_first (w s : str) : option str :=
  if startswith w s then Some (skipn (length w) s)
  else match s with
       | [] => None
       | _ :: s' => after_first w s'
       end.

Definition header_class (c : char) : bool :=
  negb (ceqb c (ch "]") || ceqb c LF).

Definition tag_class (c : char) : bool :=
  negb (ceqb c (ch ">") || ceqb c LF).

(** A run of characters of a class closed by one character: the text
    after the closing character. *)
Definition span_end (cls : char -> bool) (close : char) (s : str)
  : option str :=
  match drop_while cls s with
  | x :: r => if ceqb close x then Some r else None
  | [] => None
  end.

(** Where each protected span at the head of [s] ends: a section header,
    an escaped newline, an escaped U+2005 or U+200C, an annotation between
    its delimiters, a tag. *)
Definition header_end (s : str) : option str :=
  match s with
  | c :: y :: s'' =>
      if ceqb (ch "[") c && header_class y
      then span_end header_class (ch "]") s''
      else None
  | _ => None
  end.

Definition escape_end (s : str) : option str :=
  if startswith (u "\n") s then Some (skipn 2 s) else None.

Definition u200_end (s : str) : option str :=
  if startswith (u "\u200") s
  then match skipn 5 s with
       | x :: r =>
           if ceqb x (ch "5") || ceqb x (ch "c") then Some r else None
       | [] => None
       end
  else None.

Definition annotation_end (s : str) : option str :=
  if startswith (u "!--!") s then after_first (u "!__!") (skipn 4 s)
  else None.

Definition tag_end (s : str) : option str :=
  match s with
  | c :: s' => if ceqb (ch "<") c then span_end tag_class (ch ">") s' else None
  | [] => None
  end.

(** The first alternative of both filters; [remove_english] also protects
    the escaped code points. *)
Definition protected_end (with_u200 : bool) (s : str) : option str :=
  orelse (header_end s)
   (orelse (escape_end s)
    (orelse (if with_u200 then u200_end s else None)
     (orelse (annotation_end s) (tag_end s)))).

(** An annotation span: the two delimiters with a text between them in
    which the closing delimiter does not show up earlier. *)
Definition is_annotation (a : str) : Prop :=
  exists m, a = u "!--!" ++ m ++ u "!__!"
            /\ contains (u "!__!") (m ++ u "!__") = false.

(** What is known of a protected span: it is recognised whatever follows,
    it is not empty, and it has no line feed unless it is an annotation. *)
Definition protected_span (with_u200 : bool) (a : str) : Prop :=
  (forall w, protected_end with_u200 (a ++ w) = Some w)
  /\ (forallb not_lf a = true /\ a <> [] \/ is_annotation a).

(** No break markup in the strings of a subtree. *)
Fixpoint node_br_free (n : node) : bool :=
  match n with
  | Text s => br_free s
  | Comment _ => true
  | Elem _ _ kids => forallb node_br_free kids
  end.

Definition doc_br_free (v : pyvalue) : bool :=
  match v with
  | VTag _ _ kids | VSoup kids => forallb node_br_free kids
  | _ => true
  end.

(** A header with two break markers between two accented letters, as one
    string of a document. *)
Definition header_with_breaks : str :=
  [ch "["; 233%N] ++ u "<br><br>" ++ [233%N; ch "]"].

(* ================================================================== *)
(** * has_sentence (utils.py, lines 424-439) *)
(* ================================================================== *)

(** The loop returns [True] at the first element of [sentences] that
    occurs in [sentence], [False] when it runs to its end. *)
Fixpoint has_sentence (sentences : list str) (sentence : str) : bool :=
  match sentences with
  | [] => false
  | x :: sentences' =>
      if contains x sentence then true else has_sentence sentences' sentence
  end.

(* ================================================================== *)
(** * remove_links (utils.py, lines 40 and 150-161) *)
(* ================================================================== *)

(** [links_pattern], [\nhttp[s]*.*] *)
Definition links_pattern : re :=
  Seq (c1 LF)
      (Seq (lit (u "http"))
           (Seq (Star true (c1 (ch "s"))) (Star true dot))).

Definition remove_links (s : str) : str := sub links_pattern [] s.

(* ================================================================== *)
(** * get_description (utils.py, lines 366-389) *)
(* ================================================================== *)

(** The data an API response decodes to: [None], a boolean, a number, a
    string, a list, a dict with string keys (in insertion order). *)
Inductive value : Type :=
| JNull
| JBool (b : bool)
| JNum (z : Z)
| JStr (s : str)
| JList (l : list value)
| JDict (d : list (str * value)).

(** Python's truth value. *)
Definition truthy (v : value) : bool :=
  match v with
  | JNull => false
  | JBool b => b
  | JNum z => negb (Z.eqb z 0)
  | JStr s => negb (length s =? 0)
  | JList l => negb (length l =? 0)
  | JDict d => negb (length d =? 0)
  end.

(** Subscripting raises [IndexError] besides the exceptions of [exn]. *)
Inductive raised : Type :=
| Builtin (e : exn)
| IndexError.

Inductive outcome (A : Type) : Type :=
| Returns (a : A)
| Raises (e : raised).
Arguments Returns {A} a.
Arguments Raises {A} e.

Definition and_then {A B : Type} (r : outcome A) (f : A -> outcome B)
  : outcome B :=
  match r with
  | Returns a => f a
  | Raises e => Raises e
  end.

(** [d.get(k)] *)
Fixpoint dict_get (k : str) (d : list (str * value)) : option value :=
  match d with
  | [] => None
  | (k', v) :: d' => if Str.eqb k' k then Some v else dict_get k d'
  end.

(** [v[k]] for a string [k]: a dict is looked up, any other value
    refuses a string subscript. *)
Definition item (v : value) (k : str) : outcome value :=
  match v with
  | JDict d =>
      match dict_get k d with
      | Some x => Returns x
      | None => Raises (Builtin KeyError)
      end
  | JNull | JBool _ | JNum _ | JStr _ | JList _ =>
      Raises (Builtin TypeError)
  end.

(** [v[0]]: the first element of a list, the first character of a
    string; a dict has no key [0], its keys being strings. *)
Definition first_item (v : value) : outcome value :=
  match v with
  | JList (x :: _) => Returns x
  | JStr (c :: _) => Returns (JStr [c])
  | JList [] | JStr [] => Raises IndexError
  | JDict _ => Raises (Builtin KeyError)
  | JNull | JBool _ | JNum _ => Raises (Builtin TypeError)
  end.

Definition get_description (entity : list (str * value)) : outcome str :=
  match dict_get (u "description_annotation") entity with
  | None => Returns []
  | Some description_annotation =>
      if negb (truthy description_annotation) then Returns []
      else
        and_then (item description_annotation (u "annotations")) (fun l =>
        and_then (first_item l) (fun first =>
        and_then (item first (u "body")) (fun body =>
        and_then (item body (u "plain")) (fun description =>
          if negb (truthy description) then Returns []
          else
            match description with
            | JStr s =>
                Returns (strip (remove_extra_newlines (remove_links s)))
            | JNull | JBool _ | JNum _ | JList _ | JDict _ =>
                (* the patterns take a string only *)
                Raises (Builtin TypeError)
            end))))
  end.


(* ================================================================== *)
(** * Patterns that look behind *)
(* ================================================================== *)

(** A pattern of [Re], a negative lookbehind [(?<!c)] for one character
    of a class, or one of these after the other. *)
Inductive rex : Type :=
| Plain (r : re)
| NLookBehind (p : char -> bool)
| SeqX (a b : rex).

Fixpoint runx (r : rex) (st : state) : list state :=
  match r with
  | Plain r => run r st
  | NLookBehind p =>
      match prev st with
      | Some c => if p c then [] else [st]
      | None => [st]
      end
  | SeqX a b => flat_map (runx b) (runx a st)
  end.

(** [pattern.sub(repl, s)] for any matcher [m] that lists the matches at
    a position in backtracking order: the scan of [sub_from]. *)
Fixpoint sub_with (m : state -> list state) (repl : list piece)
         (p : option char) (s : str) (skip : nat) : str :=
  match s with
  | [] =>
      match hd_error (m (mk p [] [])) with
      | Some st => expand repl st
      | None => []
      end
  | c :: s' =>
      match skip with
      | S k => sub_with m repl (Some c) s' k
      | O =>
          match hd_error (m (mk p s [])) with
          | Some st =>
              match match_len s st with
              | S k => expand repl st ++ sub_with m repl (Some c) s' k
              | O =>
                  expand repl st ++
                  match List.find (fun st => negb (match_len s st =? 0))
                                  (m (mk p s [])) with
                  | Some st2 =>
                      expand repl st2 ++
                      sub_with m repl (Some c) s' (match_len s st2 - 1)
                  | None => c :: sub_with m repl (Some c) s' 0
                  end
              end
          | None => c :: sub_with m repl (Some c) s' 0
          end
      end
  end.

Definition subx (r : rex) (repl : list piece) (s : str) : str :=
  sub_with (runx r) repl None s 0.

(* ================================================================== *)
(** * fix_section_headers and extract_lyrics_for_card
      (utils.py, lines 48-49, 164-177 and 207-216) *)
(* ================================================================== *)

(** a{0,1} *)
Definition opt (a : re) : re := Alt a Eps.

(** [SECTION_HEADERS], [\n{0,1}\[.*?\]\n{0,1}] *)
Definition SECTION_HEADERS : re :=
  Seq (opt (c1 LF))
      (Seq (c1 (ch "["))
           (Seq (Star false dot) (Seq (c1 (ch "]")) (opt (c1 LF))))).

(** [FIX_SECTION_HEADERS], [(?<!\n)\n\[] *)
Definition FIX_SECTION_HEADERS : rex :=
  SeqX (NLookBehind (ceqb LF)) (Plain (lit [LF; ch "["])).

Definition fix_section_headers (string : str) : str :=
  subx FIX_SECTION_HEADERS [Lit [LF; LF; ch "["]] string.

Section Card.

(** [BeautifulSoup(markup, "html.parser")], from outside the repository:
    the contents of the document built for a page that html.parser
    accepts. *)
Variable html_parser : str -> list node.

Definition extract_lyrics_for_card (html_lyrics : str) : str :=
  let lyrics := strip (get_text (html_parser html_lyrics)) in
  let lyrics := fix_section_headers lyrics in
  sub SECTION_HEADERS [] lyrics.

End Card.

(* ================================================================== *)
(** * Database.user (db.py, lines 8-69) *)
(* ================================================================== *)

(** [d[k] = v] on a dict: the value of a key that is there is replaced
    where it stands, a new key goes to the end. *)
Fixpoint dict_set (k : str) (v : value) (d : list (str * value))
  : list (str * value) :=
  match d with
  | [] => [(k, v)]
  | (k', v') :: d' =>
      if Str.eqb k' k then (k', v) :: d' else (k', v') :: dict_set k v d'
  end.

(** [d.update(other)] *)
Definition dict_update (d other : list (str * value)) : list (str * value) :=
  fold_left (fun acc kv => dict_set (fst kv) (snd kv) acc) other d.

(** What a call that goes to the database can raise: an exception of
    psycopg2 (no connection, a query that fails), or one of Python's. *)
Inductive db_raised : Type :=
| Psycopg2Error
| Python (e : raised).

Inductive db_result (A : Type) : Type :=
| Done (a : A)
| Failed (e : db_raised).
Arguments Done {A} a.
Arguments Failed {A} e.

Section Db.

(** The database, from outside the repository: what [cursor.fetchall()]
    returns in [select] (nothing when psycopg2 raises on the way), and
    whether [psycopg2.connect] gives a connection and a cursor when
    [insert] is called. *)
Variable fetched : option (list (list value)).
Variable insert_connects : bool.

(** [select]: the first row as a dict, or the empty list that
    [fetchall] gave. *)
Definition select : db_result (option (list (str * value))) :=
  match fetched with
  | None => Failed Psycopg2Error
  | Some [] => Done None
  | Some (row :: _) =>
      match row with
      | c0 :: c1 :: c2 :: c3 :: _ =>
          Done (Some [(u "chat_id", c0);
                      (u "include_annotations", c1);
                      (u "lyrics_lang", c2);
                      (u "menu_lang", c3)])
      | _ => Failed (Python IndexError)   (* a row of fewer columns *)
      end
  end.

(** [insert] through the wrapper of [get_cursor].  The wrapper connects
    and then calls [func(self, *args, cursor, **kwargs)], the cursor by
    position behind the other arguments; [insert] declares
    [(self, chat_id, *data, cursor)], so [cursor] is a keyword-only
    parameter, the cursor passed by position lands in [data], and the call
    raises [TypeError] for the missing keyword argument before the body of
    [insert] runs. *)
Definition insert (chat_id : value) (data : list value) : db_result unit :=
  if insert_connects then Failed (Python (Builtin TypeError))
  else Failed Psycopg2Error.

(** The preferences of a new user. *)
Definition default_preferences : list (str * value) :=
  [(u "include_annotations", JBool false);
   (u "lyrics_language", JStr (u "English + Non-English"));
   (u "menu_language", JStr (u "English"))].

(** [user]: [user_data] is updated in place; it is given back here with
    the outcome of the call. *)
Definition user (chat_id : value) (user_data : list (str * value))
  : list (str * value) * db_result unit :=
  match select with
  | Failed e => (user_data, Failed e)
  | Done (Some res) => (dict_update user_data res, Done tt)
  | Done None =>
      (dict_update user_data default_preferences,
       insert chat_id [JBool false; JStr (u "English + Non-English");
                       JStr (u "English")])
  end.

End Db.

(* ================================================================== *)
(** * The new patterns read directly, and what the statements speak of *)
(* ================================================================== *)

(** A line that begins like a link. *)
Definition is_link_line (l : str) : bool := startswith (u "http") l.

(** A node the loop body does not fire at: a string, a comment, or a tag
    with a supported name. *)
Definition kept_as_is (supported : list str) (n : node) : bool :=
  match name_of n with
  | None => true
  | Some nm => is_supported supported nm
  end.

(** The search of [remove_links], read directly: a line feed followed by
    [http] is matched together with the rest of that line. *)
Definition links_step (p : option char) (s : str) : option (str * nat) :=
  match s with
  | c :: r =>
      if ceqb LF c && is_link_line r
      then Some ([], length s - length (after_line r))
      else None
  | [] => None
  end.

(** A text without a line feed. *)
Definition lf_free (l : str) : bool := forallb not_lf l.

(** Two line feeds in a row stand only before an opening bracket (so no
    three stand in a row). *)
Fixpoint blank_only_before_header (s : str) : bool :=
  match s with
  | [] => true
  | c :: s' =>
      (if ceqb LF c
       then match s' with
            | c' :: s'' => if ceqb LF c' then startswith (u "[") s'' else true
            | [] => true
            end
       else true)
      && blank_only_before_header s'
  end.

(** A node with the text of its strings taken out: the tags, their
    attributes, the comments, and where the strings stand. *)
Fixpoint shape (n : node) : node :=
  match n with
  | Text _ => Text []
  | Comment _ => n
  | Elem nm attrs kids => Elem nm attrs (List.map shape kids)
  end.

(** Text in which no protected span can begin: no opening bracket, no
    backslash, no exclamation mark, no opening angle bracket. *)
Definition opener_free (s : str) : bool :=
  forallb (fun c => negb (ceqb (ch "[") c || ceqb (ch "\") c
                          || ceqb (ch "!") c || ceqb (ch "<") c)) s.

(** Every line that holds a character of class [Q] emptied, the line
    feeds kept. *)
Definition blank_lines (Q : char -> bool) (s : str) : str :=
  join [LF] (List.map (fun l => if existsb Q l then [] else l)
                      (split [LF] s)).

(** Every anchor of a subtree has an [href], and that [href] is a key of
    [annotations]. *)
Fixpoint anchors_known (annotations : list (str * str)) (n : node) : bool :=
  match n with
  | Text _ | Comment _ => true
  | Elem nm attrs kids =>
      (if Str.eqb nm (u "a")
       then match lookup (u "href") attrs with
            | Some annotation_id =>
                match lookup annotation_id annotations with
                | Some _ => true
                | None => false
                end
            | None => false
            end
       else true)
      && forallb (anchors_known annotations) kids
  end.





(** A text without a hyphen, and a text of ASCII characters. *)
Definition hyphen_free (s : str) : bool :=
  forallb (fun c => negb (ceqb (ch "-") c)) s.

Definition ascii_only (s : str) : bool :=
  forallb (fun c => negb (non_ascii c)) s.

(** An entity as the API gives it: the description annotation with its
    list of annotations, whose first holds [plain] under [body]. *)
Definition entity_with (annotations : list value) : list (str * value) :=
  [(u "id", JNum 1);
   (u "description_annotation",
    JDict [(u "annotations", JList annotations)])].

Definition annotation_with (plain : value) : value :=
  JDict [(u "body", JDict [(u "plain", plain)])].

(** The search of [fix_section_headers], read directly: a line feed and
    an opening bracket, not behind a line feed. *)
Definition after_lf (p : option char) : bool :=
  match p with
  | Some c => ceqb LF c
  | None => false
  end.

Definition fix_step (p : option char) (s : str) : option (str * nat) :=
  if startswith [LF; ch "["] s && negb (after_lf p)
  then Some ([LF; LF; ch "["], 2)
  else None.

(** Every line feed that stands before an opening bracket stands behind a
    line feed; [behind_lf] tells whether the text itself does. *)
Fixpoint spaced (behind_lf : bool) (s : str) : bool :=
  match s with
  | [] => true
  | c :: s' =>
      (if ceqb LF c && startswith (u "[") s' then behind_lf else true)
      && spaced (ceqb LF c) s'
  end.

(** Text without an opening bracket. *)
Definition bracket_free (s : str) : bool :=
  forallb (fun c => negb (ceqb (ch "[") c)) s.

(** Lyrics in sections: each has a header line between brackets and then
    its lines; the first section opens the text, every other one comes
    after a line feed, or after two when a blank line stands before it. *)
Record lyric_section := {
  blank_before : bool;
  heading : str;
  verses : str
}.

Definition section_text (sec : lyric_section) : str :=
  ch "[" :: heading sec ++ ch "]" :: LF :: verses sec.

Definition later_sections (l : list lyric_section) : str :=
  flat_map (fun sec => (if blank_before sec then [LF; LF] else [LF])
                       ++ section_text sec) l.

Definition song_text (l : list lyric_section) : str :=
  match l with
  | [] => []
  | sec :: l' => section_text sec ++ later_sections l'
  end.

(** A heading holds neither a closing bracket nor a line feed; the lines
    of a section hold no opening bracket, are not empty and do not end in
    a line feed. *)
Definition good_section (sec : lyric_section) : bool :=
  forallb header_class (heading sec)
  && bracket_free (verses sec)
  && negb (length (verses sec) =? 0)
  && negb (ends_in_newline (verses sec)).

(** The same section with a blank line before it. *)
Definition with_blank (sec : lyric_section) : lyric_section :=
  {| blank_before := true; heading := heading sec; verses := verses sec |}.

(** One search of [SECTION_HEADERS.sub("", ...)]. *)
Definition sh_step : option char -> str -> option (str * nat) :=
  step_of SECTION_HEADERS [].



(** A place in a document: the elements before and after it among its
    siblings, and the same for each tag around it, the innermost first
    named. *)
Inductive place : Type :=
| Here (before after : list node)
| Inside (before : list node) (name : str) (attrs : list (str * str))
         (inner : place) (after : list node).

(** The document with [x] put at the place. *)
Fixpoint fill (c : place) (x : list node) : list node :=
  match c with
  | Here before after => before ++ x ++ after
  | Inside before nm attrs inner after =>
      before ++ [Elem nm attrs (fill inner x)] ++ after
  end.

(** No anchor comes before the place in document order: none among the
    elements before it, and no tag around it is an anchor. *)
Fixpoint first_in_order (c : place) : bool :=
  match c with
  | Here before _ => forallb no_anchor before
  | Inside before nm _ inner _ =>
      forallb no_anchor before && negb (Str.eqb nm (u "a"))
      && first_in_order inner
  end.

(** What comes after the place in document order. *)
Fixpoint later (c : place) : list node :=
  match c with
  | Here _ after => after
  | Inside _ _ _ inner after => later inner ++ after
  end.

(** Every anchor of a subtree has the reference [annotation_id]. *)
Fixpoint refers_to (annotation_id : str) (n : node) : bool :=
  match n with
  | Text _ | Comment _ => true
  | Elem nm attrs kids =>
      (if Str.eqb nm (u "a")
       then match lookup (u "href") attrs with
            | Some id => Str.eqb id annotation_id
            | None => false
            end
       else true)
      && forallb (refers_to annotation_id) kids
  end.

(** The body of an annotation is accepted by html.parser and holds no
    tag that the clean-up loop takes out. *)
Definition clean_body (html_parser : str -> option (list node))
           (identifiers : str * str) (format_type : str) (body : str)
  : bool :=
  match html_parser (annotation_content format_type identifiers body) with
  | Some annotation => forallb left_in_place annotation
  | None => false
  end.

(** The non-empty ends of a text, the longest first. *)
Fixpoint tails (s : str) : list str :=
  match s with
  | [] => []
  | _ :: s' => s :: tails s'
  end.

(** [y] is a break marker that is not yet closed: [<br] with white space
    and then slashes behind it, and nothing else. *)
Definition break_opening (y : str) : bool :=
  startswith (u "<br") y
  && match drop_while (ceqb (ch "/"))
                      (drop_while is_space (skipn 3 y)) with
     | [] => true
     | _ :: _ => false
     end.

(** The text ends with a marker, or inside a break marker that is not yet
    closed. *)
Definition open_ended (s : str) : bool :=
  existsb (fun y => is_marker y || break_opening y) (tails s).

(** [w] begins as a marker does, with a line feed or an opening angle
    bracket. *)
Definition marker_start (w : str) : bool :=
  match w with
  | [] => false
  | c :: _ => ceqb LF c || ceqb (ch "<") c
  end.

(** No null character. *)
Definition null_free (s : str) : bool :=
  forallb (fun c => negb (c =? 0)%N) s.

(** An entity whose description has an empty plain text, among the other
    keys that such dicts have. *)
Definition empty_plain_body : list (str * value) :=
  [(u "html", JStr (u "<p></p>")); (u "plain", JStr [])].

Definition empty_plain_annotation : list (str * value) :=
  [(u "id", JNum 3); (u "body", JDict empty_plain_body)].

Definition empty_plain_description : list (str * value) :=
  [(u "id", JNum 2); (u "annotations", JList [JDict empty_plain_annotation])].

Definition empty_plain_entity : list (str * value) :=
  [(u "id", JNum 1);
   (u "description_annotation", JDict empty_plain_description)].
(* ================================================================== *)
(** * Strings: basic facts *)
(* ================================================================== *)

Lemma ceqb_eq (a b : char) : ceqb a b = true <-> a = b.
Proof. apply N.eqb_eq. Qed.

Lemma ceqb_refl (a : char) : ceqb a a = true.
Proof. apply N.eqb_refl. Qed.

Lemma str_eqb_eq (a b : str) : Str.eqb a b = true <-> a = b.
Proof.
  revert b; induction a as [|x a IH]; intros [|y b]; simpl;
    try (split; (discriminate || reflexivity)).
  rewrite andb_true_iff, ceqb_eq, IH. split.
  - intros [-> ->]; reflexivity.
  - intros H; inversion H; auto.
Qed.

Lemma str_eqb_refl (a : str) : Str.eqb a a = true.
Proof. apply str_eqb_eq; reflexivity. Qed.

Lemma startswith_app (p s : str) :
  startswith p s = true -> exists t, s = p ++ t.
Proof.
  revert s; induction p as [|x p IH]; intros s H.
  - exists s; reflexivity.
  - destruct s as [|y s]; simpl in H; [discriminate|].
    apply andb_true_iff in H as [Hxy Hp]. apply ceqb_eq in Hxy; subst y.
    destruct (IH _ Hp) as [t ->]. exists t; reflexivity.
Qed.

Lemma startswith_prefix (p t : str) : startswith p (p ++ t) = true.
Proof.
  induction p as [|x p IH]; simpl; [reflexivity|].
  rewrite ceqb_refl, IH; reflexivity.
Qed.

(* ================================================================== *)
(** * find_matching_lyrics *)
(* ================================================================== *)

Section SnippetMatcherFacts.

Variable similar : str -> str -> bool.
Variable clean_str : str -> str.

Let hit := any_hit similar clean_str.

Lemma collect_below (lines todo m : list str) :
  length m < length lines ->
  collect similar clean_str lines todo m
  = m ++ firstn (length lines - length m) (List.filter (hit lines) todo).
Proof.
  revert m; induction todo as [|line todo IH]; intros m Hm; simpl.
  - rewrite firstn_nil, app_nil_r; reflexivity.
  - fold (hit lines line). destruct (hit lines line) eqn:Hhit.
    + rewrite length_app; simpl.
      destruct (Nat.eqb_spec (length m + 1) (length lines)) as [E|E].
      * replace (length lines - length m) with 1 by lia.
        simpl. reflexivity.
      * rewrite IH by (rewrite length_app; simpl; lia).
        rewrite length_app; simpl.
        replace (length lines - length m)
          with (S (length lines - (length m + 1))) by lia.
        simpl. rewrite <- app_assoc; reflexivity.
    + destruct (Nat.eqb_spec (length m) (length lines)) as [E|E]; [lia|].
      apply IH; assumption.
Qed.

Lemma matching_lines_firstn (lines : list str) (lyrics : str) :
  matching_lines similar clean_str lines lyrics
  = firstn (length lines) (List.filter (hit lines) (split [LF] lyrics)).
Proof.
  unfold matching_lines.
  destruct lines as [|l lines].
  - simpl. destruct (split [LF] lyrics); reflexivity.
  - rewrite collect_below by (simpl; lia).
    reflexivity.
Qed.

End SnippetMatcherFacts.

(** C1 (as amended).  [find_matching_lyrics] is a total function: with [n]
    candidate lines it keeps the first [n] lines of the lyrics that match
    some candidate; it returns null exactly when there is no such line, and
    otherwise the kept lines joined by newlines, also when fewer than [n]
    lines matched. *)
Theorem find_matching_lyrics_returns_hits
        (similar : str -> str -> bool) (clean_str : str -> str)
        (lines : list str) (lyrics : str) :
  find_matching_lyrics similar clean_str lines lyrics
  = match firstn (length lines)
                 (List.filter (any_hit similar clean_str lines)
                              (split [LF] lyrics)) with
    | [] => None
    | m => Some (join [LF] m)
    end.
Proof.
  unfold find_matching_lyrics.
  rewrite matching_lines_firstn. reflexivity.
Qed.

(** C1, counterexample.  Two candidates, one of which is a line of the
    lyrics: one line is matched, fewer than the two candidates, and that
    single line is returned instead of null. *)
Lemma find_matching_lyrics_partial_match :
  let lines := [u "hello world"; u "foo bar"] in
  let lyrics := u "intro" ++ [LF] ++ u "hello world" ++ [LF] ++ u "outro" in
  length (matching_lines Lib.similar Lib.clean_str lines lyrics)
  < length lines
  /\ find_matching_lyrics Lib.similar Lib.clean_str lines lyrics
     = Some (u "hello world").
Proof. vm_compute. split; [lia | reflexivity]. Qed.

(* ================================================================== *)
(** * get_song_metadata *)
(* ================================================================== *)

(** C4, the code at the input of the claim: [TRANSLATION_PARENTHESES] takes
    one Persian character between the parentheses, so the five-letter word
    stays in the title. *)
Theorem get_song_metadata_translation_stub :
  get_song_metadata translation_stub
  = Ok (u "Song Title (" ++ farsi ++ u ")", [u "Artist Name"], [])
  /\ get_song_metadata translation_stub
     <> Ok (u "Song Title", [u "Artist Name"], []).
Proof. split; [vm_compute; reflexivity | vm_compute; discriminate]. Qed.

Lemma split_from_hyphen_length (s acc : str) :
  length (split_from (u "-") s acc 0)
  = S (count_occ N.eq_dec s (ch "-")).
Proof.
  revert acc; induction s as [|c s IH]; intros acc; [reflexivity|].
  cbn [split_from]. change (u "-") with [ch "-"].
  cbn [startswith]. rewrite andb_true_r.
  cbn [count_occ].
  destruct (N.eq_dec c (ch "-")) as [->|Hne].
  - rewrite ceqb_refl. cbn [length Nat.sub]. rewrite IH. reflexivity.
  - replace (ceqb (ch "-") c) with false.
    + apply IH.
    + symmetry. apply not_true_iff_false. rewrite ceqb_eq. congruence.
Qed.

Lemma split_from_hd (sep s acc : str) (skip : nat) :
  exists t, hd [] (split_from sep s acc skip) = rev acc ++ t.
Proof.
  revert acc skip; induction s as [|c s IH]; intros acc skip; simpl.
  - exists []; rewrite app_nil_r; reflexivity.
  - destruct skip as [|k]; [|apply IH].
    destruct (startswith sep (c :: s)).
    + exists []; simpl; rewrite app_nil_r; reflexivity.
    + destruct (IH (c :: acc) 0) as [t Ht]. rewrite Ht.
      simpl. rewrite <- app_assoc. eexists; reflexivity.
Qed.

Lemma split_from_amp_other (a : char) (s acc : str) :
  ceqb (ch " ") a = false ->
  split_from (u " & ") (a :: s) acc 0 = split_from (u " & ") s (a :: acc) 0.
Proof.
  intros H. cbn [split_from].
  change (u " & ") with [ch " "; ch "&"; ch " "].
  cbn [startswith]. rewrite H. reflexivity.
Qed.

Lemma split_genius (nm : str) :
  startswith (u "Genius") nm = true ->
  startswith (u "Genius") (hd [] (split (u " & ") nm)) = true.
Proof.
  intros H. destruct (startswith_app _ _ H) as [t ->].
  unfold split. change (u "Genius" ++ t)
    with (71 :: 101 :: 110 :: 105 :: 117 :: 115 :: t)%N.
  do 6 (rewrite split_from_amp_other by reflexivity).
  destruct (split_from_hd (u " & ") t [115; 117; 105; 110; 101; 71]%N 0)
    as [t' Ht].
  match goal with
  | |- startswith _ ?x = true =>
      replace x with (rev [115; 117; 105; 110; 101; 71]%N ++ t')
        by (symmetry; exact Ht)
  end.
  reflexivity.
Qed.

(** C10.  On the translation-stub path (primary artist name starting with
    "Genius", no featured artist) [get_song_metadata] raises [ValueError]
    whenever the title, once the translation parentheses are removed, does
    not hold exactly one hyphen. *)
Theorem get_song_metadata_hyphens (s : song) :
  startswith (u "Genius") (name (primary_artist s)) = true ->
  featured_artists s = [] ->
  count_occ N.eq_dec
            (strip (sub TRANSLATION_PARENTHESES [] (title s))) (ch "-") <> 1 ->
  get_song_metadata s = Raise ValueError.
Proof.
  intros Hg Hf Hc. unfold get_song_metadata.
  rewrite (split_genius _ Hg), Hf. cbn [List.map length Nat.eqb andb].
  pose proof (split_from_hyphen_length
                (strip (sub TRANSLATION_PARENTHESES [] (title s))) [])
    as Hlen.
  fold (split (u "-") (strip (sub TRANSLATION_PARENTHESES [] (title s))))
    in Hlen.
  destruct (split (u "-") (strip (sub TRANSLATION_PARENTHESES [] (title s))))
    as [|a [|b [|c l]]]; cbn [List.map]; try reflexivity.
  cbn [length] in Hlen. exfalso. apply Hc. injection Hlen as Hlen. symmetry. exact Hlen.
Qed.

Lemma get_song_metadata_hyphens_witness :
  get_song_metadata no_hyphen_stub = Raise ValueError.
Proof.
  apply get_song_metadata_hyphens.
  - reflexivity.
  - reflexivity.
  - vm_compute. discriminate.
Defined.

(* ================================================================== *)
(** * remove_unsupported_tags *)
(* ================================================================== *)

(** C2, the code at a failing input: the loop walks the direct children of
    the document only, so an unsupported tag inside a supported one stays. *)
Theorem remove_unsupported_tags_keeps_nested :
  remove_unsupported_tags nested_div [u "b"] = nested_div
  /\ In (u "div")
        (descendant_names (remove_unsupported_tags nested_div [u "b"]))
  /\ is_supported [u "b"] (u "div") = false.
Proof.
  vm_compute. split; [reflexivity|]. split; [|reflexivity].
  right. left. reflexivity.
Qed.

Lemma tag_count_app (a b : list node) :
  tag_count (a ++ b) = tag_count a + tag_count b.
Proof.
  unfold tag_count. rewrite map_app, list_sum_app. reflexivity.
Qed.

Lemma scan_once_fewer_tags (supported : list str) (soup soup' : list node) :
  scan_once supported soup = Some soup' -> tag_count soup' < tag_count soup.
Proof.
  revert soup'; induction soup as [|tag rest IH]; intros soup' H;
    [discriminate|].
  simpl in H.
  assert (Hrest : forall r, option_map (cons tag) (scan_once supported rest)
                            = Some r -> tag_count r < tag_count (tag :: rest)).
  { intros r Hr. destruct (scan_once supported rest) as [rest'|];
      [|discriminate].
    injection Hr as <-. specialize (IH _ eq_refl).
    change (tag :: rest') with ([tag] ++ rest').
    change (tag :: rest) with ([tag] ++ rest).
    rewrite !tag_count_app. lia. }
  destruct tag as [s|s|nm attrs kids]; try (apply Hrest; exact H).
  destruct (negb (is_supported supported nm)); [|apply Hrest; exact H].
  injection H as <-.
  change (Elem nm attrs kids :: rest) with ([Elem nm attrs kids] ++ rest).
  rewrite !tag_count_app.
  assert (tag_count [Elem nm attrs kids] = S (tag_count kids)) as ->.
  { unfold tag_count. simpl. lia. }
  destruct (flat_map text_of kids);
    [change (tag_count []) with 0; lia | lia].
Qed.

Lemma restart_loop_done (supported : list str) (fuel : nat)
      (soup : list node) :
  tag_count soup < fuel ->
  scan_once supported (restart_loop supported fuel soup) = None.
Proof.
  revert soup; induction fuel as [|k IH]; intros soup Hf; [lia|].
  simpl. destruct (scan_once supported soup) as [soup'|] eqn:E.
  - apply IH. apply scan_once_fewer_tags in E. lia.
  - exact E.
Qed.

(** The loop of [remove_unsupported_tags] ends: the fuel given to it is
    never used up, the last run of the [for] loop finds nothing to remove. *)
Lemma remove_unsupported_tags_terminates (soup : list node)
      (supported : list str) :
  scan_once supported (remove_unsupported_tags soup supported) = None.
Proof. apply restart_loop_done. lia. Qed.

Lemma scan_once_none_top (supported : list str) (soup : list node) :
  scan_once supported soup = None ->
  forall nm attrs kids,
    In (Elem nm attrs kids) soup -> is_supported supported nm = true.
Proof.
  induction soup as [|tag rest IH]; intros H nm attrs kids Hin;
    [destruct Hin|].
  simpl in H.
  destruct tag as [s|s|nm0 a0 k0].
  - destruct Hin as [Heq|Hin]; [discriminate|].
    destruct (scan_once supported rest); [discriminate|].
    eapply IH; [reflexivity | eassumption].
  - destruct Hin as [Heq|Hin]; [discriminate|].
    destruct (scan_once supported rest); [discriminate|].
    eapply IH; [reflexivity | eassumption].
  - destruct (is_supported supported nm0) eqn:E; simpl in H; [|discriminate].
    destruct (scan_once supported rest); [discriminate|].
    destruct Hin as [Heq|Hin].
    + injection Heq as <- _ _. exact E.
    + eapply IH; [reflexivity | eassumption].
Qed.

(** X1.  What the loop does achieve: every direct child of the document
    that is left has a supported name. *)
Lemma remove_unsupported_tags_top_level (soup : list node)
      (supported : list str) (nm : str) (attrs : list (str * str))
      (kids : list node) :
  In (Elem nm attrs kids) (remove_unsupported_tags soup supported) ->
  is_supported supported nm = true.
Proof.
  apply scan_once_none_top. apply remove_unsupported_tags_terminates.
Qed.






(* ================================================================== *)
(** * format_language: type dispatch and the example *)
(* ================================================================== *)

(** C8 (as amended).  [format_language] raises [TypeError] exactly when
    [lyrics] is neither a document nor a string.  It returns a document
    exactly for a document and for a string whose formatted text
    html.parser accepts, and raises [ParserRejectedMarkup] exactly for a
    string whose formatted text html.parser rejects. *)
Theorem format_language_type_error
        (html_parser : str -> option (list node)) (lyrics : pyvalue)
        (lyrics_language : str) :
  (format_language html_parser lyrics lyrics_language = Raise TypeError
   <-> is_document lyrics || is_string lyrics = false)
  /\ ((exists doc, format_language html_parser lyrics lyrics_language
                   = Ok doc /\ is_document doc = true)
      <-> (is_document lyrics = true
           \/ exists s, lyrics = VStr s
                        /\ html_parser (string_formatter lyrics_language s)
                           <> None))
  /\ (format_language html_parser lyrics lyrics_language
      = Raise ParserRejectedMarkup
      <-> exists s, lyrics = VStr s
                    /\ html_parser (string_formatter lyrics_language s)
                       = None).
Proof.
  destruct lyrics as [nm attrs kids|kids|s| |z|b];
    cbn [format_language is_document is_string orb].
  1,2: split; [split; discriminate|]; split;
    [ split; [intros _; left; reflexivity
             | intros _; eexists; split; reflexivity]
    | split; [discriminate | intros (s & H & _); discriminate] ].
  2,3,4: split; [split; reflexivity|]; split;
    [ split; [ intros (doc & H & _); discriminate
             | intros [H|(s & H & _)]; discriminate ]
    | split; [discriminate | intros (s & H & _); discriminate] ].
  unfold BeautifulSoup.
  destruct (html_parser (string_formatter lyrics_language s))
    as [contents|] eqn:E; cbn [bind].
  - split; [split; discriminate|]. split.
    + split.
      * intros _. right. exists s. split; [reflexivity|].
        rewrite E. discriminate.
      * intros _. eexists. split; reflexivity.
    + split; [discriminate|].
      intros (s' & H & H'). injection H as <-. congruence.
  - split; [split; discriminate|]. split.
    + split.
      * intros (doc & H & _). discriminate.
      * intros [H|(s' & H & H')]; [discriminate|].
        injection H as <-. congruence.
    + split; [|reflexivity]. intros _. exists s. split; [reflexivity|exact E].
Qed.

(** C8, counterexample.  The string [<![a]>] is a marked section with an
    unknown keyword: html.parser gives up on it, and [format_language]
    raises [ParserRejectedMarkup] instead of returning. *)
Lemma format_language_rejected_string :
  format_language marked_section_parser (VStr marked_section)
                  (u "English + Non-English")
  = Raise ParserRejectedMarkup.
Proof. vm_compute. reflexivity. Qed.

(** C5.  English-only on the four-line example: the Persian line goes, the
    header stays, the blank line left behind is collapsed.  html.parser is
    only asked to keep the text of markup-free input. *)
Theorem format_language_english_example
        (html_parser : str -> option (list node)) :
  (forall s, markup_free s = true ->
             exists doc, html_parser s = Some doc /\ get_text doc = s) ->
  exists doc,
    format_language html_parser (VStr mixed_lyrics) (u "English")
    = Ok (VSoup doc)
    /\ get_text doc = english_lyrics.
Proof.
  intros Hparse.
  destruct (Hparse english_lyrics) as (doc & Hdoc & Htext);
    [vm_compute; reflexivity|].
  exists doc. split; [|exact Htext].
  cbn [format_language]. unfold BeautifulSoup.
  replace (string_formatter (u "English") mixed_lyrics) with english_lyrics
    by (vm_compute; reflexivity).
  rewrite Hdoc. reflexivity.
Qed.

Lemma format_language_english_example_witness :
  exists doc,
    format_language Lib.parse_text (VStr mixed_lyrics) (u "English")
    = Ok (VSoup doc)
    /\ get_text doc = english_lyrics.
Proof.
  apply (format_language_english_example Lib.parse_text).
  intros s _. eexists. split; [reflexivity|].
  destruct s as [|c s]; [reflexivity|].
  unfold get_text, Lib.parse_plain, flat_map, text_of.
  apply app_nil_r.
Defined.

(* ================================================================== *)
(** * create_zip *)
(* ================================================================== *)

Section ZipAlbumFacts.

Variable lyrics_doc : Type.
Variable sf_format_title : str -> str -> str.
Variable sf_format_filename : str -> str.
Variable sf_format_annotations :
  str -> list (str * str) -> bool -> str * str -> lyrics_doc.
Variable sf_format_language : lyrics_doc -> str -> str.


End ZipAlbumFacts.



(* ================================================================== *)
(** * format_annotations *)
(* ================================================================== *)

Lemma node_forall_ind (P : node -> Prop) :
  (forall s, P (Text s)) ->
  (forall s, P (Comment s)) ->
  (forall nm attrs kids, Forall P kids -> P (Elem nm attrs kids)) ->
  forall n, P n.
Proof.
  intros HT HC HE. fix IH 1. intros [s|s|nm attrs kids].
  - apply HT.
  - apply HC.
  - apply HE. induction kids as [|k kids IHk]; constructor.
    + apply IH.
    + apply IHk.
Qed.

Unset Implicit Arguments.

Section InlinerFacts.

Variable html_parser : str -> option (list node).
Variable walk_changed_tree : list node -> result (list node).
Variable annotations : list (str * str).
Variable identifiers : str * str.
Variable format_type : str.

Let walk :=
  visit html_parser walk_changed_tree annotations identifiers format_type.
Let walk_all :=
  visit_all html_parser walk_changed_tree annotations identifiers format_type.

Lemma visit_plain_tag (nm : str) (attrs : list (str * str))
      (kids : list node) (used : list str) :
  Str.eqb nm (u "a") = false ->
  walk (Elem nm attrs kids) used
  = (r <- walk_all kids used ;; Ok ([Elem nm attrs (fst r)], snd r)).
Proof.
  intros H. unfold walk. cbn [visit]. rewrite H. reflexivity.
Qed.

(** The equation of [visit] at an anchor. *)
Lemma visit_anchor (attrs : list (str * str)) (kids : list node)
      (used : list str) :
  walk (Elem (u "a") attrs kids) used
  = match lookup (u "href") attrs with
    | None => Raise KeyError
    | Some annotation_id =>
        if existsb (Str.eqb annotation_id) used
        then r <- walk_all kids used ;;
             Ok ([Elem (u "a") attrs (fst r)], snd r)
        else match lookup annotation_id annotations with
             | None => Raise KeyError
             | Some body =>
                 annotation <-
                   BeautifulSoup html_parser
                     (annotation_content format_type identifiers body) ;;
                 annotation <- clean_up walk_changed_tree annotation ;;
                 r <- walk_all kids (used ++ [annotation_id]) ;;
                 Ok (Elem (u "a") [] (fst r) :: annotation, snd r)
             end
    end.
Proof. reflexivity. Qed.

Lemma visit_all_cons (n : node) (l : list node) (used : list str) :
  walk_all (n :: l) used
  = (r <- walk n used ;;
     r' <- walk_all l (snd r) ;;
     Ok (fst r ++ fst r', snd r')).
Proof. reflexivity. Qed.

(** A subtree whose anchors all have a reference that is already used is
    walked without a change. *)
Lemma visit_all_referring (annotation_id : str) (l : list node)
      (used : list str) :
  existsb (Str.eqb annotation_id) used = true ->
  forallb (refers_to annotation_id) l = true ->
  walk_all l used = Ok (l, used).
Proof.
  intros Hu. induction l as [|n l IHl]; intros H; [reflexivity|].
  cbn [forallb] in H. apply andb_true_iff in H as [Hn Hl].
  assert (Hw : walk n used = Ok ([n], used)).
  { clear IHl Hl. revert Hn.
    induction n as [s|s|nm attrs kids IHk] using node_forall_ind;
      intros Hn; try reflexivity.
    cbn [refers_to] in Hn. apply andb_true_iff in Hn as [Hnm Hk].
    assert (Hkids : walk_all kids used = Ok (kids, used)).
    { clear Hnm.
      induction IHk as [|k kids Hk1 _ IHk2]; [reflexivity|].
      cbn [forallb] in Hk. apply andb_true_iff in Hk as [Hk_ Hks].
      rewrite visit_all_cons, (Hk1 Hk_). cbn [bind snd fst].
      rewrite (IHk2 Hks). reflexivity. }
    destruct (Str.eqb nm (u "a")) eqn:Ea.
    - apply str_eqb_eq in Ea. subst nm. rewrite visit_anchor.
      destruct (lookup (u "href") attrs) as [id|]; [|discriminate].
      apply str_eqb_eq in Hnm. subst id.
      rewrite Hu, Hkids. reflexivity.
    - rewrite visit_plain_tag by exact Ea. rewrite Hkids. reflexivity. }
  rewrite visit_all_cons, Hw. cbn [bind snd fst].
  rewrite (IHl Hl). reflexivity.
Qed.

Lemma no_anchor_refers (annotation_id : str) (n : node) :
  no_anchor n = true -> refers_to annotation_id n = true.
Proof.
  induction n as [s|s|nm attrs kids IH] using node_forall_ind;
    try reflexivity.
  cbn [no_anchor refers_to]. intros H.
  apply andb_true_iff in H as [Hnm Hk]. apply negb_true_iff in Hnm.
  rewrite Hnm. cbn [andb].
  induction IH as [|k kids Hk1 _ IHk2]; [reflexivity|].
  cbn [forallb] in *. apply andb_true_iff in Hk as [Hk_ Hks].
  rewrite (Hk1 Hk_), (IHk2 Hks). reflexivity.
Qed.

Lemma visit_all_no_anchor (l : list node) (used : list str) :
  forallb no_anchor l = true -> walk_all l used = Ok (l, used).
Proof.
  revert used. induction l as [|n l IHl]; intros used H; [reflexivity|].
  cbn [forallb] in H. apply andb_true_iff in H as [Hn Hl].
  assert (Hw : walk n used = Ok ([n], used)).
  { clear IHl Hl. revert used Hn.
    induction n as [s|s|nm attrs kids IHk] using node_forall_ind;
      intros used Hn; try reflexivity.
    cbn [no_anchor] in Hn. apply andb_true_iff in Hn as [Hnm Hk].
    apply negb_true_iff in Hnm.
    rewrite visit_plain_tag by exact Hnm.
    assert (Hkids : walk_all kids used = Ok (kids, used)).
    { clear Hnm. revert used.
      induction IHk as [|k kids Hk1 _ IHk2]; intros used; [reflexivity|].
      cbn [forallb] in Hk. apply andb_true_iff in Hk as [Hk_ Hks].
      rewrite visit_all_cons, (Hk1 used Hk_). cbn [bind snd fst].
      rewrite (IHk2 Hks used). reflexivity. }
    rewrite Hkids. reflexivity. }
  rewrite visit_all_cons, Hw. cbn [bind snd fst].
  rewrite (IHl used Hl). reflexivity.
Qed.

Lemma visit_all_app (a b : list node) (used : list str) :
  walk_all (a ++ b) used
  = (r <- walk_all a used ;;
     r' <- walk_all b (snd r) ;;
     Ok (fst r ++ fst r', snd r')).
Proof.
  revert used; induction a as [|n a IH]; intros used.
  - cbn [app]. unfold walk_all at 2. cbn [visit_all bind snd fst app].
    destruct (walk_all b used) as [[l us]|e]; reflexivity.
  - cbn [app]. rewrite !visit_all_cons.
    destruct (walk n used) as [[l1 u1]|e]; [|reflexivity].
    cbn [bind snd fst]. rewrite IH.
    destruct (walk_all a u1) as [[l2 u2]|e]; [|reflexivity].
    cbn [bind snd fst].
    destruct (walk_all b u2) as [[l3 u3]|e]; [|reflexivity].
    cbn [bind snd fst]. rewrite app_assoc. reflexivity.
Qed.

Lemma visit_all_one (n : node) (used : list str) :
  walk_all [n] used
  = (r <- walk n used ;; Ok (fst r, snd r)).
Proof.
  rewrite visit_all_cons.
  destruct (walk n used) as [[l us]|e]; [|reflexivity].
  cbn [bind snd fst]. unfold walk_all. cbn [visit_all bind fst snd].
  rewrite app_nil_r. reflexivity.
Qed.

Lemma existsb_snoc (annotation_id : str) (used : list str) :
  existsb (Str.eqb annotation_id) (used ++ [annotation_id]) = true.
Proof.
  rewrite existsb_app. cbn [existsb]. rewrite str_eqb_refl.
  rewrite orb_true_r. reflexivity.
Qed.

(** The first anchor with a reference: its attributes go, the cleaned
    annotation follows it, and what it holds, where every anchor has the
    same reference, stays. *)
Lemma visit_first_anchor (attrs : list (str * str))
      (kids annotation : list node) (used : list str)
      (annotation_id body : str) :
  lookup (u "href") attrs = Some annotation_id ->
  existsb (Str.eqb annotation_id) used = false ->
  lookup annotation_id annotations = Some body ->
  html_parser (annotation_content format_type identifiers body)
  = Some annotation ->
  forallb left_in_place annotation = true ->
  forallb (refers_to annotation_id) kids = true ->
  walk (Elem (u "a") attrs kids) used
  = Ok (Elem (u "a") [] kids :: List.map strip_attrs annotation,
        used ++ [annotation_id]).
Proof.
  intros Hh Hu Hb Hp Hc Hk. rewrite visit_anchor, Hh, Hu, Hb.
  unfold BeautifulSoup, clean_up. rewrite Hp. cbn [bind]. rewrite Hc.
  cbn [bind].
  rewrite (visit_all_referring annotation_id)
    by (exact Hk || apply existsb_snoc).
  reflexivity.
Qed.

(** The walk of a document whose first anchor stands at the place [c]. *)
Lemma visit_all_fill (c : place) (attrs : list (str * str))
      (kids annotation : list node) (used : list str)
      (annotation_id body : str) :
  first_in_order c = true ->
  lookup (u "href") attrs = Some annotation_id ->
  existsb (Str.eqb annotation_id) used = false ->
  lookup annotation_id annotations = Some body ->
  html_parser (annotation_content format_type identifiers body)
  = Some annotation ->
  forallb left_in_place annotation = true ->
  forallb (refers_to annotation_id) kids = true ->
  forallb (refers_to annotation_id) (later c) = true ->
  walk_all (fill c [Elem (u "a") attrs kids]) used
  = Ok (fill c (Elem (u "a") [] kids :: List.map strip_attrs annotation),
        used ++ [annotation_id]).
Proof.
  intros Hc Hh Hu Hb Hp Hl Hk.
  induction c as [before after|before nm attrs' inner IH after];
    cbn [first_in_order later fill] in *; intros Hafter.
  - rewrite visit_all_app, visit_all_no_anchor by exact Hc.
    cbn [bind snd fst]. rewrite visit_all_app, visit_all_one.
    rewrite (visit_first_anchor attrs kids annotation used annotation_id
                                body Hh Hu Hb Hp Hl Hk).
    cbn [bind snd fst].
    rewrite (visit_all_referring annotation_id)
      by (exact Hafter || apply existsb_snoc).
    reflexivity.
  - apply andb_true_iff in Hc as [Hc Hinner].
    apply andb_true_iff in Hc as [Hbefore Hnm].
    apply negb_true_iff in Hnm.
    rewrite forallb_app in Hafter.
    apply andb_true_iff in Hafter as [Hlater Hafter].
    rewrite visit_all_app, visit_all_no_anchor by exact Hbefore.
    cbn [bind snd fst]. rewrite visit_all_app, visit_all_one.
    rewrite visit_plain_tag by exact Hnm.
    rewrite (IH Hinner Hlater). cbn [bind snd fst].
    rewrite (visit_all_referring annotation_id)
      by (exact Hafter || apply existsb_snoc).
    reflexivity.
Qed.

End InlinerFacts.

(** C3 (as amended).  The first anchor of the document in document
    order, wherever it stands in the tree, with the anchors after it (one
    or more, inside it or behind it, at any depth) all having its
    reference: the annotation is put once, right behind the first anchor,
    whose attributes are cleared; every later anchor is passed over by
    [continue] and keeps its attributes, and nothing else changes.  What
    is put there is the parsed annotation without its attributes other
    than [href], for an annotation that holds no [div], [script],
    [iframe] or [blockquote] tag. *)
Theorem format_annotations_shared_reference
        (html_parser : str -> option (list node))
        (walk_changed_tree : list node -> result (list node))
        (lyrics : str) (annotations : list (str * str))
        (identifiers : str * str) (format_type : str)
        (c : place) (attrs : list (str * str))
        (kids annotation : list node) (annotation_id body : str) :
  html_parser lyrics = Some (fill c [Elem (u "a") attrs kids]) ->
  first_in_order c = true ->
  lookup (u "href") attrs = Some annotation_id ->
  forallb (refers_to annotation_id) (kids ++ later c) = true ->
  lookup annotation_id annotations = Some body ->
  html_parser (annotation_content format_type identifiers body)
  = Some annotation ->
  forallb left_in_place annotation = true ->
  format_annotations html_parser walk_changed_tree lyrics annotations true
                     identifiers format_type
  = Ok (fill c (Elem (u "a") [] kids :: List.map strip_attrs annotation)).
Proof.
  intros Hsoup Hc Hh Hrest Hb Hp Hl.
  rewrite forallb_app in Hrest. apply andb_true_iff in Hrest as [Hk Hafter].
  unfold format_annotations, BeautifulSoup. rewrite Hsoup. cbn [bind].
  replace (negb (length annotations =? 0)) with true
    by (destruct annotations; [discriminate | reflexivity]).
  cbn [andb].
  rewrite (visit_all_fill html_parser walk_changed_tree annotations
             identifiers format_type c attrs kids annotation []
             annotation_id body Hc Hh eq_refl Hb Hp Hl Hk Hafter).
  reflexivity.
Qed.

Lemma format_annotations_shared_reference_witness :
  format_annotations nested_anchors_parser (fun _ => Raise AttributeError)
                     nested_anchors_markup titled_annotations true
                     default_identifiers default_format_type
  = Ok [Elem (u "p") []
          [Elem (u "a") [] [Text (u "x")];
           Elem (u "annotation") []
                [Text ([LF] ++ u "!--!" ++ [LF]);
                 Elem (u "i") [] [Text (u "note")];
                 Text ([LF] ++ u "!__!" ++ [LF])];
           Text (u " ");
           Elem (u "i") []
                [Elem (u "a") [(u "href", u "1")] [Text (u "y")]]]].
Proof.
  apply (format_annotations_shared_reference
           nested_anchors_parser (fun _ => Raise AttributeError)
           nested_anchors_markup titled_annotations default_identifiers
           default_format_type
           (Inside [] (u "p") []
                   (Here []
                         [Text (u " ");
                          Elem (u "i") []
                               [Elem (u "a") [(u "href", u "1")]
                                     [Text (u "y")]]])
                   [])
           [(u "href", u "1")] [Text (u "x")] titled_block
           (u "1") (u "<i title=t>note</i>"));
    reflexivity.
Defined.

(** C3, counterexample.  The markup [<a href=1>x</a><a href=1>y</a>] with
    the annotation ["note"] under reference 1: one annotation block follows
    the first anchor, and the second anchor still has its [href]. *)
Lemma format_annotations_second_anchor_keeps_href :
  format_annotations two_anchors_parser (fun _ => Raise AttributeError)
                     two_anchors_markup note_annotations true
                     default_identifiers default_format_type
  = Ok [Elem (u "a") [] [Text (u "x")];
        Elem (u "annotation") []
             [Text ([LF] ++ u "!--!" ++ [LF] ++ u "note" ++ [LF] ++ u "!__!"
                    ++ [LF])];
        Elem (u "a") [(u "href", u "1")] [Text (u "y")]].
Proof. vm_compute. reflexivity. Qed.

Set Implicit Arguments.

(* ================================================================== *)
(** * The matcher: general facts *)
(* ================================================================== *)

Lemma map_flat_map {A B C : Type} (g : B -> C) (f : A -> list B)
      (l : list A) :
  List.map g (flat_map f l) = flat_map (fun x => List.map g (f x)) l.
Proof.
  induction l as [|x l IH]; simpl; [reflexivity|].
  rewrite map_app, IH. reflexivity.
Qed.

Lemma flat_map_map {A B C : Type} (g : A -> B) (f : B -> list C)
      (l : list A) :
  flat_map f (List.map g l) = flat_map (fun x => f (g x)) l.
Proof.
  induction l as [|x l IH]; simpl; [reflexivity|].
  rewrite IH. reflexivity.
Qed.

Lemma iter_iters (g : bool) (f : state -> list state)
      (fs : str -> list str) :
  (forall st, List.map rest (f st) = fs (rest st)) ->
  forall fuel st,
    List.map rest (iter g f fuel st) = iters g fs fuel (rest st).
Proof.
  intros Hf. induction fuel as [|k IH]; intros st; [reflexivity|].
  cbn [iter iters].
  assert (Hmore :
    List.map rest
      (flat_map (fun st' => if length (rest st') <? length (rest st)
                            then iter g f k st' else []) (f st))
    = flat_map (fun s' => if length s' <? length (rest st)
                          then iters g fs k s' else []) (fs (rest st))).
  { rewrite map_flat_map, <- Hf, flat_map_map.
    apply flat_map_ext. intros st'.
    destruct (length (rest st') <? length (rest st)); [apply IH|reflexivity]. }
  destruct g.
  - rewrite map_app, Hmore. reflexivity.
  - cbn [List.map]. rewrite Hmore. reflexivity.
Qed.

(** Without [^], where the matches end is decided by the text ahead. *)
Lemma run_ends (r : re) :
  bol_free r = true ->
  forall st, List.map rest (run r st) = ends r (rest st).
Proof.
  induction r as [|p|a IHa b IHb|a IHa b IHb|g a IHa|n a IHa| |a IHa];
    cbn [bol_free]; intros Hb st.
  - reflexivity.
  - cbn [run ends]. destruct (rest st) as [|c s']; [reflexivity|].
    destruct (p c); reflexivity.
  - apply andb_true_iff in Hb as [Ha Hb].
    cbn [run ends]. rewrite map_flat_map, <- (IHa Ha), flat_map_map.
    apply flat_map_ext. intros st'. apply IHb; exact Hb.
  - apply andb_true_iff in Hb as [Ha Hb].
    cbn [run ends]. rewrite map_app, IHa, IHb by assumption. reflexivity.
  - cbn [run ends]. apply iter_iters. apply IHa; exact Hb.
  - cbn [run ends]. rewrite map_map. cbn [rest]. apply IHa; exact Hb.
  - discriminate.
  - cbn [run ends]. specialize (IHa Hb st).
    destruct (run a st), (ends a (rest st)); try discriminate; reflexivity.
Qed.

Lemma iter_caps (g : bool) (f : state -> list state) :
  (forall st st', In st' (f st) -> caps st' = caps st) ->
  forall fuel st st', In st' (iter g f fuel st) -> caps st' = caps st.
Proof.
  intros Hf. induction fuel as [|k IH]; intros st st' Hin.
  - destruct Hin as [<-|[]]; reflexivity.
  - cbn [iter] in Hin.
    assert (Hmore : forall x,
      In x (flat_map (fun st1 => if length (rest st1) <? length (rest st)
                                 then iter g f k st1 else []) (f st)) ->
      caps x = caps st).
    { intros x Hx. apply in_flat_map in Hx as (st1 & H1 & Hx).
      destruct (length (rest st1) <? length (rest st)); [|destruct Hx].
      rewrite (IH _ _ Hx). apply Hf; exact H1. }
    destruct g.
    + apply in_app_or in Hin as [Hin|[<-|[]]]; [apply Hmore; exact Hin|].
      reflexivity.
    + destruct Hin as [<-|Hin]; [reflexivity | apply Hmore; exact Hin].
Qed.

(** Without a group, a match captures nothing. *)
Lemma run_caps (r : re) :
  group_free r = true ->
  forall st st', In st' (run r st) -> caps st' = caps st.
Proof.
  induction r as [|p|a IHa b IHb|a IHa b IHb|g a IHa|n a IHa| |a IHa];
    cbn [group_free]; intros Hg st st' Hin.
  - destruct Hin as [<-|[]]; reflexivity.
  - cbn [run] in Hin. destruct (rest st) as [|c s']; [destruct Hin|].
    destruct (p c); [|destruct Hin]. destruct Hin as [<-|[]]. reflexivity.
  - apply andb_true_iff in Hg as [Ha Hb].
    cbn [run] in Hin. apply in_flat_map in Hin as (st1 & H1 & Hin).
    rewrite (IHb Hb _ _ Hin). apply IHa; assumption.
  - apply andb_true_iff in Hg as [Ha Hb].
    cbn [run] in Hin. apply in_app_or in Hin as [Hin|Hin];
      [apply IHa | apply IHb]; assumption.
  - cbn [run] in Hin. eapply iter_caps; [|exact Hin]. apply IHa; exact Hg.
  - discriminate.
  - cbn [run] in Hin. destruct (at_bol st); [|destruct Hin].
    destruct Hin as [<-|[]]; reflexivity.
  - cbn [run] in Hin. destruct (run a st); [|destruct Hin].
    destruct Hin as [<-|[]]; reflexivity.
Qed.

(* ================================================================== *)
(** * Scanning *)
(* ================================================================== *)

Lemma scan_ext (F G : option char -> str -> option (str * nat)) :
  (forall p s, F p s = G p s) ->
  forall s p k, scan F p s k = scan G p s k.
Proof.
  intros H. induction s as [|c s IH]; intros p k; [reflexivity|].
  cbn [scan]. destruct k as [|k]; [|apply IH].
  rewrite H. destruct (G p (c :: s)) as [[out [|n]]|];
    rewrite ?IH; reflexivity.
Qed.

(** [sub] is a scan, for a pattern whose matches are never empty. *)
Lemma sub_from_scan (r : re) (repl : list piece) :
  (forall p s st, first_match r p s = Some st -> 0 < match_len s st) ->
  forall s p k, sub_from r repl p s k = scan (step_of r repl) p s k.
Proof.
  intros Hne. induction s as [|c s IH]; intros p k.
  - cbn [sub_from scan]. destruct (first_match r p []) as [st|] eqn:E;
      [|reflexivity].
    apply Hne in E. unfold match_len in E. simpl in E. lia.
  - cbn [sub_from scan]. destruct k as [|k]; [|apply IH].
    unfold step_of. destruct (first_match r p (c :: s)) as [st|] eqn:E.
    + pose proof (Hne _ _ _ E) as Hpos.
      destruct (match_len (c :: s) st) as [|n]; [lia|].
      rewrite IH. reflexivity.
    + rewrite IH. reflexivity.
Qed.

Lemma prev_after_snoc (p : option char) (a : str) (c : char) :
  prev_after p (a ++ [c]) = Some c.
Proof. unfold prev_after. rewrite rev_app_distr. reflexivity. Qed.

Lemma prev_after_cons (p : option char) (c : char) (a : str) :
  prev_after p (c :: a) = prev_after (Some c) a.
Proof.
  unfold prev_after. simpl.
  destruct (rev a) as [|x l]; reflexivity.
Qed.

(** Passing the rest of a match. *)
Lemma scan_skip (F : option char -> str -> option (str * nat))
      (a s : str) (p : option char) :
  scan F p (a ++ s) (length a) = scan F (prev_after p a) s 0.
Proof.
  revert p; induction a as [|c a IH]; intros p; [reflexivity|].
  cbn [app length]. rewrite prev_after_cons, <- IH.
  destruct a as [|c' a']; reflexivity.
Qed.

(* ================================================================== *)
(** * newline_pattern, read directly *)
(* ================================================================== *)

Lemma flat_map_ext_in {A B : Type} (f g : A -> list B) (l : list A) :
  (forall x, In x l -> f x = g x) -> flat_map f l = flat_map g l.
Proof.
  induction l as [|x l IH]; intros H; simpl; [reflexivity|].
  rewrite (H x (or_introl eq_refl)), IH; [reflexivity|].
  intros y Hy. apply H. right. exact Hy.
Qed.

Lemma iters_ext (g : bool) (f f' : str -> list str) :
  (forall s, f s = f' s) ->
  forall fuel s, iters g f fuel s = iters g f' fuel s.
Proof.
  intros H. induction fuel as [|k IH]; intros s; [reflexivity|].
  cbn [iters]. rewrite H.
  assert (E : flat_map (fun s' => if length s' <? length s
                                  then iters g f k s' else []) (f' s)
              = flat_map (fun s' => if length s' <? length s
                                    then iters g f' k s' else []) (f' s)).
  { apply flat_map_ext. intros s'. rewrite IH. reflexivity. }
  rewrite E. reflexivity.
Qed.

(** More fuel than the length of the text changes nothing, when every step
    consumes something. *)
Lemma iters_fuel (g : bool) (f : str -> list str) :
  (forall s s', In s' (f s) -> length s' < length s) ->
  forall fuel1 fuel2 s,
    length s <= fuel1 -> length s <= fuel2 ->
    iters g f fuel1 s = iters g f fuel2 s.
Proof.
  intros Hf. induction fuel1 as [|k1 IH]; intros fuel2 s H1 H2.
  - destruct s; [|simpl in H1; lia].
    destruct fuel2 as [|k2]; [reflexivity|].
    cbn [iters].
    assert (E : f [] = []).
    { destruct (f []) as [|x l] eqn:E; [reflexivity|].
      specialize (Hf [] x). rewrite E in Hf.
      specialize (Hf (or_introl eq_refl)). simpl in Hf. lia. }
    rewrite E. destruct g; reflexivity.
  - destruct fuel2 as [|k2].
    + destruct s; [|simpl in H2; lia].
      cbn [iters].
      assert (E : f [] = []).
      { destruct (f []) as [|x l] eqn:E; [reflexivity|].
        specialize (Hf [] x). rewrite E in Hf.
        specialize (Hf (or_introl eq_refl)). simpl in Hf. lia. }
      rewrite E. destruct g; reflexivity.
    + cbn [iters].
      assert (E : flat_map (fun s' => if length s' <? length s
                                      then iters g f k1 s' else []) (f s)
                  = flat_map (fun s' => if length s' <? length s
                                        then iters g f k2 s' else []) (f s)).
      { apply flat_map_ext_in. intros s' Hin.
        pose proof (Hf _ _ Hin) as Hlt.
        replace (length s' <? length s) with true
          by (symmetry; apply Nat.ltb_lt; exact Hlt).
        apply IH; lia. }
      rewrite E. reflexivity.
Qed.

Lemma drop_while_length (P : char -> bool) (s : str) :
  length (drop_while P s) <= length s.
Proof.
  induction s as [|c s IH]; simpl; [lia|].
  destruct (P c); simpl; lia.
Qed.

Lemma take_marker_shorter (s s' : str) :
  take_marker s = Some s' -> length s' < length s.
Proof.
  destruct s as [|c s]; [discriminate|]. unfold take_marker.
  destruct (ceqb LF c).
  - intros H; injection H as <-. simpl; lia.
  - destruct (startswith (u "<br") (c :: s)) eqn:Hbr; [|discriminate].
    apply startswith_app in Hbr as [t Ht]. rewrite Ht.
    change (skipn 3 (u "<br" ++ t)) with t.
    pose proof (drop_while_length (ceqb (ch "/")) (drop_while is_space t)).
    pose proof (drop_while_length is_space t).
    destruct (drop_while (ceqb (ch "/")) (drop_while is_space t))
      as [|c2 s3]; [discriminate|].
    destruct (ceqb (ch ">") c2); [|discriminate].
    intros E; injection E as <-. simpl in *. lia.
Qed.

Lemma marker_ends_shorter (s s' : str) :
  In s' (marker_ends s) -> length s' < length s.
Proof.
  unfold marker_ends. destruct (take_marker s) as [t|] eqn:E;
    [|intros []].
  intros [<-|[]]. apply take_marker_shorter; exact E.
Qed.

Lemma marker_tails_some (s s' : str) :
  take_marker s = Some s' -> marker_tails s = marker_tails s' ++ [s].
Proof.
  intros H. pose proof (take_marker_shorter _ H) as Hlt.
  unfold marker_tails. destruct s as [|c s]; [simpl in Hlt; lia|].
  cbn [length iters]. unfold marker_ends at 2. rewrite H.
  cbn [flat_map]. rewrite app_nil_r.
  replace (length s' <? S (length s)) with true
    by (symmetry; apply Nat.ltb_lt; exact Hlt).
  rewrite (@iters_fuel true marker_ends marker_ends_shorter
                       (length s) (length s') s');
    [reflexivity | simpl in Hlt; lia | lia].
Qed.

Lemma marker_tails_none (s : str) :
  take_marker s = None -> marker_tails s = [s].
Proof.
  intros H. unfold marker_tails. destruct s as [|c s]; [reflexivity|].
  cbn [length iters]. unfold marker_ends at 2. rewrite H. reflexivity.
Qed.

Lemma iters_class (P : char -> bool) (s : str) (fuel : nat) :
  length s <= fuel ->
  iters true (ends (Chr P)) fuel s = class_tails P s.
Proof.
  revert fuel; induction s as [|c s IH]; intros fuel H.
  - destruct fuel; reflexivity.
  - destruct fuel as [|k]; [simpl in H; lia|].
    cbn [iters ends class_tails]. destruct (P c); [|reflexivity].
    cbn [flat_map length]. rewrite app_nil_r.
    replace (length s <? S (length s)) with true
      by (symmetry; apply Nat.ltb_lt; lia).
    rewrite IH by (simpl in H; lia). reflexivity.
Qed.

Lemma ends_star_class (P : char -> bool) (s : str) :
  ends (Star true (Chr P)) s = class_tails P s.
Proof. cbn [ends]. apply iters_class. lia. Qed.

(** A greedy class star followed by something that cannot start inside the
    class gives up nothing: it ends where the class ends. *)
Lemma flat_map_class_tails (P : char -> bool) (f : str -> list str)
      (s : str) :
  (forall c t, P c = true -> f (c :: t) = []) ->
  flat_map f (class_tails P s) = f (drop_while P s).
Proof.
  intros H. induction s as [|c s IH]; simpl.
  - apply app_nil_r.
  - destruct (P c) eqn:E.
    + rewrite flat_map_app, IH. cbn [flat_map]. rewrite (H c s E).
      rewrite !app_nil_r. reflexivity.
    + cbn [flat_map]. apply app_nil_r.
Qed.

Lemma space_not_slash (c : char) :
  is_space c = true -> ceqb (ch "/") c = false /\ ceqb (ch ">") c = false.
Proof.
  intros H. split.
  - destruct (ceqb (ch "/") c) eqn:E; [|reflexivity].
    apply ceqb_eq in E. subst c. discriminate.
  - destruct (ceqb (ch ">") c) eqn:E; [|reflexivity].
    apply ceqb_eq in E. subst c. discriminate.
Qed.

Lemma ends_lit_cons (c : char) (l : str) (s : str) :
  ends (lit (c :: l)) s
  = match s with
    | x :: s' => if ceqb c x then ends (lit l) s' else []
    | [] => []
    end.
Proof.
  destruct l as [|c' l].
  - cbn [lit c1 ends]. destruct s as [|x s']; [reflexivity|].
    destruct (ceqb c x); reflexivity.
  - cbn [lit c1 ends]. destruct s as [|x s']; [reflexivity|].
    destruct (ceqb c x); cbn [flat_map]; [apply app_nil_r | reflexivity].
Qed.

Lemma ends_lit (l s : str) :
  ends (lit l) s = if startswith l s then [skipn (length l) s] else [].
Proof.
  revert s; induction l as [|c l IH]; intros s; [reflexivity|].
  rewrite ends_lit_cons. destruct s as [|x s']; [reflexivity|].
  cbn [startswith length skipn]. destruct (ceqb c x); [apply IH|reflexivity].
Qed.

Lemma ends_seq (a b : re) (s : str) :
  ends (Seq a b) s = flat_map (ends b) (ends a s).
Proof. reflexivity. Qed.

Lemma ends_alt (a b : re) (s : str) :
  ends (Alt a b) s = ends a s ++ ends b s.
Proof. reflexivity. Qed.

Lemma ends_grp (n : nat) (a : re) (s : str) : ends (Grp n a) s = ends a s.
Proof. reflexivity. Qed.

Lemma ends_c1 (c : char) (s : str) :
  ends (c1 c) s
  = match s with
    | x :: s' => if ceqb c x then [s'] else []
    | [] => []
    end.
Proof. reflexivity. Qed.

Lemma ends_marker (s : str) : ends marker_re s = marker_ends s.
Proof.
  unfold marker_re, marker_ends, take_marker.
  rewrite ends_grp, ends_alt, ends_seq, ends_lit, ends_c1.
  destruct s as [|c s]; [reflexivity|].
  destruct (ceqb LF c) eqn:Elf.
  - apply ceqb_eq in Elf. subst c. reflexivity.
  - cbn [app].
    destruct (startswith (u "<br") (c :: s)); [|reflexivity].
    change (length (u "<br")) with 3.
    cbn [flat_map]. rewrite app_nil_r.
    set (t := skipn 3 (c :: s)).
    unfold space. rewrite ends_seq, ends_star_class, flat_map_class_tails.
    + rewrite ends_seq.
      change (Star true (c1 (ch "/"))) with (Star true (Chr (ceqb (ch "/")))).
      rewrite ends_star_class, flat_map_class_tails.
      * destruct (drop_while (ceqb (ch "/")) (drop_while is_space t))
          as [|c2 s3]; [reflexivity|].
        rewrite ends_c1. destruct (ceqb (ch ">") c2); reflexivity.
      * intros x t' Hx. rewrite ends_c1. apply ceqb_eq in Hx. subst x.
        reflexivity.
    + intros x t' Hx. apply space_not_slash in Hx as [H1 H2].
      rewrite ends_seq.
      change (Star true (c1 (ch "/"))) with (Star true (Chr (ceqb (ch "/")))).
      rewrite ends_star_class. cbn [class_tails]. rewrite H1.
      cbn [flat_map]. rewrite ends_c1, H2. reflexivity.
Qed.

Lemma iters_bound (g : bool) (f : str -> list str) :
  (forall s s', In s' (f s) -> length s' < length s) ->
  forall fuel s t, In t (iters g f fuel s) -> length t <= length s.
Proof.
  intros Hf. induction fuel as [|k IH]; intros s t Hin.
  - destruct Hin as [<-|[]]. lia.
  - cbn [iters] in Hin.
    assert (Hmore : forall x,
      In x (flat_map (fun s' => if length s' <? length s
                                then iters g f k s' else []) (f s)) ->
      length x <= length s).
    { intros x Hx. apply in_flat_map in Hx as (s1 & H1 & Hx).
      destruct (length s1 <? length s); [|destruct Hx].
      apply IH in Hx. apply Hf in H1. lia. }
    destruct g.
    + apply in_app_or in Hin as [Hin|[<-|[]]]; [apply Hmore; exact Hin|lia].
    + destruct Hin as [<-|Hin]; [lia | apply Hmore; exact Hin].
Qed.

Lemma marker_tails_bound (s t : str) :
  In t (marker_tails s) -> length t <= length s.
Proof. apply iters_bound. apply marker_ends_shorter. Qed.

Lemma ends_nlook_bracket (t : str) :
  ends (NLook (c1 (ch "["))) t
  = if negb (startswith (u "[") t) then [t] else [].
Proof.
  cbn [ends c1]. destruct t as [|x t]; [reflexivity|].
  change (startswith (u "[") (x :: t)) with (ceqb (ch "[") x && true).
  rewrite andb_true_r. destruct (ceqb (ch "[") x); reflexivity.
Qed.

Lemma hd_error_flat_map_filter {A : Type} (P : A -> bool) (l : list A) :
  hd_error (flat_map (fun x => if P x then [x] else []) l) = List.find P l.
Proof.
  induction l as [|x l IH]; [reflexivity|].
  cbn [flat_map List.find]. destruct (P x); [reflexivity | exact IH].
Qed.

(** Where [newline_pattern] ends its match. *)
Lemma ends_newline_pattern (s : str) :
  hd_error (ends newline_pattern s) = newline_end s.
Proof.
  unfold newline_pattern, two_or_more, newline_end.
  rewrite !ends_seq, ends_marker. unfold marker_ends at 1.
  destruct (take_marker s) as [s1|]; [|reflexivity].
  cbn [flat_map]. rewrite !app_nil_r.
  rewrite ends_seq, ends_marker. unfold marker_ends at 1.
  destruct (take_marker s1) as [s2|]; [|reflexivity].
  cbn [flat_map]. rewrite !app_nil_r.
  cbn [ends]. rewrite (iters_ext true _ _ ends_marker).
  fold (marker_tails s2).
  rewrite (flat_map_ext _ _ ends_nlook_bracket).
  apply hd_error_flat_map_filter.
Qed.

Lemma newline_end_shorter (s t : str) :
  newline_end s = Some t -> length t < length s.
Proof.
  unfold newline_end.
  destruct (take_marker s) as [s1|] eqn:E1; [|discriminate].
  destruct (take_marker s1) as [s2|] eqn:E2; [|discriminate].
  intros H. apply find_some in H as [H _].
  apply marker_tails_bound in H.
  apply take_marker_shorter in E1, E2. lia.
Qed.

Lemma first_match_ends (r : re) (p : option char) (s : str) :
  bol_free r = true ->
  option_map rest (first_match r p s) = hd_error (ends r s).
Proof.
  intros H. unfold first_match.
  change (ends r s) with (ends r (rest (mk p s []))).
  rewrite <- (run_ends r H (mk p s [])).
  destruct (run r (mk p s [])); reflexivity.
Qed.

Lemma step_of_newline_pattern (p : option char) (s : str) :
  step_of newline_pattern [Lit [LF]] p s = newline_step p s.
Proof.
  unfold step_of, newline_step.
  pose proof (first_match_ends newline_pattern p s eq_refl) as H.
  rewrite ends_newline_pattern in H.
  destruct (first_match newline_pattern p s) as [st|];
    destruct (newline_end s) as [t|]; try discriminate; [|reflexivity].
  injection H as <-. reflexivity.
Qed.

Lemma newline_pattern_nonempty (p : option char) (s : str) (st : state) :
  first_match newline_pattern p s = Some st -> 0 < match_len s st.
Proof.
  intros H.
  pose proof (first_match_ends newline_pattern p s eq_refl) as E.
  rewrite ends_newline_pattern, H in E. cbn [option_map] in E.
  symmetry in E. apply newline_end_shorter in E.
  unfold match_len. lia.
Qed.

(** [remove_extra_newlines] as a scan with the pattern read directly. *)
Lemma remove_extra_newlines_scan (s : str) :
  remove_extra_newlines s = scan newline_step None s 0.
Proof.
  unfold remove_extra_newlines, sub.
  rewrite (@sub_from_scan newline_pattern [Lit [LF]]
                          newline_pattern_nonempty).
  apply scan_ext. apply step_of_newline_pattern.
Qed.

(* ================================================================== *)
(** * Scans: one step at a time *)
(* ================================================================== *)

Lemma scan_keep (F : option char -> str -> option (str * nat))
      (p : option char) (c : char) (s : str) :
  F p (c :: s) = None -> scan F p (c :: s) 0 = c :: scan F (Some c) s 0.
Proof. intros H. cbn [scan]. rewrite H. reflexivity. Qed.

Lemma scan_jump (F : option char -> str -> option (str * nat))
      (p : option char) (a t out : str) :
  a <> [] ->
  F p (a ++ t) = Some (out, length a) ->
  scan F p (a ++ t) 0 = out ++ scan F (prev_after p a) t 0.
Proof.
  intros Ha H. destruct a as [|c a]; [congruence|].
  cbn [app scan]. cbn [app length] in H. rewrite H.
  rewrite scan_skip, prev_after_cons. reflexivity.
Qed.

Lemma scan_prev (F : option char -> str -> option (str * nat)) :
  (forall p p' s, F p s = F p' s) ->
  forall s p p' k, scan F p s k = scan F p' s k.
Proof.
  intros H. induction s as [|c s IH]; intros p p' k; [reflexivity|].
  cbn [scan]. destruct k; [|reflexivity].
  rewrite (H p p'). reflexivity.
Qed.

(* ================================================================== *)
(** * remove_extra_newlines on runs of markers *)
(* ================================================================== *)

Lemma take_marker_suffix (s t : str) :
  take_marker s = Some t -> exists a, a <> [] /\ s = a ++ t.
Proof.
  intros H. pose proof (take_marker_shorter _ H) as Hlt.
  assert (Hs : exists a, s = a ++ t).
  { destruct s as [|c s]; [discriminate|]. unfold take_marker in H.
    destruct (ceqb LF c).
    - injection H as <-. exists [c]; reflexivity.
    - destruct (startswith (u "<br") (c :: s)) eqn:Hbr; [|discriminate].
      apply startswith_app in Hbr as [w Hw]. rewrite Hw in *.
      change (skipn 3 (u "<br" ++ w)) with w in H.
      assert (Hd : forall P (x : str), exists b, x = b ++ drop_while P x).
      { intros P x. induction x as [|y x IHx]; [exists []; reflexivity|].
        simpl. destruct (P y); [|exists []; reflexivity].
        destruct IHx as [b Hb]. exists (y :: b). simpl. f_equal. exact Hb. }
      destruct (Hd is_space w) as [b1 Hb1].
      destruct (Hd (ceqb (ch "/")) (drop_while is_space w)) as [b2 Hb2].
      destruct (drop_while (ceqb (ch "/")) (drop_while is_space w))
        as [|c2 s3]; [discriminate|].
      destruct (ceqb (ch ">") c2); [|discriminate].
      injection H as <-.
      exists (u "<br" ++ b1 ++ b2 ++ [c2]).
      rewrite Hb1 at 1. rewrite Hb2 at 1.
      rewrite <- !app_assoc. reflexivity. }
  destruct Hs as [a Ha]. exists a. split; [|exact Ha].
  intros ->. subst s. simpl in Hlt. lia.
Qed.

Lemma newline_step_jump (a t : str) (p : option char) :
  newline_end (a ++ t) = Some t ->
  scan newline_step p (a ++ t) 0 = [LF] ++ scan newline_step None t 0.
Proof.
  intros H. pose proof (newline_end_shorter _ H) as Hlt.
  rewrite length_app in Hlt.
  rewrite (@scan_jump newline_step p a t [LF]).
  - f_equal. apply scan_prev. reflexivity.
  - intros ->. simpl in Hlt. lia.
  - unfold newline_step. rewrite H. rewrite length_app.
    do 2 f_equal. lia.
Qed.

Lemma newline_step_keep (c : char) (s : str) (p : option char) :
  newline_end (c :: s) = None ->
  scan newline_step p (c :: s) 0 = c :: scan newline_step None s 0.
Proof.
  intros H. rewrite scan_keep.
  - f_equal. apply scan_prev. reflexivity.
  - unfold newline_step. rewrite H. reflexivity.
Qed.

(** The first two equations of [remove_extra_newlines]. *)
Lemma remove_extra_newlines_match (a t : str) :
  newline_end (a ++ t) = Some t ->
  remove_extra_newlines (a ++ t) = [LF] ++ remove_extra_newlines t.
Proof.
  intros H. rewrite !remove_extra_newlines_scan.
  apply newline_step_jump; exact H.
Qed.

Lemma remove_extra_newlines_keep (c : char) (s : str) :
  newline_end (c :: s) = None ->
  remove_extra_newlines (c :: s) = c :: remove_extra_newlines s.
Proof.
  intros H. rewrite !remove_extra_newlines_scan.
  apply newline_step_keep; exact H.
Qed.

Lemma startswith_weaken (p s t : str) :
  startswith p s = true -> startswith p (s ++ t) = true.
Proof.
  intros H. apply startswith_app in H as [w ->].
  rewrite <- app_assoc. apply startswith_prefix.
Qed.

Lemma drop_while_app (P : char -> bool) (x y : str) (c : char) (r : str) :
  drop_while P x = c :: r -> drop_while P (x ++ y) = c :: r ++ y.
Proof.
  induction x as [|z x IHx]; [discriminate|].
  simpl. destruct (P z) eqn:Ez.
  - exact IHx.
  - intros H1. injection H1 as -> ->. reflexivity.
Qed.

(** A marker is recognised by what it holds, whatever follows. *)
Lemma take_marker_app (s r t : str) :
  take_marker s = Some r -> take_marker (s ++ t) = Some (r ++ t).
Proof.
  destruct s as [|c s]; [discriminate|]. unfold take_marker.
  change ((c :: s) ++ t) with (c :: s ++ t) at 1.
  cbv iota. destruct (ceqb LF c).
  - intros H; injection H as <-. reflexivity.
  - destruct (startswith (u "<br") (c :: s)) eqn:Hbr; [|discriminate].
    change (c :: s ++ t) with ((c :: s) ++ t).
    rewrite (startswith_weaken _ _ t Hbr).
    apply startswith_app in Hbr as [w Hw]. rewrite Hw.
    rewrite <- app_assoc.
    change (skipn 3 (u "<br" ++ w)) with w.
    change (skipn 3 (u "<br" ++ w ++ t)) with (w ++ t).
    destruct (drop_while is_space w) as [|d dw] eqn:Ew; [discriminate|].
    rewrite (drop_while_app _ _ t Ew).
    change (d :: dw ++ t) with ((d :: dw) ++ t).
    destruct (drop_while (ceqb (ch "/")) (d :: dw)) as [|c2 s3] eqn:E2;
      [discriminate|].
    rewrite (drop_while_app _ _ t E2).
    destruct (ceqb (ch ">") c2); [|discriminate].
    intros H; injection H as <-. reflexivity.
Qed.

Lemma is_marker_take (m t : str) :
  is_marker m = true -> take_marker (m ++ t) = Some t.
Proof.
  unfold is_marker. destruct (take_marker m) as [[|x r]|] eqn:E;
    try discriminate.
  intros _. apply (@take_marker_app m [] t E).
Qed.

Lemma marker_tails_run (ms : list str) (t : str) :
  Forall (fun m => is_marker m = true) ms ->
  no_marker_ahead t = true ->
  marker_tails (concat ms ++ t) = tails_of ms t.
Proof.
  intros Hms Ht. induction Hms as [|m ms Hm _ IH].
  - apply marker_tails_none. unfold no_marker_ahead in Ht.
    cbn [concat app]. destruct (take_marker t); [discriminate|reflexivity].
  - cbn [concat tails_of]. rewrite <- app_assoc.
    rewrite (@marker_tails_some _ _ (@is_marker_take m (concat ms ++ t) Hm)).
    rewrite IH, app_assoc. reflexivity.
Qed.

Lemma tails_of_hd (ms : list str) (t : str) :
  exists l, tails_of ms t = t :: l.
Proof.
  induction ms as [|m ms [l Hl]]; [exists []; reflexivity|].
  cbn [tails_of]. rewrite Hl. eexists; reflexivity.
Qed.

(** A run of two or more markers that is not followed by a bracket is
    matched whole. *)
Lemma newline_end_run (ms : list str) (t : str) :
  2 <= length ms ->
  Forall (fun m => is_marker m = true) ms ->
  no_marker_ahead t = true ->
  startswith (u "[") t = false ->
  newline_end (concat ms ++ t) = Some t.
Proof.
  intros Hlen Hms Ht Hb.
  destruct ms as [|m1 [|m2 ms]]; try (simpl in Hlen; lia).
  inversion Hms as [|? ? H1 Hms1]; subst.
  inversion Hms1 as [|? ? H2 Hms2]; subst.
  unfold newline_end. cbn [concat]. rewrite <- !app_assoc.
  rewrite (@is_marker_take m1 _ H1), (@is_marker_take m2 _ H2).
  rewrite marker_tails_run by assumption.
  destruct (tails_of_hd ms t) as [l ->].
  cbn [List.find]. rewrite Hb. reflexivity.
Qed.

Unset Implicit Arguments.

(* ================================================================== *)
(** * remove_extra_newlines on runs of line feeds *)
(* ================================================================== *)

Lemma take_marker_lf (s : str) : take_marker (LF :: s) = Some s.
Proof. reflexivity. Qed.

Lemma take_marker_other (c : char) (s : str) :
  ceqb LF c = false -> ceqb (ch "<") c = false ->
  take_marker (c :: s) = None.
Proof.
  intros H1 H2. unfold take_marker. rewrite H1.
  change (startswith (u "<br") (c :: s))
    with (ceqb (ch "<") c && startswith (u "br") s).
  rewrite H2. reflexivity.
Qed.

Lemma concat_repeat_lf (k : nat) : concat (repeat [LF] k) = repeat LF k.
Proof. induction k as [|k IH]; simpl; [|rewrite IH]; reflexivity. Qed.

Lemma tails_of_repeat (j : nat) (t : str) :
  exists l, tails_of (repeat [LF] (S j)) t = t :: (LF :: t) :: l.
Proof.
  induction j as [|j [l Hl]].
  - exists []. reflexivity.
  - change (repeat [LF] (S (S j))) with ([LF] :: repeat [LF] (S j)).
    cbn [tails_of]. rewrite Hl. eexists. reflexivity.
Qed.

Lemma newline_end_lf_run (j : nat) (t : str) :
  take_marker t = None ->
  newline_end (LF :: LF :: repeat LF j ++ t)
  = if startswith (u "[") t
    then match j with
         | 0 => None
         | S _ => Some (LF :: t)
         end
    else Some t.
Proof.
  intros Ht. unfold newline_end. rewrite !take_marker_lf.
  rewrite <- concat_repeat_lf, marker_tails_run.
  - destruct j as [|j].
    + cbn [repeat tails_of List.find].
      destruct (startswith (u "[") t); reflexivity.
    + destruct (tails_of_repeat j t) as [l ->].
      cbn [List.find]. destruct (startswith (u "[") t); reflexivity.
  - clear. induction j; constructor; [reflexivity | assumption].
  - unfold no_marker_ahead. rewrite Ht. reflexivity.
Qed.

Lemma newline_end_single (t : str) :
  take_marker t = None -> newline_end (LF :: t) = None.
Proof.
  intros Ht. unfold newline_end. rewrite take_marker_lf, Ht. reflexivity.
Qed.

Lemma newline_end_none (s : str) :
  take_marker s = None -> newline_end s = None.
Proof. intros H. unfold newline_end. rewrite H. reflexivity. Qed.

Lemma repeat_shift {A : Type} (x : A) (j : nat) (t : list A) :
  repeat x (S j) ++ t = repeat x j ++ x :: t.
Proof.
  induction j as [|j IH]; [reflexivity|].
  change (repeat x (S (S j)) ++ t) with (x :: (repeat x (S j) ++ t)).
  rewrite IH. reflexivity.
Qed.

(** A run of line feeds becomes one line feed, or two before a section
    header. *)
Lemma remove_extra_newlines_lf_run (k : nat) (t : str) :
  take_marker t = None ->
  remove_extra_newlines (repeat LF k ++ t)
  = squeezed_run k t ++ remove_extra_newlines t.
Proof.
  intros Ht.
  assert (H1 : remove_extra_newlines (LF :: t)
               = LF :: remove_extra_newlines t).
  { apply remove_extra_newlines_keep. apply newline_end_single; exact Ht. }
  destruct k as [|[|j]]; [reflexivity | exact H1 |].
  change (repeat LF (S (S j)) ++ t) with (LF :: LF :: repeat LF j ++ t).
  pose proof (newline_end_lf_run j t Ht) as E.
  unfold squeezed_run.
  destruct (startswith (u "[") t).
  - destruct j as [|j].
    + cbn [repeat app] in *.
      rewrite (@remove_extra_newlines_keep _ _ E), H1. reflexivity.
    + rewrite repeat_shift in *.
      change (LF :: LF :: repeat LF j ++ LF :: t)
        with ((LF :: LF :: repeat LF j) ++ LF :: t) in *.
      rewrite (@remove_extra_newlines_match _ _ E), H1. reflexivity.
  - change (LF :: LF :: repeat LF j ++ t)
      with ((LF :: LF :: repeat LF j) ++ t) in *.
    rewrite (@remove_extra_newlines_match _ _ E). reflexivity.
Qed.

Lemma remove_extra_newlines_other (c : char) (s : str) :
  ceqb LF c = false -> ceqb (ch "<") c = false ->
  remove_extra_newlines (c :: s) = c :: remove_extra_newlines s.
Proof.
  intros H1 H2. apply remove_extra_newlines_keep.
  apply newline_end_none. apply take_marker_other; assumption.
Qed.

Lemma lf_span (s : str) :
  exists k t, s = repeat LF k ++ t
              /\ (t = [] \/ exists x t', t = x :: t' /\ ceqb LF x = false).
Proof.
  induction s as [|c s (k & t & Hs & Ht)].
  - exists 0, []. split; [reflexivity | left; reflexivity].
  - destruct (ceqb LF c) eqn:E.
    + apply ceqb_eq in E. subst c. exists (S k), t.
      split; [simpl; f_equal; exact Hs | exact Ht].
    + exists 0, (c :: s). split; [reflexivity|].
      right. exists c, s. split; [reflexivity | exact E].
Qed.

Lemma ends_in_newline_snoc (s : str) (c : char) :
  ends_in_newline (s ++ [c]) = ceqb LF c.
Proof. unfold ends_in_newline. rewrite rev_app_distr. reflexivity. Qed.

Lemma ends_in_newline_app (a : str) (x : char) (t : str) :
  ends_in_newline (a ++ x :: t) = ends_in_newline (x :: t).
Proof.
  unfold ends_in_newline. rewrite rev_app_distr.
  destruct (rev (x :: t)) as [|y r] eqn:E; [|reflexivity].
  apply (f_equal (@length _)) in E. rewrite length_rev in E. discriminate.
Qed.

Lemma ends_in_newline_repeat (k : nat) :
  ends_in_newline (repeat LF (S k)) = true.
Proof.
  replace (repeat LF (S k)) with (repeat LF k ++ [LF]).
  - rewrite ends_in_newline_snoc. reflexivity.
  - symmetry. apply repeat_cons.
Qed.

Lemma plain_app (a b : str) : plain (a ++ b) = plain a && plain b.
Proof. apply forallb_app. Qed.

(** Text that holds no tag and does not end in a line feed is handled on
    its own, whatever follows it. *)
Lemma remove_extra_newlines_app (a w : str) :
  plain a = true -> ends_in_newline a = false ->
  remove_extra_newlines (a ++ w)
  = remove_extra_newlines a ++ remove_extra_newlines w.
Proof.
  remember (length a) as n eqn:Hn. revert a Hn.
  induction n as [n IH] using lt_wf_ind. intros a Hn Hp He.
  destruct (lf_span a) as (k & t & Ha & Ht).
  destruct Ht as [-> | (x & t' & -> & Hx)].
  - rewrite app_nil_r in Ha. subst a.
    destruct k as [|k]; [reflexivity|].
    rewrite ends_in_newline_repeat in He. discriminate.
  - subst a. rewrite plain_app in Hp. apply andb_true_iff in Hp as [_ Hp].
    cbn [plain forallb] in Hp. apply andb_true_iff in Hp as [Hx2 Hp].
    apply negb_true_iff in Hx2.
    rewrite ends_in_newline_app in He.
    rewrite <- app_assoc.
    rewrite !remove_extra_newlines_lf_run
      by (apply take_marker_other; assumption).
    rewrite <- app_assoc.
    replace (squeezed_run k ((x :: t') ++ w)) with (squeezed_run k (x :: t'))
      by (destruct k as [|[|k]]; reflexivity).
    f_equal.
    cbn [app]. rewrite !remove_extra_newlines_other by assumption.
    cbn [app]. f_equal.
    destruct t' as [|y t''] eqn:Et; [reflexivity|]. rewrite <- Et in *.
    apply (IH (length t')).
    + rewrite Hn, length_app. simpl. lia.
    + reflexivity.
    + exact Hp.
    + rewrite Et in *.
      change (x :: y :: t'') with ([x] ++ y :: t'') in He.
      rewrite ends_in_newline_app in He. exact He.
Qed.

(** The markers of the direct reading are those of the pattern's group. *)
Lemma is_marker_pattern (m : str) :
  is_marker m = true <-> In [] (ends marker_re m).
Proof.
  rewrite ends_marker. unfold is_marker, marker_ends.
  destruct (take_marker m) as [[|x r]|]; simpl; split;
    try discriminate; try tauto.
  intros [H|[]]. discriminate.
Qed.

(** X3.  Before a section header a run of two or more line feeds is cut
    down to two, not to one: the blank line before the header is kept, and
    only one. *)
Lemma remove_extra_newlines_before_header (pre t : str) (k : nat) :
  plain pre = true -> ends_in_newline pre = false -> 2 <= k ->
  remove_extra_newlines (pre ++ repeat LF k ++ ch "[" :: t)
  = remove_extra_newlines pre ++ [LF; LF]
    ++ remove_extra_newlines (ch "[" :: t).
Proof.
  intros Hp He Hk. rewrite remove_extra_newlines_app by assumption.
  rewrite remove_extra_newlines_lf_run by reflexivity.
  destruct k as [|[|k]]; try lia. reflexivity.
Qed.

(* ================================================================== *)
(** * remove_extra_newlines behind any text *)
(* ================================================================== *)

Lemma tails_app (x y : str) :
  tails (x ++ y) = List.map (fun t => t ++ y) (tails x) ++ tails y.
Proof.
  induction x as [|c x IH]; [reflexivity|].
  cbn [app tails List.map]. rewrite IH. reflexivity.
Qed.

Lemma open_ended_suffix (x y : str) :
  open_ended (x ++ y) = false -> open_ended y = false.
Proof.
  unfold open_ended. rewrite tails_app, existsb_app. intros H.
  apply orb_false_iff in H as [_ H]. exact H.
Qed.

Lemma open_ended_head (y : str) :
  y <> [] -> open_ended y = false ->
  is_marker y = false /\ break_opening y = false.
Proof.
  intros Hy H. destruct y as [|c y]; [congruence|].
  unfold open_ended in H. cbn [tails existsb] in H.
  apply orb_false_iff in H as [H _]. apply orb_false_iff in H. exact H.
Qed.

(** A text that does not begin with [<br] does not come to do so by a
    line feed or an opening angle bracket behind it. *)
Lemma startswith_br_app (y w : str) :
  y <> [] -> startswith (u "<br") y = false -> marker_start w = true ->
  startswith (u "<br") (y ++ w) = false.
Proof.
  intros Hy Hs Hw.
  destruct w as [|x w]; [discriminate|]. cbn [marker_start] in Hw.
  assert (Hb : ceqb (ch "b") x = false /\ ceqb (ch "r") x = false).
  { apply orb_true_iff in Hw as [Hw|Hw]; apply N.eqb_eq in Hw; subst x;
      split; reflexivity. }
  destruct Hb as [Hb Hr].
  destruct y as [|a [|b [|c y]]]; [congruence| | |exact Hs].
  - cbn [app]. change (startswith (u "<br") (a :: x :: w))
      with (ceqb (ch "<") a && (ceqb (ch "b") x && startswith (u "r") w)).
    rewrite Hb. apply andb_false_r.
  - cbn [app]. change (startswith (u "<br") (a :: b :: x :: w))
      with (ceqb (ch "<") a && (ceqb (ch "b") b && (ceqb (ch "r") x && true))).
    rewrite Hr. rewrite !andb_false_r. reflexivity.
Qed.

Lemma drop_while_nil (P : char -> bool) (x : str) :
  drop_while P x = [] -> forall Q, drop_while Q (drop_while P x) = [].
Proof. intros -> Q. reflexivity. Qed.

(** Behind a text that is not the beginning of a marker, a marker is
    looked for in that text alone. *)
Lemma take_marker_closed (y w : str) :
  y <> [] -> break_opening y = false -> marker_start w = true ->
  take_marker (y ++ w) = option_map (fun t => t ++ w) (take_marker y).
Proof.
  intros Hy Hb Hw. destruct (take_marker y) as [r|] eqn:E.
  - apply take_marker_app. exact E.
  - cbn [option_map]. destruct y as [|c y]; [congruence|].
    unfold take_marker in E |- *.
    change ((c :: y) ++ w) with (c :: y ++ w) at 1. cbv iota.
    destruct (ceqb LF c); [discriminate|].
    change (c :: y ++ w) with ((c :: y) ++ w).
    destruct (startswith (u "<br") (c :: y)) eqn:Hbr.
    + rewrite (@startswith_weaken _ _ w Hbr).
      unfold break_opening in Hb.
      rewrite Hbr in Hb. cbn [andb] in Hb.
      apply startswith_app in Hbr as [r Hr]. rewrite Hr in *.
      rewrite <- app_assoc.
      change (skipn 3 (u "<br" ++ r)) with r in *.
      change (skipn 3 (u "<br" ++ r ++ w)) with (r ++ w).
      destruct (drop_while is_space r) as [|d dw] eqn:Ew;
        [discriminate|].
      rewrite (@drop_while_app _ _ w _ _ Ew).
      change (d :: dw ++ w) with ((d :: dw) ++ w).
      destruct (drop_while (ceqb (ch "/")) (d :: dw)) as [|c2 s3] eqn:E2;
        [discriminate|].
      rewrite (@drop_while_app _ _ w _ _ E2).
      destruct (ceqb (ch ">") c2); [discriminate | reflexivity].
    + rewrite startswith_br_app by (assumption || discriminate).
      reflexivity.
Qed.

Lemma take_marker_nil_marker (s : str) :
  take_marker s = Some [] -> is_marker s = true.
Proof. intros H. unfold is_marker. rewrite H. reflexivity. Qed.

(** What a marker leaves of a text that does not end with a marker, nor
    inside one, does so as well. *)
Lemma take_marker_rest (s s' : str) :
  open_ended s = false -> take_marker s = Some s' ->
  s' <> [] /\ open_ended s' = false.
Proof.
  intros Ho E. split.
  - intros ->. apply take_marker_nil_marker in E.
    destruct s as [|c s]; [discriminate|].
    destruct (open_ended_head (c :: s)) as [H _];
      [discriminate | exact Ho | congruence].
  - apply take_marker_suffix in E as (a & _ & ->).
    apply (open_ended_suffix a). exact Ho.
Qed.

Lemma marker_tails_closed (s w : str) :
  marker_start w = true ->
  s <> [] -> open_ended s = false ->
  marker_tails (s ++ w) = List.map (fun t => t ++ w) (marker_tails s)
  /\ Forall (fun t => t <> []) (marker_tails s).
Proof.
  intros Hw. remember (length s) as n eqn:Hn. revert s Hn.
  induction n as [n IH] using lt_wf_ind. intros s Hn Hs Ho.
  destruct (open_ended_head s Hs Ho) as [_ Hb].
  destruct (take_marker s) as [s'|] eqn:E.
  - destruct (take_marker_rest s s' Ho E) as [Hs' Ho'].
    pose proof (@take_marker_shorter _ _ E) as Hlt.
    destruct (IH (length s') ltac:(lia) s' eq_refl Hs' Ho') as [IH1 IH2].
    rewrite (@marker_tails_some _ _ E).
    rewrite (@marker_tails_some _ _ (@take_marker_app s s' w E)).
    rewrite IH1, map_app. split; [reflexivity|].
    apply Forall_app. split; [exact IH2|]. constructor; [exact Hs|constructor].
  - rewrite (@marker_tails_none _ E).
    assert (E' : take_marker (s ++ w) = None)
      by (rewrite take_marker_closed, E by assumption; reflexivity).
    rewrite (@marker_tails_none _ E'). split; [reflexivity|].
    constructor; [exact Hs|constructor].
Qed.

Lemma find_bracket_app (l : list str) (w : str) :
  Forall (fun t => t <> []) l ->
  List.find (fun t => negb (startswith (u "[") t))
            (List.map (fun t => t ++ w) l)
  = option_map (fun t => t ++ w)
               (List.find (fun t => negb (startswith (u "[") t)) l).
Proof.
  induction 1 as [|t l Ht _ IH]; [reflexivity|].
  cbn [List.map List.find].
  replace (startswith (u "[") (t ++ w)) with (startswith (u "[") t)
    by (destruct t as [|c t]; [congruence|];
        cbn [app]; cbn [u startswith list_ascii_of_string List.map];
        reflexivity).
  destruct (negb (startswith (u "[") t)); [reflexivity | exact IH].
Qed.

(** Behind such a text the pattern matches as in that text alone. *)
Lemma newline_end_closed (y w : str) :
  marker_start w = true ->
  y <> [] -> open_ended y = false ->
  newline_end (y ++ w) = option_map (fun t => t ++ w) (newline_end y).
Proof.
  intros Hw Hy Ho. destruct (open_ended_head y Hy Ho) as [_ Hb].
  unfold newline_end. rewrite (take_marker_closed y w Hy Hb Hw).
  destruct (take_marker y) as [s1|] eqn:E1; [|reflexivity].
  cbn [option_map].
  destruct (take_marker_rest y s1 Ho E1) as [Hs1 Ho1].
  destruct (open_ended_head s1 Hs1 Ho1) as [_ Hb1].
  rewrite (take_marker_closed s1 w Hs1 Hb1 Hw).
  destruct (take_marker s1) as [s2|] eqn:E2; [|reflexivity].
  cbn [option_map].
  destruct (take_marker_rest s1 s2 Ho1 E2) as [Hs2 Ho2].
  destruct (marker_tails_closed s2 w Hw Hs2 Ho2) as [-> Hne].
  apply find_bracket_app. exact Hne.
Qed.

Lemma marker_tails_suffix (s t : str) :
  In t (marker_tails s) -> exists m, s = m ++ t.
Proof.
  remember (length s) as n eqn:Hn. revert s Hn.
  induction n as [n IH] using lt_wf_ind. intros s Hn H.
  destruct (take_marker s) as [s'|] eqn:E.
  - rewrite (@marker_tails_some _ _ E) in H.
    apply in_app_or in H as [H|[<-|[]]]; [|exists []; reflexivity].
    pose proof (@take_marker_shorter _ _ E) as Hlt.
    destruct (IH (length s') ltac:(lia) s' eq_refl H) as [m ->].
    apply take_marker_suffix in E as (a & _ & ->).
    exists (a ++ m). rewrite app_assoc. reflexivity.
  - rewrite (@marker_tails_none _ E) in H. destruct H as [<-|[]].
    exists []. reflexivity.
Qed.

Lemma newline_end_suffix (s t : str) :
  newline_end s = Some t -> exists m, s = m ++ t.
Proof.
  unfold newline_end.
  destruct (take_marker s) as [s1|] eqn:E1; [|discriminate].
  destruct (take_marker s1) as [s2|] eqn:E2; [|discriminate].
  intros H. apply find_some in H as [H _].
  apply marker_tails_suffix in H as [m ->].
  apply take_marker_suffix in E1 as (a & _ & ->).
  apply take_marker_suffix in E2 as (b & _ & ->).
  exists (a ++ b ++ m). rewrite <- !app_assoc. reflexivity.
Qed.

(** A text that ends neither with a marker nor inside a break marker is
    handled on its own when a marker follows it. *)
Lemma remove_extra_newlines_closed (a w : str) :
  marker_start w = true ->
  open_ended a = false ->
  remove_extra_newlines (a ++ w)
  = remove_extra_newlines a ++ remove_extra_newlines w.
Proof.
  intros Hw. remember (length a) as n eqn:Hn. revert a Hn.
  induction n as [n IH] using lt_wf_ind. intros a Hn Ho.
  destruct a as [|c a]; [reflexivity|].
  pose proof (newline_end_closed (c :: a) w Hw ltac:(discriminate) Ho) as E.
  destruct (newline_end (c :: a)) as [t|] eqn:Et; cbn [option_map] in E.
  - destruct (newline_end_suffix _ _ Et) as [m Hm].
    pose proof (@newline_end_shorter _ _ Et) as Hlt.
    rewrite Hm in Et, E, Ho |- *. rewrite <- app_assoc in E |- *.
    rewrite (@remove_extra_newlines_match m t Et).
    rewrite (@remove_extra_newlines_match m (t ++ w) E).
    cbn [app]. f_equal.
    apply (IH (length t)); [|reflexivity|].
    + rewrite Hn, Hm. rewrite Hm in Hlt. exact Hlt.
    + apply (open_ended_suffix m). exact Ho.
  - cbn [app] in E |- *.
    rewrite (@remove_extra_newlines_keep c a Et).
    rewrite (@remove_extra_newlines_keep c (a ++ w) E).
    cbn [app]. f_equal.
    apply (IH (length a)); [simpl in Hn; lia | reflexivity |].
    apply (open_ended_suffix [c]). exact Ho.
Qed.

Lemma marker_begins (m t : str) :
  is_marker m = true -> marker_start (m ++ t) = true.
Proof.
  unfold is_marker. destruct m as [|c m]; [discriminate|].
  unfold take_marker. cbn [app marker_start]. destruct (ceqb LF c) eqn:E1.
  - reflexivity.
  - destruct (startswith (u "<br") (c :: m)) eqn:E2; [|discriminate].
    change (startswith (u "<br") (c :: m))
      with (ceqb (ch "<") c && startswith (u "br") m) in E2.
    apply andb_true_iff in E2 as [E2 _]. rewrite E2. reflexivity.
Qed.

Lemma run_begins (ms : list str) (t : str) :
  2 <= length ms -> Forall (fun m => is_marker m = true) ms ->
  marker_start (concat ms ++ t) = true.
Proof.
  intros Hlen Hms. destruct ms as [|m ms]; [simpl in Hlen; lia|].
  inversion Hms as [|? ? Hm _]; subst.
  cbn [concat]. rewrite <- app_assoc. apply marker_begins. exact Hm.
Qed.

Lemma marker_not_bracket (m t : str) :
  is_marker m = true -> startswith (u "[") (m ++ t) = false.
Proof.
  intros H. pose proof (marker_begins m t H) as Hs.
  destruct (m ++ t) as [|c r]; [reflexivity|]. cbn [marker_start] in Hs.
  apply orb_true_iff in Hs as [Hs|Hs]; apply N.eqb_eq in Hs; subst c;
    reflexivity.
Qed.

Lemma tails_of_snoc (ms : list str) (m t : str) :
  exists l, tails_of (ms ++ [m]) t = t :: (m ++ t) :: l.
Proof.
  induction ms as [|m0 ms [l Hl]].
  - exists []. cbn [app tails_of concat]. rewrite app_nil_r. reflexivity.
  - cbn [app tails_of]. rewrite Hl. eexists. reflexivity.
Qed.

(** Before an opening bracket a run of three or more markers is matched
    up to its last marker. *)
Lemma newline_end_run_bracket (ms : list str) (m t : str) :
  2 <= length ms ->
  Forall (fun m => is_marker m = true) ms ->
  is_marker m = true ->
  newline_end (concat ms ++ m ++ ch "[" :: t) = Some (m ++ ch "[" :: t).
Proof.
  intros Hlen Hms Hm.
  destruct ms as [|m1 [|m2 ms]]; try (simpl in Hlen; lia).
  inversion Hms as [|? ? H1 Hms1]; subst.
  inversion Hms1 as [|? ? H2 Hms2]; subst.
  unfold newline_end. cbn [concat]. rewrite <- !app_assoc.
  rewrite (@is_marker_take m1 _ H1), (@is_marker_take m2 _ H2).
  replace (concat ms ++ m ++ ch "[" :: t)
    with (concat (ms ++ [m]) ++ ch "[" :: t)
    by (rewrite concat_app; cbn [concat]; rewrite app_nil_r, <- app_assoc;
        reflexivity).
  rewrite marker_tails_run;
    [| apply Forall_app; split; [exact Hms2 | repeat constructor; exact Hm]
     | reflexivity].
  destruct (tails_of_snoc ms m (ch "[" :: t)) as [l ->].
  cbn [List.find].
  change (startswith (u "[") (ch "[" :: t)) with true. cbn [negb].
  rewrite (marker_not_bracket m (ch "[" :: t) Hm). reflexivity.
Qed.

(** C7 (as amended).  Behind any text that ends neither with a marker
    nor inside a break marker that is not yet closed, a run of two or more
    newline-or-break markers becomes exactly one line feed when what
    follows it is neither a marker nor an opening bracket.  Before an
    opening bracket the run is not left as it is unless it has two
    markers: with a further marker [m] between the run and the bracket all
    but [m] become one line feed, so that two or more line feeds before a
    bracket become exactly two.  The two examples of the claim hold. *)
Theorem remove_extra_newlines_collapses_runs
        (pre post : str) (ms : list str) (m : str) (k : nat) :
  open_ended pre = false ->
  2 <= length ms ->
  Forall (fun m => is_marker m = true) ms ->
  (no_marker_ahead post = true -> startswith (u "[") post = false ->
   remove_extra_newlines (pre ++ concat ms ++ post)
   = remove_extra_newlines pre ++ [LF] ++ remove_extra_newlines post)
  /\ (is_marker m = true ->
      remove_extra_newlines (pre ++ concat ms ++ m ++ ch "[" :: post)
      = remove_extra_newlines pre ++ [LF]
        ++ remove_extra_newlines (m ++ ch "[" :: post))
  /\ (2 <= k ->
      remove_extra_newlines (pre ++ repeat LF k ++ ch "[" :: post)
      = remove_extra_newlines pre ++ [LF; LF]
        ++ remove_extra_newlines (ch "[" :: post))
  /\ remove_extra_newlines (u "a" ++ [LF; LF; LF; LF] ++ u "b")
     = u "a" ++ [LF] ++ u "b"
  /\ remove_extra_newlines (u "a" ++ [LF; LF] ++ u "[Chorus]")
     = u "a" ++ [LF; LF] ++ u "[Chorus]".
Proof.
  intros Ho Hlen Hms. split; [|split; [|split; [|split]]].
  - intros Hpost Hb.
    rewrite remove_extra_newlines_closed
      by (exact Ho || apply run_begins; assumption).
    f_equal. apply remove_extra_newlines_match.
    apply newline_end_run; assumption.
  - intros Hm.
    rewrite remove_extra_newlines_closed
      by (exact Ho || apply run_begins; assumption).
    f_equal. apply remove_extra_newlines_match.
    apply newline_end_run_bracket; assumption.
  - intros Hk. destruct k as [|[|k]]; try lia.
    rewrite remove_extra_newlines_closed by (exact Ho || reflexivity).
    rewrite remove_extra_newlines_lf_run by reflexivity. reflexivity.
  - vm_compute. reflexivity.
  - vm_compute. reflexivity.
Qed.

Lemma remove_extra_newlines_collapses_runs_witness :
  (no_marker_ahead (u "b") = true -> startswith (u "[") (u "b") = false ->
   remove_extra_newlines (u "<i>a</i>" ++ concat [[LF]; u "<br/>"] ++ u "b")
   = remove_extra_newlines (u "<i>a</i>") ++ [LF]
     ++ remove_extra_newlines (u "b"))
  /\ (is_marker (u "<br>") = true ->
      remove_extra_newlines
        (u "<i>a</i>" ++ concat [[LF]; u "<br/>"] ++ u "<br>"
           ++ ch "[" :: u "b")
      = remove_extra_newlines (u "<i>a</i>") ++ [LF]
        ++ remove_extra_newlines (u "<br>" ++ ch "[" :: u "b"))
  /\ (2 <= 3 ->
      remove_extra_newlines (u "<i>a</i>" ++ repeat LF 3 ++ ch "[" :: u "b")
      = remove_extra_newlines (u "<i>a</i>") ++ [LF; LF]
        ++ remove_extra_newlines (ch "[" :: u "b"))
  /\ remove_extra_newlines (u "a" ++ [LF; LF; LF; LF] ++ u "b")
     = u "a" ++ [LF] ++ u "b"
  /\ remove_extra_newlines (u "a" ++ [LF; LF] ++ u "[Chorus]")
     = u "a" ++ [LF; LF] ++ u "[Chorus]".
Proof.
  apply (remove_extra_newlines_collapses_runs
           (u "<i>a</i>") (u "b") [[LF]; u "<br/>"] (u "<br>") 3).
  - reflexivity.
  - simpl. lia.
  - repeat constructor.
Defined.

(** C7, counterexample.  Three line feeds before a section header are a
    run that is followed by an opening bracket; it is not left as it is
    but cut to two line feeds. *)
Lemma remove_extra_newlines_cuts_run_before_header :
  remove_extra_newlines (u "a" ++ [LF; LF; LF] ++ u "[Chorus]")
  = u "a" ++ [LF; LF] ++ u "[Chorus]".
Proof. vm_compute. reflexivity. Qed.

(* ================================================================== *)
(** * Lines and truncations *)
(* ================================================================== *)

Lemma line_after_line (s : str) : s = line s ++ after_line s.
Proof.
  unfold line, after_line. induction s as [|c s IH]; [reflexivity|].
  simpl. destruct (not_lf c); [|reflexivity].
  simpl. f_equal. exact IH.
Qed.

Lemma after_line_shape (s : str) :
  after_line s = [] \/ exists s', after_line s = LF :: s'.
Proof.
  unfold after_line. induction s as [|c s IH]; [left; reflexivity|].
  simpl. destruct (not_lf c) eqn:E; [exact IH|].
  right. exists s. f_equal.
  unfold not_lf in E. apply negb_false_iff in E. apply ceqb_eq in E.
  exact E.
Qed.

Lemma line_lf (s : str) : line (LF :: s) = [].
Proof. reflexivity. Qed.

Lemma line_cons (c : char) (s : str) :
  ceqb c LF = false -> line (c :: s) = c :: line s.
Proof. intros H. unfold line, not_lf. simpl. rewrite H. reflexivity. Qed.

Lemma ceqb_sym (a b : char) : ceqb a b = ceqb b a.
Proof. apply N.eqb_sym. Qed.

Lemma existsb_line_nonempty (Q : char -> bool) (s : str) :
  existsb Q (line s) = true -> length (after_line s) < length s.
Proof.
  intros H. rewrite (line_after_line s) at 2. rewrite length_app.
  destruct (line s); [discriminate|]. simpl. lia.
Qed.

Lemma trunc_refl (s : str) : trunc s s.
Proof. induction s; constructor; assumption. Qed.

Lemma trunc_app_keep (a y s : str) : trunc y s -> trunc (a ++ y) (a ++ s).
Proof. intros H. induction a; simpl; [|constructor]; assumption. Qed.

Lemma trunc_drop_line (y s : str) : trunc y (after_line s) -> trunc y s.
Proof.
  intros H.
  pose proof (trunc_drop (line s) H (after_line_shape s)) as H'.
  rewrite <- line_after_line in H'. exact H'.
Qed.

Lemma trunc_lf_start (y s : str) :
  trunc y s ->
  (s = [] \/ exists s', s = LF :: s') ->
  (y = [] \/ exists y', y = LF :: y').
Proof.
  induction 1 as [|c y s H IH|d y s H IH Hs]; intros Hs'.
  - left; reflexivity.
  - destruct Hs' as [Hs'|(s' & Hs')]; [discriminate|].
    injection Hs' as -> _. right. exists y. reflexivity.
  - apply IH. exact Hs.
Qed.

(** A character other than the line feed at the head stays at the head. *)
Lemma trunc_head (c : char) (y s : str) :
  trunc (c :: y) s -> ceqb c LF = false ->
  exists s', s = c :: s' /\ trunc y s'.
Proof.
  intros H Hc. remember (c :: y) as y0 eqn:Ey.
  induction H as [|c0 y1 s1 H IH|d y1 s1 H IH Hs].
  - discriminate.
  - injection Ey as -> ->. exists s1. split; [reflexivity | exact H].
  - subst y1. destruct (trunc_lf_start _ _ H Hs) as [E|(y' & E)];
      [discriminate|].
    injection E as -> _. rewrite ceqb_refl in Hc. discriminate.
Qed.

Lemma trunc_prefix (a y s : str) :
  forallb not_lf a = true -> trunc (a ++ y) s ->
  exists s', s = a ++ s' /\ trunc y s'.
Proof.
  revert s; induction a as [|c a IH]; intros s Ha H.
  - exists s. split; [reflexivity | exact H].
  - cbn [forallb] in Ha. apply andb_true_iff in Ha as [Hc Ha].
    unfold not_lf in Hc. apply negb_true_iff in Hc.
    cbn [app] in H. destruct (trunc_head _ _ _ H Hc) as (s1 & -> & H1).
    destruct (IH _ Ha H1) as (s' & -> & H2).
    exists s'. split; [reflexivity | exact H2].
Qed.

Lemma contains_cons (w : str) (c : char) (s : str) :
  contains w s = true -> contains w (c :: s) = true.
Proof. intros H. cbn [contains]. rewrite H. apply orb_true_r. Qed.

Lemma contains_app_r (w d s : str) :
  contains w s = true -> contains w (d ++ s) = true.
Proof.
  intros H. induction d as [|c d IH]; [exact H|].
  cbn [app]. apply contains_cons. exact IH.
Qed.

Lemma contains_prefix (w t : str) : contains w (w ++ t) = true.
Proof.
  destruct w as [|c w]; [destruct t; reflexivity|].
  cbn [app contains].
  change (c :: w ++ t) with ((c :: w) ++ t).
  rewrite startswith_prefix. reflexivity.
Qed.

Lemma contains_unfold (w s : str) :
  contains w s
  = startswith w s
    || match s with
       | [] => false
       | _ :: s' => contains w s'
       end.
Proof. destruct s; reflexivity. Qed.

(** A truncation creates no occurrence of a text without line feeds. *)
Lemma trunc_contains (w y s : str) :
  forallb not_lf w = true -> trunc y s ->
  contains w y = true -> contains w s = true.
Proof.
  intros Hw H. induction H as [|c y s H IH|d y s H IH Hs]; intros Hc.
  - exact Hc.
  - rewrite contains_unfold in Hc. apply orb_true_iff in Hc as [Hc|Hc].
    + apply startswith_app in Hc as [t Ht].
      assert (Ht' : trunc (w ++ t) (c :: s)).
      { rewrite <- Ht. constructor. exact H. }
      destruct (trunc_prefix _ _ _ Hw Ht') as (s' & -> & _).
      apply contains_prefix.
    + apply contains_cons. apply IH. exact Hc.
  - apply contains_app_r. apply IH. exact Hc.
Qed.

(** The first line of a truncation begins the first line of the text. *)
Lemma trunc_line (y s : str) :
  trunc y s -> exists r, line s = line y ++ r.
Proof.
  induction 1 as [|c y s H IH|d y s H IH Hs].
  - exists []. reflexivity.
  - destruct (ceqb c LF) eqn:E.
    + apply ceqb_eq in E. subst c. exists []. reflexivity.
    + rewrite !line_cons by exact E. destruct IH as [r ->].
      exists r. reflexivity.
  - destruct (trunc_lf_start _ _ H Hs) as [->|(y' & ->)];
      eexists; reflexivity.
Qed.

Lemma trunc_line_class (Q : char -> bool) (y s : str) :
  trunc y s -> existsb Q (line s) = false -> existsb Q (line y) = false.
Proof.
  intros H Hs. destruct (trunc_line _ _ H) as [r Hr]. rewrite Hr in Hs.
  rewrite existsb_app in Hs. apply orb_false_iff in Hs as [Hs _].
  exact Hs.
Qed.

Lemma squeeze_trunc (v u : str) : squeeze v u -> trunc v u.
Proof.
  induction 1 as [|c v u H IH|v u H IH].
  - constructor.
  - constructor. exact IH.
  - apply (trunc_drop [LF] IH). right. exists u. reflexivity.
Qed.

Lemma squeeze_refl (s : str) : squeeze s s.
Proof. induction s; constructor; assumption. Qed.

Lemma squeeze_lf_start (v u : str) :
  squeeze v (LF :: u) -> exists v', v = LF :: v'.
Proof.
  intros H. inversion H; subst; eexists; reflexivity.
Qed.

(** A squeeze splits where the text on the left does not end in a line
    feed. *)
Lemma squeeze_app (a b v : str) :
  ends_in_newline a = false ->
  squeeze v (a ++ b) ->
  exists va vb, v = va ++ vb /\ squeeze va a /\ squeeze vb b.
Proof.
  remember (length a) as n eqn:Hn. revert a v Hn.
  induction n as [n IH] using lt_wf_ind. intros a v Hn He H.
  destruct a as [|c a].
  - exists [], v. repeat split; [constructor | exact H].
  - cbn [app] in H.
    inversion H as [|c0 v0 u0 H0 Ev Eu|v0 u0 H0 Ev Eu].
    + subst c0 u0. clear Ev.
      destruct a as [|c' a'].
      * exists [c], v0. repeat split; [apply squeeze_refl | exact H0].
      * destruct (IH (length (c' :: a')) ltac:(subst n; simpl; lia)
                     (c' :: a') v0 eq_refl) as (va & vb & -> & Ha & Hb).
        -- change (c :: c' :: a') with ([c] ++ c' :: a') in He.
           rewrite ends_in_newline_app in He. exact He.
        -- exact H0.
        -- exists (c :: va), vb. repeat split; [constructor|]; assumption.
    + subst c. clear Ev.
      destruct a as [|c' a']; [discriminate He|].
      match goal with
      | E : LF :: u0 = (c' :: a') ++ b |- _ =>
          cbn [app] in E; injection E as <- ->
      end.
      destruct (IH (length (LF :: a')) ltac:(subst n; simpl; lia) (LF :: a')
                   (LF :: v0) eq_refl) as (va & vb & E & Ha & Hb).
      * change (LF :: LF :: a') with ([LF] ++ LF :: a') in He.
        rewrite ends_in_newline_app in He. exact He.
      * exact H0.
      * destruct (squeeze_lf_start _ _ Ha) as [va' ->].
        exists (LF :: va'), vb. repeat split.
        -- exact E.
        -- apply squeeze_drop. exact Ha.
        -- exact Hb.
Qed.

Lemma squeeze_prev (p : option char) (v u : str) :
  squeeze v u -> prev_after p v = prev_after p u.
Proof.
  intros H. revert p. induction H as [|c v u H IH|v u H IH]; intros p.
  - reflexivity.
  - rewrite !prev_after_cons. apply IH.
  - rewrite (prev_after_cons p LF (LF :: u)). rewrite <- IH.
    rewrite !prev_after_cons. reflexivity.
Qed.

Lemma squeeze_no_lf (v u : str) :
  squeeze v u -> forallb not_lf u = true -> v = u.
Proof.
  induction 1 as [|c v u H IH|v u H IH]; intros Hu.
  - reflexivity.
  - cbn [forallb] in Hu. apply andb_true_iff in Hu as [_ Hu].
    rewrite IH by exact Hu. reflexivity.
  - discriminate.
Qed.

(* ================================================================== *)
(** * A language filter never needs a second pass *)
(* ================================================================== *)

Section StripTheory.

Variable prot : str -> option str.
Variable anchored : bool.
Variable Q : char -> bool.

(** What the protected spans of both filters have in common. *)
Hypothesis prot_token :
  forall s t, prot s = Some t -> exists a, s = a ++ t /\ token prot a.
Hypothesis prot_trunc :
  forall y s, trunc y s -> prot s = None -> prot y = None.
Hypothesis token_squeeze :
  forall a a', token prot a -> squeeze a' a -> token prot a'.

Let X := strip_scan prot anchored Q.
Let fires (p : option char) (s : str) : bool :=
  (negb anchored || bol p) && existsb Q (line s).

Lemma token_nonempty (a : str) : token prot a -> a <> [].
Proof. intros (_ & (c & a' & -> & _) & _). discriminate. Qed.

Lemma prot_lf (s : str) : prot (LF :: s) = None.
Proof.
  destruct (prot (LF :: s)) as [t|] eqn:E; [|reflexivity].
  destruct (prot_token _ _ E) as (a & Ha & _ & (c & a' & -> & Hc) & _).
  injection Ha as <- _. rewrite ceqb_refl in Hc. discriminate.
Qed.

Lemma prot_nil : prot [] = None.
Proof.
  destruct (prot []) as [t|] eqn:E; [|reflexivity].
  destruct (prot_token _ _ E) as (a & Ha & _ & (c & a' & -> & Hc) & _).
  discriminate.
Qed.

Lemma strip_step_token (p : option char) (a t : str) :
  token prot a ->
  strip_step prot anchored Q p (a ++ t) = Some (a, length a).
Proof.
  intros (Hp & _). unfold strip_step. rewrite Hp.
  rewrite length_app.
  replace (length a + length t - length t) with (length a) by lia.
  rewrite firstn_app, firstn_all, Nat.sub_diag. cbn [firstn].
  rewrite app_nil_r. reflexivity.
Qed.

Lemma strip_scan_nil (p : option char) : X p [] = [].
Proof. reflexivity. Qed.

Lemma strip_scan_token (p : option char) (a t : str) :
  token prot a -> X p (a ++ t) = a ++ X (prev_after p a) t.
Proof.
  intros Ha. unfold X, strip_scan. apply scan_jump.
  - apply token_nonempty; exact Ha.
  - apply strip_step_token; exact Ha.
Qed.

Lemma strip_scan_drop (p : option char) (s : str) :
  prot s = None -> fires p s = true ->
  X p s = X (prev_after p (line s)) (after_line s).
Proof.
  intros Hp Hf. unfold X, strip_scan.
  rewrite (line_after_line s) at 1.
  rewrite (@scan_jump (strip_step prot anchored Q) p (line s)
                      (after_line s) []).
  - reflexivity.
  - unfold fires in Hf. apply andb_true_iff in Hf as [_ Hf].
    destruct (line s); discriminate.
  - rewrite <- line_after_line. unfold strip_step. rewrite Hp.
    unfold fires in Hf. rewrite Hf. do 2 f_equal.
    rewrite (line_after_line s) at 1. rewrite length_app. lia.
Qed.

Lemma strip_scan_keep (p : option char) (c : char) (s : str) :
  prot (c :: s) = None -> fires p (c :: s) = false ->
  X p (c :: s) = c :: X (Some c) s.
Proof.
  intros Hp Hf. unfold X, strip_scan. apply scan_keep.
  unfold strip_step. rewrite Hp. unfold fires in Hf. rewrite Hf.
  reflexivity.
Qed.

(** At a line feed, and at the end, the previous character is of no
    account. *)
Lemma strip_scan_lf_prev (p p' : option char) (s : str) :
  s = [] \/ (exists s', s = LF :: s') -> X p s = X p' s.
Proof.
  intros [->|(s' & ->)]; [reflexivity|].
  rewrite !strip_scan_keep; try reflexivity; try apply prot_lf.
  - unfold fires. rewrite line_lf. apply andb_false_r.
  - unfold fires. rewrite line_lf. apply andb_false_r.
Qed.

(** The output is the input without some line remainders. *)
Lemma strip_scan_trunc (s : str) : forall p, trunc (X p s) s.
Proof.
  remember (length s) as n eqn:Hn. revert s Hn.
  induction n as [n IH] using lt_wf_ind. intros s Hn p.
  destruct s as [|c s']; [constructor|].
  destruct (prot (c :: s')) as [t|] eqn:Hp.
  - destruct (prot_token _ _ Hp) as (a & Hs & Ha).
    rewrite Hs, strip_scan_token by exact Ha.
    apply trunc_app_keep. apply (IH (length t)); [|reflexivity].
    pose proof (token_nonempty _ Ha) as Hne.
    rewrite Hn, Hs, length_app. destruct a; [congruence|simpl; lia].
  - destruct (fires p (c :: s')) eqn:Hf.
    + rewrite strip_scan_drop by assumption.
      apply trunc_drop_line.
      apply (IH (length (after_line (c :: s')))); [|reflexivity].
      rewrite Hn. apply (existsb_line_nonempty Q).
      unfold fires in Hf. apply andb_true_iff in Hf as [_ Hf]. exact Hf.
    + rewrite strip_scan_keep by assumption. constructor.
      apply (IH (length s')); [rewrite Hn; simpl; lia | reflexivity].
Qed.

(** The output is stable. *)
Lemma strip_scan_stable (s : str) :
  forall p, stable prot anchored Q p (X p s).
Proof.
  remember (length s) as n eqn:Hn. revert s Hn.
  induction n as [n IH] using lt_wf_ind. intros s Hn p.
  destruct s as [|c s']; [constructor|].
  destruct (prot (c :: s')) as [t|] eqn:Hp.
  - destruct (prot_token _ _ Hp) as (a & Hs & Ha).
    rewrite Hs, strip_scan_token by exact Ha.
    apply stable_token; [exact Ha|].
    apply (IH (length t)); [|reflexivity].
    pose proof (token_nonempty _ Ha) as Hne.
    rewrite Hn, Hs, length_app. destruct a; [congruence|simpl; lia].
  - destruct (fires p (c :: s')) eqn:Hf.
    + rewrite strip_scan_drop by assumption.
      rewrite (strip_scan_lf_prev _ p) by apply after_line_shape.
      apply (IH (length (after_line (c :: s')))); [|reflexivity].
      rewrite Hn. apply (existsb_line_nonempty Q).
      unfold fires in Hf. apply andb_true_iff in Hf as [_ Hf]. exact Hf.
    + rewrite strip_scan_keep by assumption.
      assert (Ht : trunc (c :: X (Some c) s') (c :: s')).
      { constructor. apply strip_scan_trunc. }
      apply stable_keep.
      * apply (prot_trunc _ _ Ht Hp).
      * unfold fires in Hf. apply andb_false_iff in Hf as [Hf|Hf].
        -- rewrite Hf. reflexivity.
        -- rewrite (trunc_line_class Q _ _ Ht Hf). apply andb_false_r.
      * apply (IH (length s')); [rewrite Hn; simpl; lia | reflexivity].
Qed.

(** The filter leaves a stable text as it is. *)
Lemma stable_fixed (p : option char) (s : str) :
  stable prot anchored Q p s -> X p s = s.
Proof.
  induction 1 as [p|p a t Ha Ht IH|p c s Hp Hf Hs IH].
  - reflexivity.
  - rewrite strip_scan_token by exact Ha. rewrite IH. reflexivity.
  - rewrite strip_scan_keep by assumption. rewrite IH. reflexivity.
Qed.

Lemma stable_lf_prev (p p' : option char) (s : str) :
  stable prot anchored Q p (LF :: s) -> stable prot anchored Q p' (LF :: s).
Proof.
  intros H. inversion H as [|p0 a t Ha Ht Ep Es|p0 c s0 Hp Hf Hs Ep Es].
  - destruct Ha as (_ & (c & a' & -> & Hc) & _).
    injection Es as -> _. rewrite ceqb_refl in Hc. discriminate.
  - apply stable_keep; [exact Hp | | exact Hs].
    rewrite line_lf. apply andb_false_r.
Qed.

(** Dropping line feeds next to line feeds keeps a text stable. *)
Lemma stable_squeeze (p : option char) (u : str) :
  stable prot anchored Q p u ->
  forall v, squeeze v u -> stable prot anchored Q p v.
Proof.
  induction 1 as [p|p a t Ha Ht IH|p c s Hp Hf Hs IH]; intros v Hv.
  - inversion Hv. constructor.
  - destruct Ha as (Ha1 & Ha2 & Ha3).
    destruct (squeeze_app a t v Ha3 Hv) as (va & vb & -> & Hva & Hvb).
    apply stable_token.
    + apply (token_squeeze a); [repeat split; assumption | exact Hva].
    + rewrite (squeeze_prev p _ _ Hva). apply IH. exact Hvb.
  - inversion Hv as [|c0 v0 u0 H0 Ev Eu|v0 u0 H0 Ev Eu].
    + subst. apply stable_keep.
      * apply (prot_trunc _ _ (squeeze_trunc _ _ Hv) Hp).
      * apply andb_false_iff in Hf as [Hf|Hf].
        -- rewrite Hf. reflexivity.
        -- rewrite (trunc_line_class Q _ _ (squeeze_trunc _ _ Hv) Hf).
           apply andb_false_r.
      * apply IH. exact H0.
    + subst. apply (stable_lf_prev (Some LF)). apply IH. exact H0.
Qed.

(** A second pass over the output, also after line feeds were squeezed
    out of it, changes nothing. *)
Lemma strip_scan_squeeze_fixed (s v : str) :
  squeeze v (X None s) -> X None v = v.
Proof.
  intros Hv. apply stable_fixed.
  apply (stable_squeeze None (X None s)); [|exact Hv].
  apply strip_scan_stable.
Qed.

End StripTheory.

(* ================================================================== *)
(** * remove_extra_newlines on text without break markup *)
(* ================================================================== *)

Lemma br_free_cons (c : char) (s : str) :
  br_free (c :: s) = true -> br_free s = true.
Proof.
  unfold br_free. rewrite !negb_true_iff. intros H.
  rewrite contains_unfold in H. apply orb_false_iff in H as [_ H]. exact H.
Qed.

Lemma br_free_app_r (a s : str) : br_free (a ++ s) = true -> br_free s = true.
Proof.
  induction a as [|c a IH]; [tauto|].
  intros H. apply IH. apply (br_free_cons c). exact H.
Qed.

Lemma br_free_no_marker (s : str) :
  br_free s = true ->
  (s = [] \/ exists x t, s = x :: t /\ ceqb LF x = false) ->
  take_marker s = None.
Proof.
  intros Hb [->|(x & t & -> & Hx)]; [reflexivity|].
  unfold take_marker. rewrite Hx.
  unfold br_free in Hb. apply negb_true_iff in Hb.
  rewrite contains_unfold in Hb. apply orb_false_iff in Hb as [Hb _].
  rewrite Hb. reflexivity.
Qed.

Lemma trunc_br_free (y s : str) :
  trunc y s -> br_free s = true -> br_free y = true.
Proof.
  unfold br_free. rewrite !negb_true_iff. intros H Hs.
  destruct (contains (u "<br") y) eqn:E; [|reflexivity].
  rewrite (trunc_contains (u "<br") y s eq_refl H E) in Hs. discriminate.
Qed.

Lemma squeeze_lf_run (j : nat) (y t : str) :
  squeeze y t -> squeeze (LF :: y) (repeat LF (S j) ++ t).
Proof.
  intros H. induction j as [|j IH].
  - constructor. exact H.
  - change (repeat LF (S (S j)) ++ t)
      with (LF :: LF :: repeat LF j ++ t).
    apply squeeze_drop. exact IH.
Qed.

Lemma squeezed_run_squeeze (k : nat) (y t : str) :
  squeeze y t -> squeeze (squeezed_run k t ++ y) (repeat LF k ++ t).
Proof.
  intros H. destruct k as [|[|j]].
  - exact H.
  - constructor. exact H.
  - unfold squeezed_run. destruct (startswith (u "[") t).
    + change (repeat LF (S (S j)) ++ t)
        with (LF :: repeat LF (S j) ++ t).
      constructor. apply squeeze_lf_run. exact H.
    + apply (squeeze_lf_run (S j)). exact H.
Qed.

(** [remove_extra_newlines] only drops line feeds that stand before a line
    feed it keeps. *)
Lemma remove_extra_newlines_squeeze (s : str) :
  br_free s = true -> squeeze (remove_extra_newlines s) s.
Proof.
  remember (length s) as n eqn:Hn. revert s Hn.
  induction n as [n IH] using lt_wf_ind. intros s Hn Hb.
  destruct (lf_span s) as (k & t & Hs & Ht).
  assert (Hbt : br_free t = true).
  { rewrite Hs in Hb. apply (br_free_app_r _ _ Hb). }
  assert (Hm : take_marker t = None).
  { apply br_free_no_marker; [exact Hbt|].
    destruct Ht as [->|(x & t' & -> & Hx)]; [left; reflexivity|].
    right. exists x, t'. split; [reflexivity | exact Hx]. }
  rewrite Hs, remove_extra_newlines_lf_run by exact Hm.
  apply squeezed_run_squeeze.
  destruct Ht as [->|(x & t' & -> & Hx)]; [constructor|].
  rewrite remove_extra_newlines_keep by
    (apply newline_end_none; exact Hm).
  constructor. apply (IH (length t')); [|reflexivity|].
  - rewrite Hn, Hs, length_app. simpl. lia.
  - apply (br_free_cons x). exact Hbt.
Qed.

Lemma squeezed_run_repeat (k : nat) (t : str) :
  exists k', squeezed_run k t = repeat LF k'
             /\ forall t', startswith (u "[") t' = startswith (u "[") t ->
                           squeezed_run k' t' = squeezed_run k t.
Proof.
  destruct k as [|[|j]].
  - exists 0. split; reflexivity.
  - exists 1. split; reflexivity.
  - unfold squeezed_run. destruct (startswith (u "[") t) eqn:E.
    + exists 2. split; [reflexivity|]. intros t' ->. reflexivity.
    + exists 1. split; reflexivity.
Qed.

(** [remove_extra_newlines] needs no second pass. *)
Lemma remove_extra_newlines_idempotent (s : str) :
  br_free s = true ->
  remove_extra_newlines (remove_extra_newlines s) = remove_extra_newlines s.
Proof.
  remember (length s) as n eqn:Hn. revert s Hn.
  induction n as [n IH] using lt_wf_ind. intros s Hn Hb.
  destruct (lf_span s) as (k & t & Hs & Ht).
  assert (Hbt : br_free t = true).
  { rewrite Hs in Hb. apply (br_free_app_r _ _ Hb). }
  assert (Hm : take_marker t = None).
  { apply br_free_no_marker; [exact Hbt|].
    destruct Ht as [->|(x & t' & -> & Hx)]; [left; reflexivity|].
    right. exists x, t'. split; [reflexivity | exact Hx]. }
  rewrite Hs, remove_extra_newlines_lf_run by exact Hm.
  destruct (squeezed_run_repeat k t) as (k' & Hk & Hk').
  rewrite Hk.
  destruct Ht as [->|(x & t' & -> & Hx)].
  - change (remove_extra_newlines []) with (@nil char).
    rewrite remove_extra_newlines_lf_run by reflexivity.
    rewrite (Hk' [] eq_refl), Hk. reflexivity.
  - assert (Hbt' : br_free t' = true) by apply (br_free_cons x _ Hbt).
    assert (Hr : remove_extra_newlines (x :: t')
                 = x :: remove_extra_newlines t').
    { apply remove_extra_newlines_keep. apply newline_end_none. exact Hm. }
    rewrite Hr.
    assert (Hm' : take_marker (x :: remove_extra_newlines t') = None).
    { apply br_free_no_marker.
      - apply (trunc_br_free _ (x :: t')); [|exact Hbt].
        constructor. apply squeeze_trunc.
        apply remove_extra_newlines_squeeze. exact Hbt'.
      - right. exists x, (remove_extra_newlines t').
        split; [reflexivity | exact Hx]. }
    rewrite remove_extra_newlines_lf_run by exact Hm'.
    rewrite (Hk' (x :: remove_extra_newlines t') eq_refl), Hk.
    f_equal.
    rewrite remove_extra_newlines_keep by
      (apply newline_end_none; exact Hm').
    f_equal. apply (IH (length t')); [|reflexivity | exact Hbt'].
    rewrite Hn, Hs, length_app. simpl. lia.
Qed.

(* ================================================================== *)
(** * The language patterns, read directly *)
(* ================================================================== *)

Lemma hd_error_app {A : Type} (a b : list A) :
  hd_error (a ++ b) = orelse (hd_error a) (hd_error b).
Proof. destruct a; reflexivity. Qed.

Lemma class_tails_hd (P : char -> bool) (s : str) :
  exists l, class_tails P s = drop_while P s :: l.
Proof.
  induction s as [|c s [l Hl]]; [exists []; reflexivity|].
  simpl. destruct (P c).
  - rewrite Hl. eexists. reflexivity.
  - exists []. reflexivity.
Qed.

Lemma iters_lazy (P : char -> bool) (s : str) (fuel : nat) :
  length s <= fuel ->
  iters false (ends (Chr P)) fuel s = lazy_tails P s.
Proof.
  revert fuel; induction s as [|c s IH]; intros fuel H.
  - destruct fuel; reflexivity.
  - destruct fuel as [|k]; [simpl in H; lia|].
    cbn [iters ends lazy_tails]. destruct (P c); [|reflexivity].
    cbn [flat_map length]. rewrite app_nil_r.
    replace (length s <? S (length s)) with true
      by (symmetry; apply Nat.ltb_lt; lia).
    rewrite IH by (simpl in H; lia). reflexivity.
Qed.

Lemma ends_lazy_class (P : char -> bool) (s : str) :
  ends (Star false (Chr P)) s = lazy_tails P s.
Proof. cbn [ends]. apply iters_lazy. lia. Qed.

Lemma ends_chr (P : char -> bool) (s : str) :
  ends (Chr P) s
  = match s with
    | c :: s' => if P c then [s'] else []
    | [] => []
    end.
Proof. reflexivity. Qed.

(** Section headers. *)
Lemma ends_header (s : str) : hd_error (ends header_re s) = header_end s.
Proof.
  unfold header_re, header_end, plus.
  rewrite ends_seq, ends_c1.
  destruct s as [|c s1]; [reflexivity|].
  destruct (ceqb (ch "[") c); [|destruct s1; reflexivity].
  cbn [flat_map andb]. rewrite app_nil_r.
  rewrite !ends_seq, ends_chr.
  destruct s1 as [|y s2]; [reflexivity|].
  change (fun c0 : char => negb (ceqb c0 (ch "]") || ceqb c0 LF))
    with header_class.
  cbv beta.
  change (negb (ceqb y (ch "]") || ceqb y LF)) with (header_class y).
  destruct (header_class y); [|reflexivity].
  cbn [flat_map]. rewrite app_nil_r.
  rewrite ends_star_class, flat_map_class_tails.
  - rewrite ends_c1. unfold span_end.
    destruct (drop_while header_class s2) as [|x r]; [reflexivity|].
    destruct (ceqb (ch "]") x); reflexivity.
  - intros x t Hx. rewrite ends_c1.
    unfold header_class in Hx. apply negb_true_iff in Hx.
    apply orb_false_iff in Hx as [Hx _].
    rewrite ceqb_sym, Hx. reflexivity.
Qed.

(** Escaped newlines and escaped code points. *)
Lemma ends_escape (s : str) :
  hd_error (ends escaped_newline_re s) = escape_end s.
Proof.
  unfold escaped_newline_re, escape_end. rewrite ends_lit.
  destruct (startswith (u "\n") s); reflexivity.
Qed.

Lemma ends_u200 (s : str) :
  hd_error (ends (Seq (lit (u "\u200"))
                      (Chr (fun c => ceqb c (ch "5") || ceqb c (ch "c")))) s)
  = u200_end s.
Proof.
  unfold u200_end. rewrite ends_seq, ends_lit.
  destruct (startswith (u "\u200") s); [|reflexivity].
  cbn [flat_map]. rewrite app_nil_r, ends_chr.
  change (length (u "\u200")) with 5.
  destruct (skipn 5 s) as [|x r]; [reflexivity|].
  destruct (ceqb x (ch "5") || ceqb x (ch "c")); reflexivity.
Qed.

(** Annotations. *)
Lemma lazy_any_after_first (w s : str) :
  hd_error (flat_map (ends (lit w)) (lazy_tails (fun _ => true) s))
  = after_first w s.
Proof.
  induction s as [|c s IH].
  - cbn [lazy_tails flat_map after_first]. rewrite app_nil_r, ends_lit.
    destruct (startswith w []); reflexivity.
  - cbn [lazy_tails flat_map after_first]. rewrite hd_error_app, IH.
    rewrite ends_lit. destruct (startswith w (c :: s)); reflexivity.
Qed.

Lemma ends_annotation (s : str) :
  hd_error (ends annotation_re s) = annotation_end s.
Proof.
  unfold annotation_re, annotation_end. rewrite ends_seq, ends_lit.
  destruct (startswith (u "!--!") s); [|reflexivity].
  cbn [flat_map]. rewrite app_nil_r.
  change (length (u "!--!")) with 4.
  rewrite ends_seq. unfold any. rewrite ends_lazy_class.
  apply lazy_any_after_first.
Qed.

(** Tags. *)
Lemma lazy_dot_gt (s : str) :
  hd_error (flat_map (ends (c1 (ch ">"))) (lazy_tails not_lf s))
  = span_end tag_class (ch ">") s.
Proof.
  unfold span_end. induction s as [|c s IH]; [reflexivity|].
  cbn [lazy_tails flat_map drop_while]. rewrite hd_error_app, ends_c1.
  unfold tag_class at 1.
  destruct (ceqb (ch ">") c) eqn:Egt.
  - rewrite ceqb_sym, Egt. cbn [orb negb]. rewrite Egt. reflexivity.
  - rewrite ceqb_sym, Egt. cbn [orb hd_error orelse].
    unfold not_lf. destruct (ceqb c LF) eqn:Elf; cbn [negb].
    + rewrite Egt. reflexivity.
    + exact IH.
Qed.

Lemma ends_tag (s : str) : hd_error (ends tag_re s) = tag_end s.
Proof.
  unfold tag_re, tag_end. rewrite ends_seq, ends_c1.
  destruct s as [|c s1]; [reflexivity|].
  destruct (ceqb (ch "<") c); [|reflexivity].
  cbn [flat_map]. rewrite app_nil_r.
  rewrite ends_seq. unfold dot.
  change (fun c0 : char => negb (ceqb c0 LF)) with not_lf.
  rewrite ends_lazy_class. apply lazy_dot_gt.
Qed.

(** The first alternative of the two filters. *)
Lemma ends_protected_english (s : str) :
  hd_error (ends (Alt header_re
                      (Alt escaped_newline_re (Alt annotation_re tag_re))) s)
  = protected_end false s.
Proof.
  unfold protected_end. rewrite !ends_alt, !hd_error_app.
  rewrite ends_header, ends_escape, ends_annotation, ends_tag.
  reflexivity.
Qed.

Lemma ends_protected_non_english (s : str) :
  hd_error
    (ends (Alt header_re
               (Alt escaped_newline_re
               (Alt (Seq (lit (u "\u200"))
                         (Chr (fun c => ceqb c (ch "5") || ceqb c (ch "c"))))
               (Alt annotation_re tag_re)))) s)
  = protected_end true s.
Proof.
  unfold protected_end. rewrite !ends_alt, !hd_error_app.
  rewrite ends_header, ends_escape, ends_u200, ends_annotation, ends_tag.
  reflexivity.
Qed.

(** The second alternative: the rest of a line that holds a character of
    the class. *)
Lemma line_search (Q : char -> bool) (g : str -> list str) (s : str) :
  g [] = [] ->
  (forall c t, Q c = false -> g (c :: t) = []) ->
  (forall c t, Q c = true ->
               not_lf c = true /\ hd_error (g (c :: t)) = Some (after_line t)) ->
  hd_error (flat_map g (class_tails not_lf s))
  = if existsb Q (line s) then Some (after_line s) else None.
Proof.
  intros G1 G2 G3. induction s as [|c s IH].
  - cbn [class_tails flat_map]. rewrite G1. reflexivity.
  - cbn [class_tails]. unfold line, after_line. cbn [take_while drop_while].
    destruct (not_lf c) eqn:Ec.
    + rewrite flat_map_app, hd_error_app, IH. cbn [flat_map existsb].
      rewrite app_nil_r. fold (line s). fold (after_line s).
      destruct (existsb Q (line s)).
      * rewrite orb_true_r. reflexivity.
      * rewrite orb_false_r. cbn [orelse].
        destruct (Q c) eqn:Eq.
        -- apply G3. exact Eq.
        -- rewrite G2 by exact Eq. reflexivity.
    + cbn [flat_map existsb]. rewrite app_nil_r.
      destruct (Q c) eqn:Eq.
      * destruct (G3 c s Eq) as [H _]. congruence.
      * rewrite G2 by exact Eq. reflexivity.
Qed.

Lemma non_ascii_not_lf (c : char) : non_ascii c = true -> not_lf c = true.
Proof.
  unfold non_ascii, not_lf. intros H. apply negb_true_iff.
  destruct (ceqb c LF) eqn:E; [|reflexivity].
  apply ceqb_eq in E. subst c. discriminate.
Qed.

Lemma ascii_letter_not_lf (c : char) :
  ascii_letter c = true -> not_lf c = true.
Proof.
  unfold not_lf. intros H. apply negb_true_iff.
  destruct (ceqb c LF) eqn:E; [|reflexivity].
  apply ceqb_eq in E. subst c. discriminate.
Qed.

Lemma ends_non_ascii_line (s : str) :
  hd_error (ends (Seq (Star true dot)
                      (Seq (Chr non_ascii) (Star true dot))) s)
  = if existsb non_ascii (line s) then Some (after_line s) else None.
Proof.
  rewrite ends_seq. unfold dot.
  change (fun c0 : char => negb (ceqb c0 LF)) with not_lf.
  rewrite ends_star_class. apply line_search.
  - reflexivity.
  - intros c t Hc. rewrite ends_seq, ends_chr, Hc. reflexivity.
  - intros c t Hc. split; [apply non_ascii_not_lf; exact Hc|].
    rewrite ends_seq, ends_chr, Hc. cbn [flat_map].
    rewrite app_nil_r, ends_star_class.
    destruct (class_tails_hd not_lf t) as [l ->]. reflexivity.
Qed.

Lemma drop_while_twice (P P' : char -> bool) (s : str) :
  (forall c, P c = true -> P' c = true) ->
  drop_while P' (drop_while P s) = drop_while P' s.
Proof.
  intros H. induction s as [|c s IH]; [reflexivity|].
  simpl. destruct (P c) eqn:E.
  - rewrite (H c E). exact IH.
  - reflexivity.
Qed.

Lemma ends_letter_line (s : str) :
  hd_error (ends (Seq (Star true dot)
                      (Seq (plus true (Chr ascii_letter)) (Star true dot))) s)
  = if existsb ascii_letter (line s) then Some (after_line s) else None.
Proof.
  rewrite ends_seq. unfold dot.
  change (fun c0 : char => negb (ceqb c0 LF)) with not_lf.
  rewrite ends_star_class. apply line_search.
  - reflexivity.
  - intros c t Hc. unfold plus. rewrite !ends_seq, ends_chr, Hc.
    reflexivity.
  - intros c t Hc. split; [apply ascii_letter_not_lf; exact Hc|].
    unfold plus. rewrite !ends_seq, ends_chr, Hc. cbn [flat_map].
    rewrite app_nil_r, ends_star_class.
    destruct (class_tails_hd ascii_letter t) as [l ->].
    cbn [flat_map]. rewrite ends_star_class.
    destruct (class_tails_hd not_lf (drop_while ascii_letter t)) as [l' ->].
    cbn [app hd_error]. unfold after_line.
    rewrite (drop_while_twice ascii_letter not_lf t ascii_letter_not_lf).
    reflexivity.
Qed.

(* ================================================================== *)
(** * Protected spans *)
(* ================================================================== *)

Lemma span_end_some (cls : char -> bool) (close : char) (s t : str) :
  span_end cls close s = Some t ->
  exists b, s = b ++ close :: t /\ forallb cls b = true.
Proof.
  unfold span_end. induction s as [|c s IH]; [discriminate|].
  cbn [drop_while]. destruct (cls c) eqn:Ec.
  - intros H. destruct (IH H) as (b & -> & Hb).
    exists (c :: b). split; [reflexivity|]. cbn [forallb].
    rewrite Ec, Hb. reflexivity.
  - destruct (ceqb close c) eqn:E; [|discriminate].
    apply ceqb_eq in E. subst c. intros H. injection H as <-.
    exists []. split; reflexivity.
Qed.

Lemma span_end_intro (cls : char -> bool) (close : char) (b w : str) :
  forallb cls b = true -> cls close = false ->
  span_end cls close (b ++ close :: w) = Some w.
Proof.
  intros Hb Hc. unfold span_end. induction b as [|c b IH].
  - cbn [app drop_while]. rewrite Hc, ceqb_refl. reflexivity.
  - cbn [forallb] in Hb. apply andb_true_iff in Hb as [H1 H2].
    cbn [app drop_while]. rewrite H1. apply IH. exact H2.
Qed.

Lemma class_not_lf (cls : char -> bool) (b : str) :
  (forall c, cls c = true -> not_lf c = true) ->
  forallb cls b = true -> forallb not_lf b = true.
Proof.
  intros H. induction b as [|c b IH]; [reflexivity|].
  cbn [forallb]. intros Hb. apply andb_true_iff in Hb as [H1 H2].
  rewrite (H c H1), (IH H2). reflexivity.
Qed.

Lemma header_class_not_lf (c : char) :
  header_class c = true -> not_lf c = true.
Proof.
  unfold header_class, not_lf. intros H. apply negb_true_iff in H.
  apply orb_false_iff in H as [_ H]. rewrite H. reflexivity.
Qed.

Lemma tag_class_not_lf (c : char) : tag_class c = true -> not_lf c = true.
Proof.
  unfold tag_class, not_lf. intros H. apply negb_true_iff in H.
  apply orb_false_iff in H as [_ H]. rewrite H. reflexivity.
Qed.

(** Each kind of span, apart. *)
Lemma header_end_span (s t : str) :
  header_end s = Some t ->
  exists a, s = a ++ t /\ forallb not_lf a = true
            /\ (exists a', a = ch "[" :: a')
            /\ forall w, header_end (a ++ w) = Some w.
Proof.
  destruct s as [|c [|y s2]]; try discriminate. unfold header_end.
  destruct (ceqb (ch "[") c) eqn:Ec; [|discriminate].
  apply ceqb_eq in Ec. subst c.
  destruct (header_class y) eqn:Ey; [|discriminate]. cbn [andb].
  intros H. apply span_end_some in H as (b & -> & Hb).
  exists (ch "[" :: y :: b ++ [ch "]"]). repeat split.
  - cbn [app]. rewrite <- app_assoc. reflexivity.
  - cbn [forallb]. rewrite (header_class_not_lf y Ey).
    rewrite forallb_app, (class_not_lf _ b header_class_not_lf Hb).
    reflexivity.
  - eexists. reflexivity.
  - intros w. cbn [app]. rewrite ceqb_refl, Ey. cbn [andb].
    rewrite <- app_assoc. apply span_end_intro; [exact Hb | reflexivity].
Qed.

Lemma escape_end_span (s t : str) :
  escape_end s = Some t ->
  exists a, s = a ++ t /\ forallb not_lf a = true
            /\ a = u "\n"
            /\ forall w, escape_end (a ++ w) = Some w.
Proof.
  unfold escape_end. destruct (startswith (u "\n") s) eqn:E; [|discriminate].
  apply startswith_app in E as [r ->]. intros H. injection H as <-.
  exists (u "\n"). repeat split.
Qed.

Lemma u200_end_span (s t : str) :
  u200_end s = Some t ->
  exists a, s = a ++ t /\ forallb not_lf a = true
            /\ (exists x, a = u "\u200" ++ [x])
            /\ forall w, u200_end (a ++ w) = Some w.
Proof.
  unfold u200_end.
  destruct (startswith (u "\u200") s) eqn:E; [|discriminate].
  apply startswith_app in E as [r ->].
  change (skipn 5 (u "\u200" ++ r)) with r.
  destruct r as [|x r]; [discriminate|].
  destruct (ceqb x (ch "5") || ceqb x (ch "c")) eqn:Ex; [|discriminate].
  intros H. injection H as <-.
  exists (u "\u200" ++ [x]). repeat split.
  - cbn [forallb app]. change (forallb not_lf (u "\u200" ++ [x]))
      with (not_lf x && true). rewrite andb_true_r.
    unfold not_lf. destruct (ceqb x LF) eqn:El; [|reflexivity].
    apply ceqb_eq in El. subst x. discriminate.
  - exists x. reflexivity.
  - intros w. unfold u200_end. rewrite <- app_assoc.
    rewrite startswith_prefix.
    change (skipn 5 (u "\u200" ++ [x] ++ w)) with (x :: w).
    cbv iota. rewrite Ex. reflexivity.
Qed.

Lemma tag_end_span (s t : str) :
  tag_end s = Some t ->
  exists a, s = a ++ t /\ forallb not_lf a = true
            /\ (exists a', a = ch "<" :: a' /\ a' <> [])
            /\ forall w, tag_end (a ++ w) = Some w.
Proof.
  destruct s as [|c s1]; [discriminate|]. unfold tag_end.
  destruct (ceqb (ch "<") c) eqn:Ec; [|discriminate].
  apply ceqb_eq in Ec. subst c.
  intros H. apply span_end_some in H as (b & -> & Hb).
  exists (ch "<" :: b ++ [ch ">"]). repeat split.
  - cbn [app]. rewrite <- app_assoc. reflexivity.
  - cbn [forallb]. rewrite forallb_app.
    rewrite (class_not_lf _ b tag_class_not_lf Hb). reflexivity.
  - exists (b ++ [ch ">"]). split; [reflexivity|].
    destruct b; discriminate.
  - intros w. cbn [app]. rewrite ceqb_refl.
    rewrite <- app_assoc. apply span_end_intro; [exact Hb | reflexivity].
Qed.

Lemma startswith_long (w x y : str) :
  length w <= length x -> startswith w (x ++ y) = startswith w x.
Proof.
  revert x; induction w as [|c w IH]; intros x H; [reflexivity|].
  destruct x as [|d x]; [simpl in H; lia|].
  cbn [app startswith]. rewrite IH by (simpl in H; lia). reflexivity.
Qed.

Lemma startswith_cut (w x y : str) :
  startswith w (x ++ y) = false -> startswith w x = false.
Proof.
  intros H. destruct (startswith w x) eqn:E; [|reflexivity].
  rewrite (startswith_weaken _ _ y E) in H. discriminate.
Qed.

(** The closing delimiter: first occurrence. *)
Lemma after_first_closer_some (s t : str) :
  after_first (u "!__!") s = Some t ->
  exists m, s = m ++ u "!__!" ++ t
            /\ contains (u "!__!") (m ++ u "!__") = false.
Proof.
  induction s as [|c s IH].
  - cbn [after_first]. discriminate.
  - cbn [after_first].
    destruct (startswith (u "!__!") (c :: s)) eqn:E.
    + apply startswith_app in E as [r Hr]. rewrite Hr.
      change (skipn (length (u "!__!")) (u "!__!" ++ r)) with r.
      intros H. injection H as <-.
      exists []. split; reflexivity.
    + intros H. destruct (IH H) as (m & -> & Hm).
      exists (c :: m). split; [reflexivity|].
      cbn [app]. rewrite contains_unfold, Hm, orb_false_r.
      apply (startswith_cut _ _ (ch "!" :: t)).
      cbn [app]. rewrite <- app_assoc. exact E.
Qed.

Lemma after_first_closer_intro (m w : str) :
  contains (u "!__!") (m ++ u "!__") = false ->
  after_first (u "!__!") (m ++ u "!__!" ++ w) = Some w.
Proof.
  induction m as [|c m IH]; intros H.
  - reflexivity.
  - cbn [app] in *. rewrite contains_unfold in H.
    apply orb_false_iff in H as [H1 H2].
    cbn [after_first].
    assert (E : startswith (u "!__!") (((c :: m) ++ u "!__") ++ ch "!" :: w)
                = startswith (u "!__!") ((c :: m) ++ u "!__")).
    { apply startswith_long. rewrite length_app. simpl. lia. }
    cbn [app] in E. rewrite H1 in E. rewrite <- app_assoc in E.
    change (u "!__" ++ ch "!" :: w) with (u "!__!" ++ w) in E.
    rewrite E. apply IH. exact H2.
Qed.

Lemma after_first_contains (w s : str) :
  contains w s = true -> after_first w s <> None.
Proof.
  induction s as [|c s IH]; intros H.
  - cbn [contains] in H. rewrite orb_false_r in H.
    cbn [after_first]. rewrite H. discriminate.
  - cbn [after_first]. rewrite contains_unfold in H.
    destruct (startswith w (c :: s)); [discriminate|].
    apply IH. exact H.
Qed.

Lemma annotation_end_span (s t : str) :
  annotation_end s = Some t ->
  exists a, s = a ++ t /\ is_annotation a.
Proof.
  unfold annotation_end.
  destruct (startswith (u "!--!") s) eqn:E; [|discriminate].
  apply startswith_app in E as [r ->].
  change (skipn 4 (u "!--!" ++ r)) with r.
  intros H. apply after_first_closer_some in H as (m & -> & Hm).
  exists (u "!--!" ++ m ++ u "!__!"). split.
  - rewrite <- !app_assoc. reflexivity.
  - exists m. split; [reflexivity | exact Hm].
Qed.

Lemma annotation_end_intro (a w : str) :
  is_annotation a -> annotation_end (a ++ w) = Some w.
Proof.
  intros (m & -> & Hm). unfold annotation_end.
  rewrite <- !app_assoc. rewrite startswith_prefix.
  change (skipn 4 (u "!--!" ++ m ++ u "!__!" ++ w))
    with (m ++ u "!__!" ++ w).
  apply after_first_closer_intro. exact Hm.
Qed.

(** The kinds are told apart by their first character. *)
Lemma protected_end_dispatch (f : bool) (c : char) (s : str) :
  protected_end f (c :: s)
  = if ceqb (ch "[") c then header_end (c :: s)
    else if ceqb (ch "\") c
         then orelse (escape_end (c :: s))
                     (if f then u200_end (c :: s) else None)
         else if ceqb (ch "!") c then annotation_end (c :: s)
              else if ceqb (ch "<") c then tag_end (c :: s)
                   else None.
Proof.
  unfold protected_end.
  assert (Hh : ceqb (ch "[") c = false -> header_end (c :: s) = None).
  { intros H. unfold header_end. destruct s; [reflexivity|].
    rewrite H. reflexivity. }
  assert (He : ceqb (ch "\") c = false -> escape_end (c :: s) = None).
  { intros H. unfold escape_end.
    change (startswith (u "\n") (c :: s))
      with (ceqb (ch "\") c && startswith (u "n") s).
    rewrite H. reflexivity. }
  assert (Hu : ceqb (ch "\") c = false -> u200_end (c :: s) = None).
  { intros H. unfold u200_end.
    change (startswith (u "\u200") (c :: s))
      with (ceqb (ch "\") c && startswith (u "u200") s).
    rewrite H. reflexivity. }
  assert (Ha : ceqb (ch "!") c = false -> annotation_end (c :: s) = None).
  { intros H. unfold annotation_end.
    change (startswith (u "!--!") (c :: s))
      with (ceqb (ch "!") c && startswith (u "--!") s).
    rewrite H. reflexivity. }
  assert (Ht : ceqb (ch "<") c = false -> tag_end (c :: s) = None).
  { intros H. unfold tag_end. rewrite H. reflexivity. }
  destruct (ceqb (ch "[") c) eqn:E1.
  - apply ceqb_eq in E1. subst c.
    rewrite He, Hu, Ha, Ht by reflexivity.
    destruct (header_end (ch "[" :: s)); destruct f; reflexivity.
  - rewrite (Hh eq_refl). cbn [orelse].
    destruct (ceqb (ch "\") c) eqn:E2.
    + apply ceqb_eq in E2. subst c.
      rewrite Ha, Ht by reflexivity.
      destruct (escape_end (ch "\" :: s)); [reflexivity|].
      cbn [orelse]. destruct f; [|reflexivity].
      destruct (u200_end (ch "\" :: s)); reflexivity.
    + rewrite (He eq_refl), (Hu eq_refl). cbn [orelse].
      destruct (ceqb (ch "!") c) eqn:E3.
      * apply ceqb_eq in E3. subst c. rewrite Ht by reflexivity.
        destruct f; cbn [orelse];
          destruct (annotation_end (ch "!" :: s)); reflexivity.
      * rewrite (Ha eq_refl).
        destruct f; cbn [orelse]; destruct (ceqb (ch "<") c) eqn:E4;
          try reflexivity; apply Ht; reflexivity.
Qed.

Lemma protected_end_nil (f : bool) : protected_end f [] = None.
Proof. destruct f; reflexivity. Qed.

Lemma annotation_protected (f : bool) (a : str) :
  is_annotation a -> protected_span f a.
Proof.
  intros Ha. split; [|right; exact Ha].
  intros w. pose proof (annotation_end_intro a w Ha) as E.
  destruct Ha as (m & -> & _).
  change ((u "!--!" ++ m ++ u "!__!") ++ w)
    with (ch "!" :: (u "--!" ++ m ++ u "!__!") ++ w) in *.
  rewrite protected_end_dispatch. exact E.
Qed.

(** Every protected span found is a span as described. *)
Lemma protected_end_span (f : bool) (s t : str) :
  protected_end f s = Some t ->
  exists a, s = a ++ t /\ protected_span f a.
Proof.
  destruct s as [|c s]; [rewrite protected_end_nil; discriminate|].
  rewrite protected_end_dispatch.
  destruct (ceqb (ch "[") c) eqn:E1.
  { intros H. apply header_end_span in H
      as (a & Hs & Hlf & (a' & ->) & Hw).
    exists (ch "[" :: a'). split; [exact Hs|]. split.
    - intros w. cbn [app]. rewrite protected_end_dispatch. apply Hw.
    - left. split; [exact Hlf | discriminate]. }
  destruct (ceqb (ch "\") c) eqn:E2.
  { destruct (escape_end (c :: s)) as [t'|] eqn:Ee; cbn [orelse].
    - intros H. injection H as ->.
      apply escape_end_span in Ee as (a & Hs & Hlf & -> & Hw).
      exists (u "\n"). split; [exact Hs|]. split.
      + intros w. change (u "\n" ++ w) with (ch "\" :: (u "n" ++ w)).
        rewrite protected_end_dispatch.
        change (ch "\" :: (u "n" ++ w)) with (u "\n" ++ w).
        rewrite Hw. reflexivity.
      + left. split; [reflexivity | discriminate].
    - destruct f; [|discriminate].
      intros H. apply u200_end_span in H
        as (a & Hs & Hlf & (x & ->) & Hw).
      exists (u "\u200" ++ [x]). split; [exact Hs|]. split.
      + intros w.
        change ((u "\u200" ++ [x]) ++ w)
          with (ch "\" :: (u "u200" ++ [x]) ++ w).
        rewrite protected_end_dispatch.
        change (ch "\" :: (u "u200" ++ [x]) ++ w)
          with ((u "\u200" ++ [x]) ++ w).
        rewrite Hw. reflexivity.
      + left. split; [exact Hlf | discriminate]. }
  destruct (ceqb (ch "!") c) eqn:E3.
  { intros H. apply annotation_end_span in H as (a & Hs & Ha).
    exists a. split; [exact Hs|]. apply annotation_protected. exact Ha. }
  destruct (ceqb (ch "<") c) eqn:E4; [|discriminate].
  intros H. apply tag_end_span in H
    as (a & Hs & Hlf & (a' & -> & Ha') & Hw).
  exists (ch "<" :: a'). split; [exact Hs|]. split.
  - intros w. cbn [app]. rewrite protected_end_dispatch. apply Hw.
  - left. split; [exact Hlf | discriminate].
Qed.

Lemma not_lf_ends (a : str) :
  forallb not_lf a = true -> ends_in_newline a = false.
Proof.
  intros H. unfold ends_in_newline.
  destruct (rev a) as [|c r] eqn:E; [reflexivity|].
  assert (Hin : In c a).
  { apply in_rev. rewrite E. left. reflexivity. }
  rewrite forallb_forall in H. specialize (H c Hin).
  unfold not_lf in H. apply negb_true_iff in H.
  rewrite ceqb_sym. exact H.
Qed.

Lemma protected_span_token (f : bool) (a : str) :
  protected_span f a -> token (protected_end f) a.
Proof.
  intros (Hw & Hk). split; [exact Hw|].
  destruct Hk as [(Hlf & Hne)|(m & -> & _)].
  - split; [|apply not_lf_ends; exact Hlf].
    destruct a as [|c a']; [congruence|].
    exists c, a'. split; [reflexivity|].
    cbn [forallb] in Hlf. apply andb_true_iff in Hlf as [Hc _].
    unfold not_lf in Hc. apply negb_true_iff in Hc. exact Hc.
  - split.
    + exists (ch "!"), (u "--!" ++ m ++ u "!__!").
      split; reflexivity.
    + rewrite app_assoc.
      change (u "!__!") with (ch "!" :: u "__!").
      rewrite ends_in_newline_app. reflexivity.
Qed.

Lemma protected_end_token (f : bool) (s t : str) :
  protected_end f s = Some t ->
  exists a, s = a ++ t /\ token (protected_end f) a.
Proof.
  intros H. apply protected_end_span in H as (a & Hs & Ha).
  exists a. split; [exact Hs | apply protected_span_token; exact Ha].
Qed.

(** A protected span of a truncation is a protected span of the text. *)
Lemma protected_end_trunc (f : bool) (y s : str) :
  trunc y s -> protected_end f s = None -> protected_end f y = None.
Proof.
  intros Ht Hs.
  destruct (protected_end f y) as [t|] eqn:Hy; [|reflexivity].
  exfalso. apply protected_end_span in Hy as (a & -> & Hw & Hk).
  destruct Hk as [(Hlf & _)|Ha].
  - destruct (trunc_prefix a t s Hlf Ht) as (s' & -> & _).
    rewrite Hw in Hs. discriminate.
  - destruct Ha as (m & -> & Hm).
    rewrite <- app_assoc in Ht.
    destruct (trunc_prefix (u "!--!") _ s eq_refl Ht) as (s4 & -> & Ht4).
    assert (Hc : contains (u "!__!") s4 = true).
    { apply (trunc_contains (u "!__!") _ s4 eq_refl Ht4).
      rewrite <- app_assoc. apply contains_app_r. apply contains_prefix. }
    apply after_first_contains in Hc.
    change (u "!--!" ++ s4) with (ch "!" :: (u "--!" ++ s4)) in Hs.
    rewrite protected_end_dispatch in Hs. cbn [ceqb N.eqb ch] in Hs.
    change (annotation_end (u "!--!" ++ s4) = None) in Hs.
    unfold annotation_end in Hs. rewrite startswith_prefix in Hs.
    change (skipn 4 (u "!--!" ++ s4)) with s4 in Hs. congruence.
Qed.

Lemma squeeze_app_intro (va a x : str) :
  squeeze va a -> squeeze (va ++ x) (a ++ x).
Proof.
  induction 1 as [|c v u0 H IH|v u0 H IH].
  - apply squeeze_refl.
  - cbn [app]. constructor. exact IH.
  - cbn [app] in *. apply squeeze_drop. exact IH.
Qed.

(** A squeeze splits where the text on the right does not begin with a
    line feed. *)
Lemma squeeze_app_r (a b v : str) :
  (exists c b', b = c :: b' /\ ceqb c LF = false) ->
  squeeze v (a ++ b) ->
  exists va vb, v = va ++ vb /\ squeeze va a /\ squeeze vb b.
Proof.
  intros Hb. remember (length a) as n eqn:Hn. revert a v Hn.
  induction n as [n IH] using lt_wf_ind. intros a v Hn H.
  destruct a as [|c a].
  - exists [], v. repeat split; [constructor | exact H].
  - cbn [app] in H.
    inversion H as [|c0 v0 u0 H0 Ev Eu|v0 u0 H0 Ev Eu].
    + subst c0 u0.
      destruct (IH (length a) ltac:(subst n; simpl; lia) a v0 eq_refl H0)
        as (va & vb & -> & Ha & Hb').
      exists (c :: va), vb. repeat split; [constructor|]; assumption.
    + subst c.
      destruct a as [|c' a'].
      * destruct Hb as (x & b' & -> & Hx).
        match goal with
        | E : LF :: u0 = [] ++ x :: b' |- _ =>
            cbn [app] in E; injection E as <- _
        end.
        rewrite ceqb_refl in Hx. discriminate.
      * match goal with
        | E : LF :: u0 = (c' :: a') ++ b |- _ =>
            cbn [app] in E; injection E as <- ->
        end.
        destruct (IH (length (LF :: a')) ltac:(subst n; simpl; lia)
                     (LF :: a') (LF :: v0) eq_refl H0)
          as (va & vb & E & Ha & Hb').
        destruct (squeeze_lf_start _ _ Ha) as [va' ->].
        exists (LF :: va'), vb. repeat split.
        -- exact E.
        -- apply squeeze_drop. exact Ha.
        -- exact Hb'.
Qed.

(** An annotation stays one when line feeds are squeezed out of it. *)
Lemma annotation_squeeze (a a' : str) :
  is_annotation a -> squeeze a' a -> is_annotation a'.
Proof.
  intros (m & -> & Hm) Hs.
  destruct (squeeze_app (u "!--!") _ a' eq_refl Hs)
    as (vo & vr & -> & Ho & Hr).
  apply squeeze_no_lf in Ho; [|reflexivity]. subst vo.
  destruct (squeeze_app_r m (u "!__!") vr) as (m' & vc & -> & Hm' & Hc).
  - exists (ch "!"), (u "__!"). split; reflexivity.
  - exact Hr.
  - apply squeeze_no_lf in Hc; [|reflexivity]. subst vc.
    exists m'. split; [reflexivity|].
    destruct (contains (u "!__!") (m' ++ u "!__")) eqn:E; [|reflexivity].
    rewrite <- Hm. symmetry.
    apply (trunc_contains (u "!__!") (m' ++ u "!__") _ eq_refl); [|exact E].
    apply squeeze_trunc. apply squeeze_app_intro. exact Hm'.
Qed.

Lemma protected_token_squeeze (f : bool) (a a' : str) :
  token (protected_end f) a -> squeeze a' a -> token (protected_end f) a'.
Proof.
  intros (Hw & _) Hs.
  pose proof (Hw []) as H0. rewrite app_nil_r in H0.
  apply protected_end_span in H0 as (a0 & E & Ha0).
  rewrite app_nil_r in E. subst a0.
  destruct Ha0 as (Hw0 & [(Hlf & Hne)|Ha]).
  - rewrite (squeeze_no_lf _ _ Hs Hlf).
    apply protected_span_token. split; [exact Hw0|].
    left. split; assumption.
  - apply protected_span_token. apply annotation_protected.
    apply (annotation_squeeze a); assumption.
Qed.

(* ================================================================== *)
(** * The language filters are scans *)
(* ================================================================== *)

Lemma step_of_alt_grp (A B : re) (p : option char) (s : str) :
  bol_free A = true ->
  step_of (Alt (Grp 1 A) B) [Ref 1] p s
  = match hd_error (ends A s) with
    | Some t => Some (firstn (length s - length t) s, length s - length t)
    | None =>
        match hd_error (run B (mk p s [])) with
        | Some st => Some (group 1 (caps st), length s - length (rest st))
        | None => None
        end
    end.
Proof.
  intros HA. unfold step_of, first_match. cbn [run].
  pose proof (run_ends A HA (mk p s [])) as H. cbn [rest] in H.
  rewrite <- H.
  destruct (run A (mk p s [])) as [|st1 l].
  - cbn [List.map app hd_error].
    destruct (hd_error (run B (mk p s []))) as [st|]; [|reflexivity].
    unfold expand, match_len. cbn [flat_map]. rewrite app_nil_r.
    reflexivity.
  - cbn [List.map app hd_error].
    unfold expand, match_len, consumed.
    cbn [flat_map caps rest group Nat.eqb]. rewrite app_nil_r.
    reflexivity.
Qed.

Lemma tail_alternative (B : re) (p : option char) (s : str) :
  bol_free B = true -> group_free B = true ->
  match hd_error (run B (mk p s [])) with
  | Some st => Some (group 1 (caps st), length s - length (rest st))
  | None => None
  end
  = match hd_error (ends B s) with
    | Some t => Some ([], length s - length t)
    | None => None
    end.
Proof.
  intros Hb Hg.
  pose proof (run_ends B Hb (mk p s [])) as H. cbn [rest] in H.
  rewrite <- H.
  pose proof (run_caps B Hg (mk p s [])) as Hc.
  destruct (run B (mk p s [])) as [|st l]; [reflexivity|].
  cbn [List.map hd_error].
  rewrite (Hc st (or_introl eq_refl)). reflexivity.
Qed.

Lemma step_of_remove_non_english (p : option char) (s : str) :
  step_of remove_non_english [Ref 1] p s
  = strip_step (protected_end false) false non_ascii p s.
Proof.
  unfold remove_non_english. rewrite step_of_alt_grp by reflexivity.
  rewrite ends_protected_english. unfold strip_step.
  destruct (protected_end false s); [reflexivity|].
  rewrite tail_alternative by reflexivity.
  rewrite ends_non_ascii_line. cbn [negb orb andb].
  destruct (existsb non_ascii (line s)); reflexivity.
Qed.

Lemma step_of_remove_english (p : option char) (s : str) :
  step_of remove_english [Ref 1] p s
  = strip_step (protected_end true) true ascii_letter p s.
Proof.
  unfold remove_english. rewrite step_of_alt_grp by reflexivity.
  rewrite ends_protected_non_english. unfold strip_step.
  destruct (protected_end true s); [reflexivity|].
  cbn [negb orb].
  change (run (Seq Bol ?B) ?st)
    with (flat_map (run B) (if at_bol st then [st] else [])).
  change (at_bol (mk p s [])) with (bol p).
  destruct (bol p); cbn [flat_map andb hd_error]; [|reflexivity].
  rewrite app_nil_r.
  rewrite tail_alternative by reflexivity.
  rewrite ends_letter_line.
  destruct (existsb ascii_letter (line s)); reflexivity.
Qed.

Lemma strip_step_positive (f anchored : bool) (Q : char -> bool)
      (p : option char) (s out : str) (n : nat) :
  strip_step (protected_end f) anchored Q p s = Some (out, n) -> 0 < n.
Proof.
  unfold strip_step.
  destruct (protected_end f s) as [t|] eqn:E.
  - apply protected_end_token in E as (a & -> & Ha).
    intros H. injection H as _ <-. rewrite length_app.
    destruct Ha as (_ & (c & a' & -> & _) & _). cbn [length]. lia.
  - destruct ((negb anchored || bol p) && existsb Q (line s)) eqn:Ef;
      [|discriminate].
    intros H. injection H as _ <-.
    apply andb_true_iff in Ef as [_ Ef].
    pose proof (existsb_line_nonempty Q s Ef). lia.
Qed.

Lemma step_of_positive (r : re) (repl : list piece)
      (F : option char -> str -> option (str * nat)) :
  (forall p s, step_of r repl p s = F p s) ->
  (forall p s out n, F p s = Some (out, n) -> 0 < n) ->
  forall p s st, first_match r p s = Some st -> 0 < match_len s st.
Proof.
  intros HF Hpos p s st H.
  apply (Hpos p s (expand repl st)). rewrite <- HF.
  unfold step_of. rewrite H. reflexivity.
Qed.

(** The two substitutions of [string_formatter] as scans. *)
Lemma sub_remove_non_english (s : str) :
  sub remove_non_english [Ref 1] s
  = strip_scan (protected_end false) false non_ascii None s.
Proof.
  unfold sub, strip_scan.
  rewrite (@sub_from_scan remove_non_english [Ref 1]).
  - apply scan_ext. apply step_of_remove_non_english.
  - apply (step_of_positive _ _ _ step_of_remove_non_english).
    apply strip_step_positive.
Qed.

Lemma sub_remove_english (s : str) :
  sub remove_english [Ref 1] s
  = strip_scan (protected_end true) true ascii_letter None s.
Proof.
  unfold sub, strip_scan.
  rewrite (@sub_from_scan remove_english [Ref 1]).
  - apply scan_ext. apply step_of_remove_english.
  - apply (step_of_positive _ _ _ step_of_remove_english).
    apply strip_step_positive.
Qed.

(* ================================================================== *)
(** * format_language: a second application *)
(* ================================================================== *)

(** A language filter followed by [remove_extra_newlines] needs no second
    pass on text without break markup. *)
Lemma filter_then_squeeze (f anchored : bool) (Q : char -> bool) (s : str) :
  br_free s = true ->
  let once :=
    remove_extra_newlines (strip_scan (protected_end f) anchored Q None s) in
  remove_extra_newlines (strip_scan (protected_end f) anchored Q None once)
  = once.
Proof.
  intros Hb once.
  set (x := strip_scan (protected_end f) anchored Q None s) in *.
  assert (Hx : br_free x = true).
  { apply (trunc_br_free x s); [|exact Hb].
    apply (strip_scan_trunc (protected_end f) anchored Q
                            (protected_end_token f)). }
  assert (Hfix : strip_scan (protected_end f) anchored Q None once = once).
  { apply (strip_scan_squeeze_fixed (protected_end f) anchored Q
             (protected_end_token f) (protected_end_trunc f)
             (protected_token_squeeze f) s).
    apply remove_extra_newlines_squeeze. exact Hx. }
  rewrite Hfix. apply remove_extra_newlines_idempotent. exact Hx.
Qed.

Lemma string_formatter_idempotent (lyrics_language s : str) :
  br_free s = true ->
  string_formatter lyrics_language (string_formatter lyrics_language s)
  = string_formatter lyrics_language s.
Proof.
  intros Hb. unfold string_formatter.
  destruct (Str.eqb lyrics_language (u "English")).
  - rewrite !sub_remove_non_english.
    apply (filter_then_squeeze false false non_ascii s Hb).
  - destruct (Str.eqb lyrics_language (u "Non-English")).
    + rewrite !sub_remove_english.
      apply (filter_then_squeeze true true ascii_letter s Hb).
    + apply remove_extra_newlines_idempotent. exact Hb.
Qed.

Lemma format_node_idempotent (lyrics_language : str) (n : node) :
  node_br_free n = true ->
  format_node lyrics_language (format_node lyrics_language n)
  = format_node lyrics_language n.
Proof.
  induction n as [s|s|nm attrs kids IH] using node_forall_ind; intros Hb.
  - cbn [format_node]. destruct (not_blank s) eqn:E.
    + cbn [format_node].
      destruct (not_blank (string_formatter lyrics_language s));
        [|reflexivity].
      rewrite string_formatter_idempotent by exact Hb. reflexivity.
    + cbn [format_node]. rewrite E. reflexivity.
  - reflexivity.
  - cbn [format_node]. f_equal. rewrite map_map.
    cbn [node_br_free] in Hb. rewrite forallb_forall in Hb.
    apply map_ext_in. intros k Hk.
    rewrite Forall_forall in IH. apply (IH k Hk). apply Hb. exact Hk.
Qed.

Lemma format_nodes_idempotent (lyrics_language : str) (kids : list node) :
  forallb node_br_free kids = true ->
  List.map (format_node lyrics_language)
           (List.map (format_node lyrics_language) kids)
  = List.map (format_node lyrics_language) kids.
Proof.
  intros Hb. rewrite map_map. apply map_ext_in. intros k Hk.
  apply format_node_idempotent. rewrite forallb_forall in Hb.
  apply Hb. exact Hk.
Qed.

(** C6 (as amended).  On a document whose strings hold no break markup
    [<br], and for every language preference, [format_language] returns
    a document on which a second application with the same preference
    changes nothing. *)
Theorem format_language_idempotent_without_breaks
        (html_parser : str -> option (list node)) (lyrics : pyvalue)
        (lyrics_language : str) :
  is_document lyrics = true ->
  doc_br_free lyrics = true ->
  exists once,
    format_language html_parser lyrics lyrics_language = Ok once
    /\ format_language html_parser once lyrics_language = Ok once.
Proof.
  intros Hd Hb. destruct lyrics as [nm attrs kids|kids|s| |z|b];
    try discriminate.
  - eexists. split; [reflexivity|]. cbn [format_language].
    rewrite format_nodes_idempotent by exact Hb. reflexivity.
  - eexists. split; [reflexivity|]. cbn [format_language].
    rewrite format_nodes_idempotent by exact Hb. reflexivity.
Qed.

Lemma format_language_idempotent_without_breaks_witness :
  exists once,
    format_language Lib.parse_text (VSoup [Text mixed_lyrics]) (u "English")
    = Ok once
    /\ format_language Lib.parse_text once (u "English") = Ok once.
Proof.
  apply (format_language_idempotent_without_breaks
           Lib.parse_text (VSoup [Text mixed_lyrics]) (u "English"));
    reflexivity.
Defined.

(** C6, counterexample.  One string of a document, a section header with
    two break markers between two accented letters, English only: the first
    application keeps the header and turns the breaks into a line feed,
    which breaks the header, so the second application removes both
    halves. *)
Lemma format_language_twice_differs :
  format_language Lib.parse_text (VSoup [Text header_with_breaks])
                  (u "English")
  = Ok (VSoup [Text [ch "["; 233%N; LF; 233%N; ch "]"]])
  /\ format_language Lib.parse_text
                     (VSoup [Text [ch "["; 233%N; LF; 233%N; ch "]"]])
                     (u "English")
     = Ok (VSoup [Text [LF]]).
Proof. vm_compute. split; reflexivity. Qed.

(* ================================================================== *)
(** * has_sentence *)
(* ================================================================== *)

Lemma startswith_nil_r (p : str) : startswith p [] = true -> p = [].
Proof. destruct p; [reflexivity | discriminate]. Qed.

(** [p in s] holds exactly when [s] is some text, [p], some text. *)
Lemma contains_occurs (p s : str) :
  contains p s = true <-> exists a b, s = a ++ p ++ b.
Proof.
  split.
  - induction s as [|c s IH]; intros H.
    + rewrite contains_unfold, orb_false_r in H.
      apply startswith_nil_r in H. subst p. exists [], []. reflexivity.
    + rewrite contains_unfold in H. apply orb_true_iff in H as [H|H].
      * apply startswith_app in H as [t Ht]. exists [], t. exact Ht.
      * destruct (IH H) as (a & b & ->). exists (c :: a), b. reflexivity.
  - intros (a & b & ->). apply contains_app_r. apply contains_prefix.
Qed.

(** X4.  [has_sentence] answers [True] exactly when some element of
    [sentences] occurs in [sentence] as a run of consecutive characters. *)
Theorem has_sentence_occurrence (sentences : list str) (sentence : str) :
  has_sentence sentences sentence = true
  <-> exists x a b, In x sentences /\ sentence = a ++ x ++ b.
Proof.
  induction sentences as [|y l IH]; cbn [has_sentence].
  - split; [discriminate | intros (x & a & b & [] & _)].
  - destruct (contains y sentence) eqn:E.
    + split; [intros _ | reflexivity].
      apply contains_occurs in E as (a & b & E).
      exists y, a, b. split; [left; reflexivity | exact E].
    + rewrite IH. split.
      * intros (x & a & b & Hin & Hs). exists x, a, b.
        split; [right; exact Hin | exact Hs].
      * intros (x & a & b & [<-|Hin] & Hs).
        -- assert (contains y sentence = true) as Hc
             by (apply contains_occurs; exists a, b; exact Hs).
           rewrite Hc in E. discriminate.
        -- exists x, a, b. split; assumption.
Qed.

(** X5.  An empty string among [sentences] makes every sentence match,
    the empty one included. *)
Theorem has_sentence_empty_snippet (sentences : list str) (sentence : str) :
  In [] sentences -> has_sentence sentences sentence = true.
Proof.
  intros H. induction sentences as [|y l IH]; [destruct H|].
  cbn [has_sentence]. destruct H as [->|H].
  - destruct sentence; reflexivity.
  - destruct (contains y sentence); [reflexivity | apply IH; exact H].
Qed.

Lemma has_sentence_empty_snippet_witness :
  has_sentence [u "la la"; []] (u "hello") = true.
Proof.
  apply has_sentence_empty_snippet. right. left. reflexivity.
Defined.

(* ================================================================== *)
(** * remove_unsupported_tags: what a call leaves *)
(* ================================================================== *)

Lemma restart_loop_fixed (supported : list str) (fuel : nat)
      (soup : list node) :
  scan_once supported soup = None -> restart_loop supported fuel soup = soup.
Proof. intros H. destruct fuel; simpl; [|rewrite H]; reflexivity. Qed.

(** X6.  A second call of [remove_unsupported_tags] changes nothing. *)
Theorem remove_unsupported_tags_idempotent (soup : list node)
        (supported : list str) :
  remove_unsupported_tags (remove_unsupported_tags soup supported) supported
  = remove_unsupported_tags soup supported.
Proof.
  unfold remove_unsupported_tags at 1.
  apply restart_loop_fixed. apply remove_unsupported_tags_terminates.
Qed.

Lemma scan_once_keeps (supported : list str) (soup soup' : list node)
      (n : node) :
  scan_once supported soup = Some soup' ->
  kept_as_is supported n = true -> In n soup -> In n soup'.
Proof.
  revert soup'; induction soup as [|tag rest IH]; intros soup' H Hk Hin;
    [destruct Hin|].
  cbn [scan_once] in H.
  assert (Hrest : forall r, option_map (cons tag) (scan_once supported rest)
                            = Some r -> In n r).
  { intros r Hr. destruct (scan_once supported rest) as [rest'|];
      [|discriminate].
    injection Hr as <-. destruct Hin as [->|Hin]; [left; reflexivity|].
    right. apply IH; [reflexivity | exact Hk | exact Hin]. }
  destruct tag as [s|s|nm attrs kids]; try (apply Hrest; exact H).
  destruct (is_supported supported nm) eqn:E; cbn [negb] in H;
    [apply Hrest; exact H|].
  injection H as <-. apply in_or_app. right.
  destruct Hin as [<-|Hin]; [|exact Hin].
  unfold kept_as_is in Hk. cbn [name_of] in Hk. congruence.
Qed.

Lemma restart_loop_keeps (supported : list str) (fuel : nat)
      (soup : list node) (n : node) :
  kept_as_is supported n = true -> In n soup ->
  In n (restart_loop supported fuel soup).
Proof.
  intros Hk. revert soup; induction fuel as [|k IH]; intros soup Hin;
    [exact Hin|].
  cbn [restart_loop]. destruct (scan_once supported soup) as [soup'|] eqn:E;
    [|exact Hin].
  apply IH. eapply scan_once_keeps; eassumption.
Qed.

(** X7.  Nothing that is allowed is lost: a string, a comment or a tag
    with a supported name that is a direct child of the document is still
    one afterwards, with all that it holds. *)
Theorem remove_unsupported_tags_keeps_supported (soup : list node)
        (supported : list str) (n : node) :
  kept_as_is supported n = true -> In n soup ->
  In n (remove_unsupported_tags soup supported).
Proof.
  intros Hk Hin. unfold remove_unsupported_tags.
  apply restart_loop_keeps; assumption.
Qed.

Lemma remove_unsupported_tags_keeps_supported_witness :
  In (Elem (u "b") [] [Elem (u "div") [] [Text (u "x")]])
     (remove_unsupported_tags
        [Elem (u "p") [] [Text (u "y")];
         Elem (u "b") [] [Elem (u "div") [] [Text (u "x")]]]
        [u "b"]).
Proof.
  apply remove_unsupported_tags_keeps_supported.
  - reflexivity.
  - right. left. reflexivity.
Defined.

(* ================================================================== *)
(** * format_filename and format_title *)
(* ================================================================== *)

(** Substituting nothing for one character of a class deletes the
    characters of the class. *)
Lemma sub_class_delete (P : char -> bool) (s : str) :
  forall p, sub_from (Chr P) [] p s 0
            = List.filter (fun c => negb (P c)) s.
Proof.
  induction s as [|c s IH]; intros p; [reflexivity|].
  cbn [sub_from List.filter]. unfold first_match. cbn [run rest caps].
  destruct (P c) eqn:E; cbn [hd_error negb].
  - unfold match_len. cbn [rest length].
    replace (S (length s) - length s) with 1 by lia.
    cbn [expand flat_map app]. apply IH.
  - f_equal. apply IH.
Qed.

(** X8.  [format_filename] deletes the nine characters a file name may
    not hold and nothing else: what it returns is the input without them,
    in the same order, so none of them is left. *)
Theorem format_filename_deletes_invalid (s : str) :
  format_filename s
  = List.filter (fun c => negb (invalid_in_filename c)) s
  /\ forall c, In c (format_filename s) -> invalid_in_filename c = false.
Proof.
  assert (H : format_filename s
              = List.filter (fun c => negb (invalid_in_filename c)) s)
    by apply sub_class_delete.
  split; [exact H|].
  intros c Hc. rewrite H in Hc. apply filter_In in Hc as [_ Hc].
  apply negb_true_iff in Hc. exact Hc.
Qed.

(** X9.  The file name of a title made by [format_title]: the artist and
    the title are cleaned separately and the separator is kept, and the
    artist is left out when its name holds the word Genius. *)
Theorem format_filename_of_title (artist title : str) :
  format_filename (format_title artist title)
  = if contains (u "Genius") artist then format_filename title
    else format_filename artist ++ u " - " ++ format_filename title.
Proof.
  unfold format_title. destruct (contains (u "Genius") artist);
    [reflexivity|].
  unfold format_filename, sub. rewrite !sub_class_delete.
  rewrite !filter_app. reflexivity.
Qed.

(* ================================================================== *)
(** * find_matching_lyrics: a line given as it stands in the lyrics *)
(* ================================================================== *)

Lemma contains_refl (s : str) : contains s s = true.
Proof.
  rewrite <- (app_nil_r s) at 2. apply contains_prefix.
Qed.

(** X10.  A candidate that is, character for character, a line of the
    lyrics is always found, whatever the similarity ratio and the cleaning
    function do: the result is not null. *)
Theorem find_matching_lyrics_finds_verbatim
        (similar : str -> str -> bool) (clean_str : str -> str)
        (lines : list str) (lyrics l : str) :
  In l lines -> In l (split [LF] lyrics) ->
  exists found, find_matching_lyrics similar clean_str lines lyrics
                = Some found.
Proof.
  intros Hl Hin. unfold find_matching_lyrics.
  rewrite matching_lines_firstn.
  assert (Hhit : any_hit similar clean_str lines l = true).
  { unfold any_hit. apply existsb_exists. exists l. split; [exact Hl|].
    unfold line_hit. rewrite contains_refl. apply orb_true_r. }
  assert (Hf : In l (List.filter (any_hit similar clean_str lines)
                                 (split [LF] lyrics)))
    by (apply filter_In; split; assumption).
  destruct lines as [|x lines]; [destruct Hl|].
  destruct (List.filter (any_hit similar clean_str (x :: lines))
                        (split [LF] lyrics)) as [|m ms]; [destruct Hf|].
  cbn [length firstn]. eexists. reflexivity.
Qed.

Lemma find_matching_lyrics_finds_verbatim_witness :
  exists found,
    find_matching_lyrics (fun _ _ => false) (fun s => s)
                         [u "foo bar"; u "hello world"]
                         (u "intro" ++ [LF] ++ u "hello world") = Some found.
Proof.
  apply (find_matching_lyrics_finds_verbatim _ _ _ _ (u "hello world")).
  - right. left. reflexivity.
  - right. left. reflexivity.
Defined.

(* ================================================================== *)
(** * Lines: split and join on the line feed *)
(* ================================================================== *)

Lemma not_lf_false (c : char) : not_lf c = false -> c = LF.
Proof.
  unfold not_lf. intros H. apply negb_false_iff in H.
  apply ceqb_eq in H. exact H.
Qed.

Lemma not_lf_ceqb (c : char) : ceqb LF c = negb (not_lf c).
Proof. unfold not_lf. rewrite negb_involutive. apply ceqb_sym. Qed.

Lemma split_from_lf (s acc : str) :
  split_from [LF] s acc 0
  = (rev acc ++ line s)
    :: match after_line s with
       | [] => []
       | _ :: r => split_from [LF] r [] 0
       end.
Proof.
  revert acc; induction s as [|c s IH]; intros acc.
  - cbn [split_from]. unfold line, after_line. cbn [take_while drop_while].
    rewrite app_nil_r. reflexivity.
  - cbn [split_from startswith]. rewrite andb_true_r, not_lf_ceqb.
    unfold line, after_line. cbn [take_while drop_while].
    destruct (not_lf c) eqn:E; cbn [negb].
    + rewrite IH. cbn [rev]. rewrite <- app_assoc. reflexivity.
    + rewrite app_nil_r. reflexivity.
Qed.

(** The lines of a text: its first line, then the lines of what follows
    the first line feed. *)
Lemma split_lines (s : str) :
  split [LF] s
  = line s :: match after_line s with
              | [] => []
              | _ :: r => split [LF] r
              end.
Proof. unfold split. rewrite split_from_lf. reflexivity. Qed.

Lemma join_cons (sep l : str) (ls : list str) :
  join sep (l :: ls) = l ++ flat_map (fun x => sep ++ x) ls.
Proof.
  revert l; induction ls as [|y ls IH]; intros l.
  - cbn [join flat_map]. rewrite app_nil_r. reflexivity.
  - change (join sep (l :: y :: ls)) with (l ++ sep ++ join sep (y :: ls)).
    rewrite IH. cbn [flat_map]. rewrite <- app_assoc. reflexivity.
Qed.

Lemma line_lf_free (s : str) : lf_free (line s) = true.
Proof.
  unfold lf_free, line. induction s as [|c s IH]; [reflexivity|].
  cbn [take_while]. destruct (not_lf c) eqn:E; [|reflexivity].
  cbn [forallb]. rewrite E. exact IH.
Qed.

Lemma line_app_lf (l t : str) :
  lf_free l = true -> line (l ++ LF :: t) = l /\ after_line (l ++ LF :: t) = LF :: t.
Proof.
  unfold lf_free, line, after_line. induction l as [|c l IH]; intros H.
  - split; reflexivity.
  - cbn [forallb] in H. apply andb_true_iff in H as [Hc Hl].
    cbn [app take_while drop_while]. rewrite Hc.
    destruct (IH Hl) as [-> ->]. split; reflexivity.
Qed.

Lemma line_whole (l : str) :
  lf_free l = true -> line l = l /\ after_line l = [].
Proof.
  unfold lf_free, line, after_line. induction l as [|c l IH]; intros H.
  - split; reflexivity.
  - cbn [forallb] in H. apply andb_true_iff in H as [Hc Hl].
    cbn [take_while drop_while]. rewrite Hc.
    destruct (IH Hl) as [-> ->]. split; reflexivity.
Qed.

(** Splitting undoes joining, for lines that hold no line feed. *)
Lemma split_join (l : str) (ls : list str) :
  Forall (fun x => lf_free x = true) (l :: ls) ->
  split [LF] (join [LF] (l :: ls)) = l :: ls.
Proof.
  revert l; induction ls as [|y ls IH]; intros l H.
  - cbn [join]. inversion H as [|? ? Hl _]; subst.
    rewrite split_lines. destruct (line_whole l Hl) as [-> ->]. reflexivity.
  - inversion H as [|? ? Hl Hr]; subst.
    change (join [LF] (l :: y :: ls)) with (l ++ LF :: join [LF] (y :: ls)).
    rewrite split_lines.
    destruct (line_app_lf l (join [LF] (y :: ls)) Hl) as [-> ->].
    rewrite (IH y Hr). reflexivity.
Qed.

(** The lines of a text hold no line feed. *)
Lemma split_lf_free (s : str) :
  Forall (fun x => lf_free x = true) (split [LF] s).
Proof.
  remember (length s) as n eqn:Hn. revert s Hn.
  induction n as [n IH] using lt_wf_ind. intros s Hn.
  rewrite split_lines. constructor; [apply line_lf_free|].
  destruct (after_line s) as [|c r] eqn:E; [constructor|].
  apply (IH (length r)); [|reflexivity].
  pose proof (drop_while_length not_lf s) as H. fold (after_line s) in H.
  rewrite E in H. cbn [length] in H. lia.
Qed.

(** Joining undoes splitting. *)
Lemma join_split (s : str) : join [LF] (split [LF] s) = s.
Proof.
  remember (length s) as n eqn:Hn. revert s Hn.
  induction n as [n IH] using lt_wf_ind. intros s Hn.
  rewrite split_lines, join_cons.
  rewrite (line_after_line s) at 3. f_equal.
  destruct (after_line_shape s) as [E|[r E]]; rewrite E; [reflexivity|].
  assert (Hr : length r < n).
  { pose proof (drop_while_length not_lf s) as H. fold (after_line s) in H.
    rewrite E in H. cbn [length] in H. lia. }
  rewrite split_lines. cbn [flat_map]. rewrite <- app_assoc, <- join_cons.
  rewrite <- split_lines, (IH (length r) Hr r eq_refl). reflexivity.
Qed.

(* ================================================================== *)
(** * remove_links *)
(* ================================================================== *)

(** One search of a pattern without [^], with a replacement that does not
    depend on the match. *)
Lemma step_of_ends (r : re) (repl : list piece) (x : str)
      (p : option char) (s : str) :
  bol_free r = true -> (forall st, expand repl st = x) ->
  step_of r repl p s
  = option_map (fun t => (x, length s - length t)) (hd_error (ends r s)).
Proof.
  intros Hb Hx. unfold step_of.
  pose proof (first_match_ends r p s Hb) as H.
  destruct (first_match r p s) as [st|]; cbn [option_map] in H;
    rewrite <- H; [|reflexivity].
  cbn [option_map]. rewrite Hx. reflexivity.
Qed.

Lemma startswith_line (w s : str) :
  lf_free w = true -> startswith w (line s) = startswith w s.
Proof.
  unfold lf_free, line. revert s; induction w as [|c w IH]; intros s H;
    [reflexivity|].
  cbn [forallb] in H. apply andb_true_iff in H as [Hc Hw].
  destruct s as [|x s]; [reflexivity|].
  cbn [take_while]. destruct (not_lf x) eqn:E.
  - cbn [startswith]. rewrite (IH s Hw). reflexivity.
  - apply not_lf_false in E. subst x. cbn [startswith].
    destruct (ceqb c LF) eqn:Ec; [|reflexivity].
    apply ceqb_eq in Ec. subst c. discriminate.
Qed.

Lemma after_line_link (r : str) :
  is_link_line r = true -> after_line (skipn 4 r) = after_line r.
Proof.
  intros H. apply startswith_app in H as [t ->]. reflexivity.
Qed.

Lemma ends_links_pattern (s : str) :
  hd_error (ends links_pattern s)
  = match s with
    | c :: r =>
        if ceqb LF c && is_link_line r then Some (after_line r) else None
    | [] => None
    end.
Proof.
  unfold links_pattern. rewrite ends_seq, ends_c1.
  destruct s as [|c r]; [reflexivity|].
  destruct (ceqb LF c); [|reflexivity].
  cbn [flat_map andb]. rewrite app_nil_r, ends_seq, ends_lit.
  fold (is_link_line r). destruct (is_link_line r) eqn:E; [|reflexivity].
  cbn [flat_map]. rewrite app_nil_r, ends_seq.
  unfold c1. rewrite ends_star_class.
  destruct (class_tails_hd (ceqb (ch "s")) (skipn (length (u "http")) r))
    as [l ->].
  cbn [flat_map]. unfold dot.
  change (fun c0 : char => negb (ceqb c0 LF)) with not_lf.
  rewrite ends_star_class.
  destruct (class_tails_hd not_lf
              (drop_while (ceqb (ch "s")) (skipn (length (u "http")) r)))
    as [l' ->].
  cbn [app hd_error]. f_equal.
  rewrite drop_while_twice.
  - apply after_line_link. exact E.
  - intros x Hx. apply ceqb_eq in Hx. subst x. reflexivity.
Qed.

Lemma step_of_links_pattern (p : option char) (s : str) :
  step_of links_pattern [] p s = links_step p s.
Proof.
  rewrite (step_of_ends links_pattern [] [] p s eq_refl)
    by reflexivity.
  rewrite ends_links_pattern. unfold links_step.
  destruct s as [|c r]; [reflexivity|].
  destruct (ceqb LF c && is_link_line r); reflexivity.
Qed.

Lemma links_step_positive (p : option char) (s out : str) (n : nat) :
  links_step p s = Some (out, n) -> 0 < n.
Proof.
  unfold links_step. destruct s as [|c r]; [discriminate|].
  destruct (ceqb LF c && is_link_line r); [|discriminate].
  intros H. injection H as _ <-.
  pose proof (drop_while_length not_lf r) as Hl.
  unfold after_line. destruct (length (drop_while not_lf r)); lia.
Qed.

(** [remove_links] as a scan with the pattern read directly. *)
Lemma remove_links_scan (s : str) :
  remove_links s = scan links_step None s 0.
Proof.
  unfold remove_links, sub.
  rewrite (@sub_from_scan links_pattern []).
  - apply scan_ext. apply step_of_links_pattern.
  - apply (step_of_positive _ _ _ step_of_links_pattern).
    apply links_step_positive.
Qed.

(** The scan passes a line without touching it. *)
Lemma scan_links_line (p p' : option char) (s : str) :
  scan links_step p s 0 = line s ++ scan links_step p' (after_line s) 0.
Proof.
  revert p; induction s as [|c s IH]; intros p; [reflexivity|].
  unfold line, after_line. cbn [take_while drop_while].
  destruct (not_lf c) eqn:E.
  - rewrite scan_keep.
    + cbn [app]. f_equal. apply IH.
    + unfold links_step. rewrite not_lf_ceqb, E. reflexivity.
  - apply scan_prev. reflexivity.
Qed.

(** At a line feed: the line behind it goes when it begins like a link. *)
Lemma scan_links_lf (p : option char) (r : str) :
  scan links_step p (LF :: r) 0
  = if is_link_line r then scan links_step None (after_line r) 0
    else LF :: line r ++ scan links_step None (after_line r) 0.
Proof.
  destruct (is_link_line r) eqn:E.
  - rewrite (line_after_line r) at 1.
    change (LF :: line r ++ after_line r)
      with ((LF :: line r) ++ after_line r).
    rewrite (@scan_jump links_step p (LF :: line r) (after_line r) []).
    + apply scan_prev. reflexivity.
    + discriminate.
    + unfold links_step. cbn [app]. rewrite <- line_after_line.
      cbn [ceqb]. rewrite N.eqb_refl, E. cbn [andb]. f_equal. f_equal.
      rewrite (line_after_line r) at 1.
      cbn [length]. rewrite !length_app. cbn [length]. lia.
  - rewrite scan_keep.
    + f_equal. apply scan_links_line.
    + unfold links_step. rewrite E, andb_false_r. reflexivity.
Qed.

Lemma after_line_shorter (s : str) (c : char) (r : str) :
  after_line s = c :: r -> length r < length s.
Proof.
  intros E. pose proof (drop_while_length not_lf s) as H.
  fold (after_line s) in H. rewrite E in H. cbn [length] in H. lia.
Qed.

(** From a line feed on: the lines that do not begin like a link are
    kept, each behind its line feed. *)
Lemma scan_links_tail (t : str) :
  (t = [] \/ exists r, t = LF :: r) ->
  scan links_step None t 0
  = flat_map (fun l => [LF] ++ l)
      (List.filter (fun l => negb (is_link_line l))
         match t with
         | [] => []
         | _ :: r => split [LF] r
         end).
Proof.
  remember (length t) as n eqn:Hn. revert t Hn.
  induction n as [n IH] using lt_wf_ind. intros t Hn [->|[r ->]];
    [reflexivity|].
  rewrite scan_links_lf, split_lines. cbn [List.filter].
  unfold is_link_line at 2. rewrite startswith_line by reflexivity.
  fold (is_link_line r).
  assert (Hrec : scan links_step None (after_line r) 0
                 = flat_map (fun l => [LF] ++ l)
                     (List.filter (fun l => negb (is_link_line l))
                        match after_line r with
                        | [] => []
                        | _ :: r' => split [LF] r'
                        end)).
  { apply (IH (length (after_line r))); [|reflexivity|].
    - pose proof (drop_while_length not_lf r) as H.
      fold (after_line r) in H. rewrite Hn. cbn [length]. lia.
    - destruct (after_line_shape r) as [E|[r' E]]; [left | right; exists r'];
        exact E. }
  destruct (is_link_line r); cbn [negb].
  - exact Hrec.
  - cbn [flat_map app]. rewrite Hrec. reflexivity.
Qed.

(** X11.  [remove_links] works line by line: the first line is kept as it
    is, and of the lines after it exactly those that begin with [http] are
    deleted, together with the line feed before them. *)
Theorem remove_links_lines (s : str) :
  remove_links s
  = match split [LF] s with
    | [] => []
    | first :: others =>
        join [LF]
             (first :: List.filter (fun l => negb (is_link_line l)) others)
    end.
Proof.
  rewrite remove_links_scan, split_lines, join_cons.
  rewrite (scan_links_line None None s). f_equal.
  apply scan_links_tail. apply after_line_shape.
Qed.

Lemma remove_links_split (s : str) :
  split [LF] (remove_links s)
  = line s :: List.filter (fun l => negb (is_link_line l))
                          match after_line s with
                          | [] => []
                          | _ :: r => split [LF] r
                          end.
Proof.
  rewrite remove_links_scan, (scan_links_line None None s).
  rewrite scan_links_tail by apply after_line_shape.
  rewrite <- join_cons. apply split_join.
  constructor; [apply line_lf_free|].
  apply incl_Forall with (l1 := match after_line s with
                                | [] => []
                                | _ :: r => split [LF] r
                                end).
  - intros x Hx. apply filter_In in Hx as [Hx _]. exact Hx.
  - destruct (after_line s) as [|c r]; [constructor | apply split_lf_free].
Qed.

Lemma filter_twice {A : Type} (f : A -> bool) (l : list A) :
  List.filter f (List.filter f l) = List.filter f l.
Proof.
  induction l as [|x l IH]; [reflexivity|].
  cbn [List.filter]. destruct (f x) eqn:E; [|exact IH].
  cbn [List.filter]. rewrite E, IH. reflexivity.
Qed.

(** X12.  After [remove_links] no line but the first begins with [http],
    so a second call changes nothing. *)
Theorem remove_links_leaves_no_link (s : str) :
  (forall l, In l (tl (split [LF] (remove_links s))) ->
             is_link_line l = false)
  /\ remove_links (remove_links s) = remove_links s.
Proof.
  split.
  - intros l Hl. rewrite remove_links_split in Hl. cbn [tl] in Hl.
    apply filter_In in Hl as [_ Hl]. apply negb_true_iff in Hl. exact Hl.
  - rewrite <- (join_split (remove_links (remove_links s))).
    rewrite <- (join_split (remove_links s)) at 2.
    f_equal. rewrite (remove_links_split (remove_links s)).
    pose proof (remove_links_split s) as H.
    rewrite split_lines in H. injection H as H1 H2.
    rewrite H1, H2, filter_twice.
    rewrite <- H1 at 1. rewrite <- H2.
    symmetry. apply split_lines.
Qed.

(* ================================================================== *)
(** * remove_extra_newlines: what is left of the line feeds *)
(* ================================================================== *)

Lemma remove_extra_newlines_before_header_witness :
  remove_extra_newlines (u "a" ++ repeat LF 4 ++ ch "[" :: u "Chorus]")
  = remove_extra_newlines (u "a") ++ [LF; LF]
    ++ remove_extra_newlines (ch "[" :: u "Chorus]").
Proof.
  apply remove_extra_newlines_before_header.
  - reflexivity.
  - reflexivity.
  - lia.
Defined.

(** A scan whose replacements are no longer than what they replace does
    not make a text longer. *)
Lemma scan_length (F : option char -> str -> option (str * nat)) :
  (forall p s out n, F p s = Some (out, n) ->
                     length out <= n /\ n <= length s) ->
  forall s p k, length (scan F p s k) <= length s - k.
Proof.
  intros HF. induction s as [|c s IH]; intros p k; [cbn; lia|].
  cbn [scan]. destruct k as [|k].
  - destruct (F p (c :: s)) as [[out [|n]]|] eqn:E.
    + cbn [length]. specialize (IH (Some c) 0). lia.
    + apply HF in E as [H1 H2]. rewrite length_app.
      specialize (IH (Some c) n). cbn [length] in *. lia.
    + cbn [length]. specialize (IH (Some c) 0). lia.
  - specialize (IH (Some c) k). cbn [length]. lia.
Qed.

Lemma blank_other (c : char) (s : str) :
  ceqb LF c = false ->
  blank_only_before_header (c :: s) = blank_only_before_header s.
Proof. intros H. cbn [blank_only_before_header]. rewrite H. reflexivity. Qed.

Lemma blank_squeezed_run (k : nat) (t y : str) :
  (t = [] /\ y = []
   \/ exists x t' y', t = x :: t' /\ y = x :: y' /\ ceqb LF x = false) ->
  blank_only_before_header y = true ->
  blank_only_before_header (squeezed_run k t ++ y) = true.
Proof.
  intros Ht Hy.
  assert (H1 : blank_only_before_header (LF :: y) = true).
  { cbn [blank_only_before_header]. rewrite ceqb_refl, Hy.
    destruct Ht as [[_ ->]|(x & t' & y' & _ & -> & Hx)]; [reflexivity|].
    rewrite Hx. reflexivity. }
  destruct k as [|[|k]]; [exact Hy | exact H1 |].
  unfold squeezed_run. destruct (startswith (u "[") t) eqn:E; [|exact H1].
  change ([LF; LF] ++ y) with (LF :: LF :: y).
  change (blank_only_before_header (LF :: LF :: y))
    with ((if ceqb LF LF then if ceqb LF LF then startswith (u "[") y
                              else true else true)
          && blank_only_before_header (LF :: y)).
  rewrite ceqb_refl, H1, andb_true_r.
  destruct Ht as [[-> _]|(x & t' & y' & -> & -> & _)]; [discriminate|].
  exact E.
Qed.

Lemma remove_extra_newlines_blank (s : str) :
  br_free s = true ->
  blank_only_before_header (remove_extra_newlines s) = true.
Proof.
  remember (length s) as n eqn:Hn. revert s Hn.
  induction n as [n IH] using lt_wf_ind. intros s Hn Hb.
  destruct (lf_span s) as (k & t & Hs & Ht).
  assert (Hbt : br_free t = true).
  { rewrite Hs in Hb. apply (br_free_app_r _ _ Hb). }
  assert (Hm : take_marker t = None).
  { apply br_free_no_marker; [exact Hbt|].
    destruct Ht as [->|(x & t' & -> & Hx)]; [left; reflexivity|].
    right. exists x, t'. split; [reflexivity | exact Hx]. }
  rewrite Hs, remove_extra_newlines_lf_run by exact Hm.
  destruct Ht as [->|(x & t' & -> & Hx)].
  - apply blank_squeezed_run; [left; split; reflexivity | reflexivity].
  - rewrite remove_extra_newlines_keep by
      (apply newline_end_none; exact Hm).
    apply blank_squeezed_run.
    + right. exists x, t', (remove_extra_newlines t').
      repeat split. exact Hx.
    + rewrite blank_other by exact Hx.
      apply (IH (length t')); [|reflexivity|].
      * rewrite Hn, Hs, length_app. simpl. lia.
      * apply (br_free_cons x). exact Hbt.
Qed.

Lemma blank_sound (x : str) :
  blank_only_before_header x = true ->
  forall a b, x = a ++ LF :: LF :: b -> startswith (u "[") b = true.
Proof.
  intros H a. revert x H. induction a as [|c a IH]; intros x H b ->.
  - cbn [app blank_only_before_header] in H. rewrite ceqb_refl in H.
    apply andb_true_iff in H as [H _]. exact H.
  - cbn [app] in H.
    change (blank_only_before_header (c :: a ++ LF :: LF :: b))
      with ((if ceqb LF c
             then match a ++ LF :: LF :: b with
                  | c' :: s'' =>
                      if ceqb LF c' then startswith (u "[") s'' else true
                  | [] => true
                  end
             else true)
            && blank_only_before_header (a ++ LF :: LF :: b)) in H.
    apply andb_true_iff in H as [_ H].
    apply (IH _ H b eq_refl).
Qed.

(** X13.  On text without break markup [remove_extra_newlines] leaves no
    blank line but before an opening bracket: wherever two line feeds
    stand in a row in the result, an opening bracket follows them (so no
    three line feeds are left in a row). *)
Theorem remove_extra_newlines_leaves_no_blank_line (s a b : str) :
  br_free s = true ->
  remove_extra_newlines s = a ++ LF :: LF :: b ->
  startswith (u "[") b = true.
Proof.
  intros Hb H.
  apply (blank_sound (remove_extra_newlines s)
                     (remove_extra_newlines_blank s Hb) a b H).
Qed.

Lemma remove_extra_newlines_leaves_no_blank_line_witness :
  remove_extra_newlines (u "a" ++ repeat LF 5 ++ u "[B]")
  = u "a" ++ LF :: LF :: u "[B]"
  /\ startswith (u "[") (u "[B]") = true.
Proof.
  split; [vm_compute; reflexivity|].
  apply (remove_extra_newlines_leaves_no_blank_line
           (u "a" ++ repeat LF 5 ++ u "[B]") (u "a") (u "[B]")).
  - reflexivity.
  - vm_compute. reflexivity.
Defined.

Lemma squeeze_filter (v w : str) :
  squeeze v w -> List.filter not_lf v = List.filter not_lf w.
Proof.
  induction 1 as [|c v w H IH|v w H IH].
  - reflexivity.
  - cbn [List.filter]. rewrite IH. reflexivity.
  - exact IH.
Qed.

(** X14.  On text without break markup [remove_extra_newlines] deletes
    line feeds and nothing else (every other character stays, in order),
    and a second call changes nothing. *)
Theorem remove_extra_newlines_only_line_feeds (s : str) :
  br_free s = true ->
  List.filter not_lf (remove_extra_newlines s) = List.filter not_lf s
  /\ remove_extra_newlines (remove_extra_newlines s)
     = remove_extra_newlines s.
Proof.
  intros Hb. split.
  - apply squeeze_filter. apply remove_extra_newlines_squeeze. exact Hb.
  - apply remove_extra_newlines_idempotent. exact Hb.
Qed.

Lemma remove_extra_newlines_only_line_feeds_witness :
  List.filter not_lf (remove_extra_newlines (u "a" ++ [LF; LF; LF] ++ u "b"))
  = List.filter not_lf (u "a" ++ [LF; LF; LF] ++ u "b")
  /\ remove_extra_newlines
       (remove_extra_newlines (u "a" ++ [LF; LF; LF] ++ u "b"))
     = remove_extra_newlines (u "a" ++ [LF; LF; LF] ++ u "b").
Proof.
  apply remove_extra_newlines_only_line_feeds. reflexivity.
Defined.

(* ================================================================== *)
(** * format_language: what it leaves alone *)
(* ================================================================== *)

Lemma strip_step_length (prot : str -> option str) (anchored : bool)
      (Q : char -> bool) (p : option char) (s out : str) (n : nat) :
  strip_step prot anchored Q p s = Some (out, n) ->
  length out <= n /\ n <= length s.
Proof.
  unfold strip_step. destruct (prot s) as [t|].
  - intros H. injection H as <- <-. split; [apply firstn_le_length | lia].
  - destruct ((negb anchored || bol p) && existsb Q (line s));
      [|discriminate].
    intros H. injection H as <- <-. cbn [length]. lia.
Qed.

Lemma strip_scan_length (prot : str -> option str) (anchored : bool)
      (Q : char -> bool) (s : str) :
  length (strip_scan prot anchored Q None s) <= length s.
Proof.
  unfold strip_scan. rewrite <- (Nat.sub_0_r (length s)).
  apply scan_length. apply strip_step_length.
Qed.

(** [remove_extra_newlines] never makes a text longer. *)
Lemma newline_scan_length (s : str) :
  length (remove_extra_newlines s) <= length s.
Proof.
  rewrite remove_extra_newlines_scan.
  rewrite <- (Nat.sub_0_r (length s)). apply scan_length.
  intros p x out n E. unfold newline_step in E.
  destruct (newline_end x) as [t|] eqn:Et; [|discriminate].
  injection E as <- <-. apply newline_end_shorter in Et.
  cbn [length]. lia.
Qed.

Lemma string_formatter_length (lyrics_language s : str) :
  length (string_formatter lyrics_language s) <= length s.
Proof.
  unfold string_formatter.
  destruct (Str.eqb lyrics_language (u "English")).
  - rewrite sub_remove_non_english.
    etransitivity; [apply newline_scan_length | apply strip_scan_length].
  - destruct (Str.eqb lyrics_language (u "Non-English")).
    + rewrite sub_remove_english.
      etransitivity; [apply newline_scan_length | apply strip_scan_length].
    + apply newline_scan_length.
Qed.

Lemma format_node_length (lyrics_language : str) (n : node) :
  length (text_of (format_node lyrics_language n)) <= length (text_of n).
Proof.
  induction n as [s|s|nm attrs kids IH] using node_forall_ind.
  - cbn [format_node]. destruct (not_blank s); [|lia].
    apply string_formatter_length.
  - cbn. lia.
  - cbn [format_node text_of]. induction IH as [|k kids Hk _ IHk].
    + cbn. lia.
    + cbn [List.map flat_map]. rewrite !length_app. lia.
Qed.

Lemma format_node_shape (lyrics_language : str) (n : node) :
  shape (format_node lyrics_language n) = shape n.
Proof.
  induction n as [s|s|nm attrs kids IH] using node_forall_ind.
  - cbn [format_node]. destruct (not_blank s); reflexivity.
  - reflexivity.
  - cbn [format_node shape]. f_equal.
    induction IH as [|k kids Hk _ IHk]; [reflexivity|].
    cbn [List.map]. rewrite Hk, IHk. reflexivity.
Qed.

(** X15.  On a document made of tags, strings of class
    [NavigableString] and comments, [format_language] changes the text of
    strings and nothing else: every tag, attribute and comment is where
    it was, as many strings stand at the same places, and the text of the
    document has not become longer.  (A doctype, a CDATA section, a
    declaration or a processing instruction, which the trees of [node] do
    not hold, would be turned into an ordinary string.) *)
Theorem format_language_keeps_markup
        (html_parser : str -> option (list node)) (kids : list node)
        (lyrics_language : str) :
  exists kids',
    format_language html_parser (VSoup kids) lyrics_language
    = Ok (VSoup kids')
    /\ List.map shape kids' = List.map shape kids
    /\ length (get_text kids') <= length (get_text kids).
Proof.
  exists (List.map (format_node lyrics_language) kids).
  split; [reflexivity|]. split.
  - induction kids as [|k kids IH]; [reflexivity|].
    cbn [List.map]. rewrite format_node_shape, IH. reflexivity.
  - unfold get_text. induction kids as [|k kids IH]; [cbn; lia|].
    cbn [List.map flat_map]. rewrite !length_app.
    pose proof (format_node_length lyrics_language k). lia.
Qed.

(* ================================================================== *)
(** * The language filters on plain text *)
(* ================================================================== *)

Lemma opener_free_protected (f : bool) (s : str) :
  opener_free s = true -> protected_end f s = None.
Proof.
  destruct s as [|c s]; [intros _; apply protected_end_nil|].
  unfold opener_free. cbn [forallb]. intros H.
  apply andb_true_iff in H as [H _]. apply negb_true_iff in H.
  apply orb_false_iff in H as [H H4]. apply orb_false_iff in H as [H H3].
  apply orb_false_iff in H as [H1 H2].
  rewrite protected_end_dispatch, H1, H2, H3, H4. reflexivity.
Qed.

Lemma opener_free_cons (c : char) (s : str) :
  opener_free (c :: s) = true -> opener_free s = true.
Proof.
  unfold opener_free. cbn [forallb]. intros H.
  apply andb_true_iff in H as [_ H]. exact H.
Qed.

Lemma opener_free_after_line (s : str) :
  opener_free s = true -> opener_free (after_line s) = true.
Proof.
  unfold after_line. induction s as [|c s IH]; intros H; [reflexivity|].
  cbn [drop_while]. destruct (not_lf c); [|exact H].
  apply IH. apply (opener_free_cons c). exact H.
Qed.

(** A line without a character of the class is passed as it is. *)
Lemma strip_scan_pass_line (f anchored : bool) (Q : char -> bool)
      (s : str) :
  opener_free s = true -> existsb Q (line s) = false ->
  forall p, exists p',
    strip_scan (protected_end f) anchored Q p s
    = line s ++ strip_scan (protected_end f) anchored Q p' (after_line s).
Proof.
  induction s as [|c s IH]; intros Ho Hq p.
  - exists p. reflexivity.
  - unfold line, after_line in *. cbn [take_while drop_while] in *.
    destruct (not_lf c) eqn:E.
    + cbn [existsb] in Hq. apply orb_false_iff in Hq as [Hc Hq].
      destruct (IH (opener_free_cons c s Ho) Hq (Some c)) as [p' Hp'].
      exists p'. rewrite strip_scan_keep.
      * cbn [app]. f_equal. exact Hp'.
      * apply opener_free_protected. exact Ho.
      * unfold line. cbn [take_while]. rewrite E. cbn [existsb].
        rewrite Hc, Hq. apply andb_false_r.
    + exists p. reflexivity.
Qed.

Lemma strip_scan_at_lf (f anchored : bool) (Q : char -> bool)
      (p : option char) (r : str) :
  strip_scan (protected_end f) anchored Q p (LF :: r)
  = LF :: strip_scan (protected_end f) anchored Q (Some LF) r.
Proof.
  apply strip_scan_keep.
  - rewrite protected_end_dispatch. reflexivity.
  - rewrite line_lf. apply andb_false_r.
Qed.

(** From the start of a line on, line by line. *)
Lemma strip_scan_plain_lines (f anchored : bool) (Q : char -> bool)
      (s : str) (p : option char) :
  opener_free s = true -> bol p = true ->
  strip_scan (protected_end f) anchored Q p s = blank_lines Q s.
Proof.
  remember (length s) as n eqn:Hn. revert s p Hn.
  induction n as [n IH] using lt_wf_ind. intros s p Hn Ho Hp.
  unfold blank_lines. rewrite split_lines. cbn [List.map].
  rewrite join_cons.
  assert (Hrest : forall p',
            strip_scan (protected_end f) anchored Q p' (after_line s)
            = flat_map (fun x => [LF] ++ x)
                (List.map (fun l => if existsb Q l then [] else l)
                          match after_line s with
                          | [] => []
                          | _ :: r => split [LF] r
                          end)).
  { intros p'. destruct (after_line_shape s) as [E|[r E]].
    - rewrite E. reflexivity.
    - pose proof (opener_free_after_line s Ho) as Hr.
      rewrite E in *. rewrite strip_scan_at_lf.
      rewrite (IH (length r)) with (p := Some LF).
      + unfold blank_lines. rewrite (split_lines r).
        cbn [List.map flat_map app]. rewrite join_cons. reflexivity.
      + rewrite Hn. apply (after_line_shorter s LF r E).
      + reflexivity.
      + apply (opener_free_cons LF). exact Hr.
      + reflexivity. }
  destruct (existsb Q (line s)) eqn:Eq.
  - rewrite strip_scan_drop.
    + cbn [app]. apply Hrest.
    + apply opener_free_protected. exact Ho.
    + rewrite Hp, Eq, orb_true_r. reflexivity.
  - destruct (strip_scan_pass_line f anchored Q s Ho Eq p) as [p' ->].
    f_equal. apply Hrest.
Qed.

(** X16.  On text in which no protected span can begin (no opening
    bracket, backslash, exclamation mark or opening angle bracket) the
    language filters work line by line: for English every line that holds
    a non-ASCII character is emptied, for Non-English every line that
    holds an ASCII letter, for any other preference no line; the line
    feeds stay, and [remove_extra_newlines] then runs over the result. *)
Theorem string_formatter_plain_lines (lyrics_language s : str) :
  opener_free s = true ->
  string_formatter lyrics_language s
  = remove_extra_newlines
      (if Str.eqb lyrics_language (u "English")
       then blank_lines non_ascii s
       else if Str.eqb lyrics_language (u "Non-English")
            then blank_lines ascii_letter s
            else s).
Proof.
  intros Ho. unfold string_formatter.
  destruct (Str.eqb lyrics_language (u "English")).
  - rewrite sub_remove_non_english.
    rewrite (strip_scan_plain_lines false false non_ascii s None Ho eq_refl).
    reflexivity.
  - destruct (Str.eqb lyrics_language (u "Non-English")); [|reflexivity].
    rewrite sub_remove_english.
    rewrite (strip_scan_plain_lines true true ascii_letter s None Ho
                                    eq_refl).
    reflexivity.
Qed.

Lemma string_formatter_plain_lines_witness :
  opener_free (u "Hello" ++ [LF] ++ salam ++ [LF] ++ u "world") = true
  /\ string_formatter (u "English")
                      (u "Hello" ++ [LF] ++ salam ++ [LF] ++ u "world")
     = remove_extra_newlines
         (blank_lines non_ascii
                      (u "Hello" ++ [LF] ++ salam ++ [LF] ++ u "world")).
Proof.
  split; [reflexivity|].
  apply (string_formatter_plain_lines
           (u "English") (u "Hello" ++ [LF] ++ salam ++ [LF] ++ u "world")).
  reflexivity.
Defined.
(* ================================================================== *)
(** * format_annotations: when it raises *)
(* ================================================================== *)

Lemma lookup_In (k : str) (d : list (str * str)) (v : str) :
  lookup k d = Some v -> exists k', In (k', v) d.
Proof.
  induction d as [|[k' v'] d IH]; [discriminate|].
  cbn [lookup]. destruct (Str.eqb k' k).
  - intros H. injection H as ->. exists k'. left. reflexivity.
  - intros H. destruct (IH H) as [k'' Hk]. exists k''. right. exact Hk.
Qed.

Section InlinerErrors.

Variable html_parser : str -> option (list node).
Variable walk_changed_tree : list node -> result (list node).
Variable annotations : list (str * str).
Variable identifiers : str * str.
Variable format_type : str.

(** Every annotation is accepted by html.parser and holds no tag that the
    clean-up loop takes out. *)
Hypothesis clean :
  forallb (fun kv => clean_body html_parser identifiers format_type (snd kv))
          annotations = true.

Let walk :=
  visit html_parser walk_changed_tree annotations identifiers format_type.
Let walk_all :=
  visit_all html_parser walk_changed_tree annotations identifiers format_type.

(** The references used so far are keys of [annotations]. *)
Let known (used : list str) : Prop :=
  forall id, In id used -> lookup id annotations <> None.

(** What a walk comes to: it ends well when every anchor is known, and
    raises [KeyError] otherwise. *)
Let settled {A : Type} (ok : bool) (r : result (A * list str)) : Prop :=
  match r with
  | Ok x => ok = true /\ known (snd x)
  | Raise e => ok = false /\ e = KeyError
  end.

Lemma visit_all_settled (l : list node) :
  Forall (fun n => forall used, known used ->
                                settled (anchors_known annotations n)
                                        (walk n used)) l ->
  forall used, known used ->
               settled (forallb (anchors_known annotations) l)
                       (walk_all l used).
Proof.
  induction 1 as [|n l Hn _ IH]; intros used Hu.
  - split; [reflexivity | exact Hu].
  - unfold walk_all. cbn [visit_all forallb]. fold walk. fold walk_all.
    specialize (Hn used Hu).
    destruct (walk n used) as [[l1 u1]|e]; cbn [settled snd] in Hn.
    + destruct Hn as [-> Hu1]. cbn [bind snd fst andb].
      specialize (IH u1 Hu1).
      destruct (walk_all l u1) as [[l2 u2]|e]; cbn [settled snd] in IH.
      * destruct IH as [-> Hu2]. split; [reflexivity | exact Hu2].
      * destruct IH as [-> ->]. split; reflexivity.
    + destruct Hn as [-> ->]. split; reflexivity.
Qed.

Lemma known_snoc (used : list str) (id body : str) :
  known used -> lookup id annotations = Some body -> known (used ++ [id]).
Proof.
  intros Hu Hb x Hx. apply in_app_or in Hx as [Hx|[<-|[]]].
  - apply Hu. exact Hx.
  - congruence.
Qed.

(** The annotation of a key is parsed and cleaned without an error. *)
Lemma annotation_made (id body : str) :
  lookup id annotations = Some body ->
  exists annotation,
    (a <- BeautifulSoup html_parser
            (annotation_content format_type identifiers body) ;;
     clean_up walk_changed_tree a) = Ok annotation.
Proof.
  intros H. apply lookup_In in H as [k Hk].
  pose proof clean as Hc. rewrite forallb_forall in Hc.
  specialize (Hc _ Hk). cbn [snd] in Hc. unfold clean_body in Hc.
  unfold BeautifulSoup, clean_up.
  destruct (html_parser (annotation_content format_type identifiers body))
    as [a|]; [|discriminate].
  cbn [bind]. rewrite Hc. eexists. reflexivity.
Qed.

Lemma visit_settled (n : node) :
  forall used, known used ->
               settled (anchors_known annotations n) (walk n used).
Proof.
  induction n as [s|s|nm attrs kids IH] using node_forall_ind;
    intros used Hu.
  - split; [reflexivity | exact Hu].
  - split; [reflexivity | exact Hu].
  - pose proof (visit_all_settled kids IH) as Hk.
    cbn [anchors_known].
    destruct (Str.eqb nm (u "a")) eqn:Ea.
    + apply str_eqb_eq in Ea. subst nm. unfold walk.
      rewrite visit_anchor. fold walk_all.
      destruct (lookup (u "href") attrs) as [annotation_id|];
        [|split; reflexivity].
      destruct (existsb (Str.eqb annotation_id) used) eqn:Eu.
      * apply existsb_exists in Eu as (x & Hx & Ex).
        apply str_eqb_eq in Ex. subst x.
        destruct (lookup annotation_id annotations) eqn:El;
          [|exfalso; apply (Hu annotation_id Hx); exact El].
        cbn [andb]. specialize (Hk used Hu).
        destruct (walk_all kids used) as [[l1 u1]|e]; exact Hk.
      * destruct (lookup annotation_id annotations) as [body|] eqn:El;
          [|split; reflexivity].
        cbn [andb].
        destruct (annotation_made annotation_id body El) as [ann Hann].
        destruct (BeautifulSoup html_parser
                    (annotation_content format_type identifiers body))
          as [a|e]; [|discriminate].
        cbn [bind] in Hann |- *. rewrite Hann. cbn [bind].
        specialize (Hk (used ++ [annotation_id])
                       (known_snoc used annotation_id body Hu El)).
        destruct (walk_all kids (used ++ [annotation_id])) as [[l1 u1]|e];
          exact Hk.
    + unfold walk. rewrite visit_plain_tag by exact Ea. fold walk_all.
      cbn [andb]. specialize (Hk used Hu).
      destruct (walk_all kids used) as [[l1 u1]|e]; exact Hk.
Qed.

Lemma walk_all_settled (l : list node) :
  settled (forallb (anchors_known annotations) l) (walk_all l []).
Proof.
  apply visit_all_settled.
  - apply Forall_forall. intros n _. apply visit_settled.
  - intros id [].
Qed.

End InlinerErrors.

(** X17.  With annotations to include, lyrics that html.parser accepts,
    and annotations that it accepts and that hold no [div], [script],
    [iframe] or [blockquote] tag, [format_annotations] returns a document
    exactly when every anchor of the parsed lyrics has an [href] that is
    a key of [annotations]; otherwise it raises [KeyError]. *)
Theorem format_annotations_key_error
        (html_parser : str -> option (list node))
        (walk_changed_tree : list node -> result (list node))
        (lyrics : str) (annotations : list (str * str))
        (identifiers : str * str) (format_type : str) (soup : list node) :
  annotations <> [] ->
  html_parser lyrics = Some soup ->
  forallb (fun kv => clean_body html_parser identifiers format_type (snd kv))
          annotations = true ->
  if forallb (anchors_known annotations) soup
  then exists doc,
         format_annotations html_parser walk_changed_tree lyrics annotations
                            true identifiers format_type = Ok doc
  else format_annotations html_parser walk_changed_tree lyrics annotations
                          true identifiers format_type = Raise KeyError.
Proof.
  intros Ha Hs Hc. unfold format_annotations, BeautifulSoup.
  rewrite Hs. cbn [bind].
  destruct annotations as [|a annotations'] eqn:Ea; [congruence|].
  cbn [length Nat.eqb negb andb]. rewrite <- Ea in *.
  pose proof (walk_all_settled html_parser walk_changed_tree annotations
                               identifiers format_type Hc soup) as H.
  destruct (visit_all html_parser walk_changed_tree annotations identifiers
                      format_type soup [])
    as [[doc used]|e]; cbn in H.
  - destruct H as [-> _]. exists doc. reflexivity.
  - destruct H as [-> ->]. reflexivity.
Qed.

Lemma format_annotations_key_error_witness :
  format_annotations two_anchors_parser (fun _ => Raise AttributeError)
                     two_anchors_markup [(u "2", u "note")] true
                     default_identifiers default_format_type
  = Raise KeyError.
Proof.
  apply (format_annotations_key_error
           two_anchors_parser (fun _ => Raise AttributeError)
           two_anchors_markup [(u "2", u "note")] default_identifiers
           default_format_type two_anchors).
  - discriminate.
  - reflexivity.
  - reflexivity.
Defined.

(* ================================================================== *)
(** * create_zip: the entries of the archive *)
(* ================================================================== *)

(** After [replace('\n', '\r\n')] every line feed stands behind a carriage
    return. *)
Lemma replace_crlf (s a b : str) :
  replace_char LF [13%N; LF] s = a ++ LF :: b -> exists a', a = a' ++ [13%N].
Proof.
  revert a; induction s as [|c s IH]; intros a H.
  - destruct a; discriminate.
  - unfold replace_char in H. cbn [flat_map] in H.
    fold (replace_char LF [13%N; LF] s) in H.
    destruct (ceqb c LF) eqn:E.
    + destruct a as [|x [|y a]]; cbn [app] in H.
      * discriminate.
      * injection H as Hx _. subst x. exists []. reflexivity.
      * injection H as Hx Hy H. subst x y. destruct (IH a H) as [a' ->].
        exists (13%N :: LF :: a'). reflexivity.
    + destruct a as [|x a]; cbn [app] in H.
      * injection H as H _. subst c. rewrite ceqb_refl in E. discriminate.
      * injection H as Hx H. subst x. destruct (IH a H) as [a' ->].
        exists (c :: a'). reflexivity.
Qed.







Section ZipAlbumEntries.

Variable lyrics_doc : Type.
Variable sf_format_title : str -> str -> str.
Variable sf_format_filename : str -> str.
Variable sf_format_annotations :
  str -> list (str * str) -> bool -> str * str -> lyrics_doc.
Variable sf_format_language : lyrics_doc -> str -> str.

Let entries :=
  write_songs sf_format_filename sf_format_annotations sf_format_language.

Lemma write_songs_content (ud : user_data) (l : list album_song) (i : nat)
      (entry : str * str) :
  In entry (entries ud i l) ->
  exists lyrics, snd entry = replace_char LF [13%N; LF] lyrics.
Proof.
  revert i; induction l as [|sg l IH]; intros i H; [destruct H|].
  unfold entries in H. cbn [write_songs] in H. fold entries in H.
  destruct H as [<-|H]; [|apply (IH (S i) H)].
  eexists. reflexivity.
Qed.


End ZipAlbumEntries.

(** X18.  In every entry written to the archive each line feed stands
    right behind a carriage return. *)
Theorem create_zip_line_endings
        (lyrics_doc : Type)
        (sf_format_title : str -> str -> str)
        (sf_format_filename : str -> str)
        (sf_format_annotations :
           str -> list (str * str) -> bool -> str * str -> lyrics_doc)
        (sf_format_language : lyrics_doc -> str -> str)
        (data : album) (ud : user_data) (name content a b : str) :
  In (name, content)
     (namelist (create_zip sf_format_title sf_format_filename
                           sf_format_annotations sf_format_language
                           data ud)) ->
  content = a ++ LF :: b ->
  exists a', a = a' ++ [13%N].
Proof.
  intros Hin Hc. unfold create_zip in Hin. cbn [namelist] in Hin.
  apply write_songs_content in Hin as [lyrics Hl]. cbn [snd] in Hl.
  apply (replace_crlf lyrics a b). rewrite <- Hl. exact Hc.
Qed.

Lemma create_zip_line_endings_witness :
  exists a', u "l" ++ [13%N] = a' ++ [13%N].
Proof.
  apply (create_zip_line_endings
           _ format_title format_filename
           (fun lyrics _ _ _ => lyrics) (fun lyrics _ => lyrics)
           {| album_title := u "Album"; album_artist := u "Artist";
              songs := [ {| song_title := u "Artist - Song";
                            song_lyrics := u "l" ++ [LF] ++ u "la";
                            song_annotations := [] |} ] |}
           plain_user
           (u "01 - Song.txt") (u "l" ++ [13%N; LF] ++ u "la")
           (u "l" ++ [13%N]) (u "la")).
  - left. vm_compute. reflexivity.
  - reflexivity.
Defined.


(* ================================================================== *)
(** * create_zip: the title of an entry *)
(* ================================================================== *)

Lemma lstrip_drop_while (s : str) : lstrip s = drop_while is_space s.
Proof.
  induction s as [|c s IH]; [reflexivity|].
  cbn [lstrip drop_while]. rewrite IH. reflexivity.
Qed.

(** White space, a hyphen, white space: where it ends. *)
Lemma ends_hyphen (t : str) :
  ends (Seq (Star true space) (Seq (c1 (ch "-")) (Star true space))) t
  = match drop_while is_space t with
    | c :: r => if ceqb (ch "-") c then class_tails is_space r else []
    | [] => []
    end.
Proof.
  rewrite ends_seq. unfold space. rewrite ends_star_class.
  rewrite flat_map_class_tails.
  - rewrite ends_seq, ends_c1.
    destruct (drop_while is_space t) as [|c r]; [reflexivity|].
    destruct (ceqb (ch "-") c); [|reflexivity].
    cbn [flat_map]. rewrite app_nil_r.
    apply ends_star_class.
  - intros c r Hc. rewrite ends_seq, ends_c1.
    destruct (ceqb (ch "-") c) eqn:E; [|reflexivity].
    apply ceqb_eq in E. subst c. discriminate.
Qed.

Lemma class_tails_length (P : char -> bool) (s t : str) :
  In t (class_tails P s) -> length t <= length s.
Proof.
  revert t; induction s as [|c s IH]; intros t H.
  - destruct H as [<-|[]]. lia.
  - cbn [class_tails] in H. destruct (P c).
    + apply in_app_or in H as [H|[<-|[]]]; [|lia].
      apply IH in H. cbn [length]. lia.
    + destruct H as [<-|[]]. lia.
Qed.

Lemma ends_hyphen_shorter (t t' : str) :
  In t' (ends (Seq (Star true space)
                   (Seq (c1 (ch "-")) (Star true space))) t) ->
  length t' < length t.
Proof.
  rewrite ends_hyphen. pose proof (drop_while_length is_space t) as H.
  destruct (drop_while is_space t) as [|c r]; [intros []|].
  destruct (ceqb (ch "-") c); [|intros []].
  intros Hin. apply class_tails_length in Hin. cbn [length] in H. lia.
Qed.

Lemma artist_prefix_shorter (s t : str) :
  In t (ends artist_prefix_re s) -> length t < length s.
Proof.
  unfold artist_prefix_re. rewrite ends_seq. intros H.
  apply in_flat_map in H as (x & Hx & Ht).
  unfold dot in Hx. rewrite ends_star_class in Hx.
  apply class_tails_length in Hx. apply ends_hyphen_shorter in Ht. lia.
Qed.

Lemma hd_error_In {A : Type} (l : list A) (x : A) :
  hd_error l = Some x -> In x l.
Proof. destruct l; [discriminate|]. intros H. injection H as ->. left. reflexivity. Qed.

Lemma artist_prefix_positive (p : option char) (s : str) (st : state) :
  first_match artist_prefix_re p s = Some st -> 0 < match_len s st.
Proof.
  intros H.
  pose proof (first_match_ends artist_prefix_re p s eq_refl) as E.
  rewrite H in E. cbn [option_map] in E. symmetry in E.
  apply hd_error_In, artist_prefix_shorter in E.
  unfold match_len. lia.
Qed.

Lemma hyphen_free_ends (t : str) :
  hyphen_free t = true ->
  ends (Seq (Star true space) (Seq (c1 (ch "-")) (Star true space))) t = [].
Proof.
  intros H. rewrite ends_hyphen.
  assert (Hd : hyphen_free (drop_while is_space t) = true).
  { clear -H. induction t as [|c t IH]; [reflexivity|].
    cbn [drop_while]. destruct (is_space c); [|exact H].
    apply IH. unfold hyphen_free in *. cbn [forallb] in H.
    apply andb_true_iff in H as [_ H]. exact H. }
  destruct (drop_while is_space t) as [|c r]; [reflexivity|].
  unfold hyphen_free in Hd. cbn [forallb] in Hd.
  apply andb_true_iff in Hd as [Hc _]. apply negb_true_iff in Hc.
  rewrite Hc. reflexivity.
Qed.

Lemma class_tails_hyphen_free (P : char -> bool) (s t : str) :
  hyphen_free s = true -> In t (class_tails P s) -> hyphen_free t = true.
Proof.
  revert t; induction s as [|c s IH]; intros t Hs H.
  - destruct H as [<-|[]]. reflexivity.
  - cbn [class_tails] in H.
    assert (Hs' : hyphen_free s = true).
    { unfold hyphen_free in *. cbn [forallb] in Hs.
      apply andb_true_iff in Hs as [_ Hs]. exact Hs. }
    destruct (P c).
    + apply in_app_or in H as [H|[<-|[]]]; [apply IH; assumption | exact Hs].
    + destruct H as [<-|[]]. exact Hs.
Qed.

Lemma flat_map_nil {A B : Type} (f : A -> list B) (l : list A) :
  (forall x, In x l -> f x = []) -> flat_map f l = [].
Proof.
  induction l as [|x l IH]; intros H; [reflexivity|].
  cbn [flat_map]. rewrite (H x) by (left; reflexivity).
  apply IH. intros y Hy. apply H. right. exact Hy.
Qed.

Lemma artist_prefix_none (t : str) :
  hyphen_free t = true -> ends artist_prefix_re t = [].
Proof.
  intros H. unfold artist_prefix_re. rewrite ends_seq.
  apply flat_map_nil. intros x Hx. unfold dot in Hx.
  rewrite ends_star_class in Hx.
  apply hyphen_free_ends. apply (class_tails_hyphen_free _ t x H Hx).
Qed.

(** The match at the head of a line: all of it up to the last hyphen,
    and the white space behind that hyphen. *)
Lemma artist_prefix_last_hyphen (a b : str) :
  lf_free a = true -> hyphen_free b = true ->
  hd_error (ends artist_prefix_re (a ++ ch "-" :: b)) = Some (lstrip b).
Proof.
  intros Ha Hb. unfold artist_prefix_re. rewrite ends_seq.
  unfold dot at 1. change (fun c0 : char => negb (ceqb c0 LF)) with not_lf.
  rewrite ends_star_class.
  set (g := ends (Seq (Star true space)
                      (Seq (c1 (ch "-")) (Star true space)))).
  assert (Hg : hd_error (g (ch "-" :: b)) = Some (lstrip b)).
  { unfold g. rewrite ends_hyphen. cbn [drop_while].
    change (is_space (ch "-")) with false. cbv iota.
    rewrite ceqb_refl. destruct (class_tails_hd is_space b) as [l ->].
    cbn [hd_error]. rewrite lstrip_drop_while. reflexivity. }
  induction a as [|x a IH].
  - cbn [app class_tails]. change (not_lf (ch "-")) with true. cbv iota.
    rewrite flat_map_app. cbn [flat_map]. rewrite app_nil_r.
    rewrite flat_map_nil.
    + exact Hg.
    + intros t Ht. apply hyphen_free_ends.
      apply (class_tails_hyphen_free _ b t Hb Ht).
  - unfold lf_free in Ha. cbn [forallb] in Ha.
    apply andb_true_iff in Ha as [Hx Ha].
    cbn [app class_tails]. rewrite Hx.
    rewrite flat_map_app, hd_error_app, (IH Ha). reflexivity.
Qed.

Lemma scan_no_match (F : option char -> str -> option (str * nat))
      (t : str) :
  (forall p x y, t = x ++ y -> F p y = None) ->
  forall p, scan F p t 0 = t.
Proof.
  induction t as [|c t IH]; intros H p; [reflexivity|].
  rewrite scan_keep by (apply (H p []); reflexivity).
  f_equal. apply IH. intros p' x y E. apply (H p' (c :: x)).
  rewrite E. reflexivity.
Qed.

Lemma hyphen_free_app_r (x y : str) :
  hyphen_free (x ++ y) = true -> hyphen_free y = true.
Proof.
  unfold hyphen_free. rewrite forallb_app. intros H.
  apply andb_true_iff in H as [_ H]. exact H.
Qed.

Lemma step_of_artist_prefix (p : option char) (s : str) :
  step_of artist_prefix_re [] p s
  = option_map (fun t => ([], length s - length t))
               (hd_error (ends artist_prefix_re s)).
Proof. apply step_of_ends; reflexivity. Qed.

Lemma sub_artist_prefix_none (t : str) :
  hyphen_free t = true -> sub artist_prefix_re [] t = t.
Proof.
  intros H. unfold sub.
  rewrite (@sub_from_scan artist_prefix_re [] artist_prefix_positive).
  apply scan_no_match. intros p x y E.
  rewrite step_of_artist_prefix, artist_prefix_none; [reflexivity|].
  apply (hyphen_free_app_r x). rewrite <- E. exact H.
Qed.

Lemma lstrip_suffix (s : str) : exists m, s = m ++ lstrip s.
Proof.
  induction s as [|c s [m IH]]; [exists []; reflexivity|].
  cbn [lstrip]. destruct (is_space c).
  - exists (c :: m). cbn [app]. f_equal. exact IH.
  - exists []. reflexivity.
Qed.

Lemma hyphen_free_lstrip (s : str) :
  hyphen_free s = true -> hyphen_free (lstrip s) = true.
Proof.
  destruct (lstrip_suffix s) as [m E]. intros H.
  apply (hyphen_free_app_r m). rewrite <- E. exact H.
Qed.

(** The first substitution of the title cleaning: what stands behind the
    last hyphen of the line, without the white space in front of it. *)
Lemma sub_artist_prefix (a b : str) :
  lf_free a = true -> hyphen_free b = true ->
  sub artist_prefix_re [] (a ++ ch "-" :: b) = lstrip b.
Proof.
  intros Ha Hb. unfold sub.
  rewrite (@sub_from_scan artist_prefix_re [] artist_prefix_positive).
  destruct (lstrip_suffix b) as [m Hm].
  assert (E : a ++ ch "-" :: b = (a ++ ch "-" :: m) ++ lstrip b).
  { rewrite <- app_assoc. cbn [app]. rewrite <- Hm. reflexivity. }
  rewrite E.
  rewrite (@scan_jump (step_of artist_prefix_re []) None
                      (a ++ ch "-" :: m) (lstrip b) []).
  - cbn [app]. apply scan_no_match. intros p x y Ey.
    rewrite step_of_artist_prefix, artist_prefix_none; [reflexivity|].
    apply (hyphen_free_app_r x). rewrite <- Ey.
    apply hyphen_free_lstrip. exact Hb.
  - destruct a; discriminate.
  - rewrite <- E, step_of_artist_prefix, artist_prefix_last_hyphen
      by assumption.
    cbn [option_map]. do 2 f_equal. rewrite E at 1.
    rewrite length_app. lia.
Qed.

Lemma ends_translation_suffix (t : str) :
  ascii_only t = true -> ends translation_suffix_re t = [].
Proof.
  intros H. unfold translation_suffix_re. rewrite ends_seq.
  unfold space. rewrite ends_chr.
  destruct t as [|c1 t]; [reflexivity|].
  destruct (is_space c1); [|reflexivity].
  cbn [flat_map]. rewrite app_nil_r, ends_seq, ends_chr.
  destruct t as [|c2 t]; [reflexivity|].
  destruct (ceqb c2 (ch "(") || ceqb c2 (ch "[")); [|reflexivity].
  cbn [flat_map]. rewrite app_nil_r. unfold plus.
  rewrite !ends_seq, ends_chr.
  destruct t as [|c3 t]; [reflexivity|].
  unfold ascii_only in H. cbn [forallb] in H.
  apply andb_true_iff in H as [_ H]. apply andb_true_iff in H as [_ H].
  apply andb_true_iff in H as [H _]. apply negb_true_iff in H.
  rewrite H. reflexivity.
Qed.

Lemma sub_from_no_match (r : re) (repl : list piece) (t : str) :
  (forall p x y, t = x ++ y -> first_match r p y = None) ->
  forall p, sub_from r repl p t 0 = t.
Proof.
  induction t as [|c t IH]; intros H p.
  - cbn [sub_from]. rewrite (H p [] []); reflexivity.
  - cbn [sub_from]. rewrite (H p [] (c :: t)) by reflexivity.
    f_equal. apply IH. intros p' x y E. apply (H p' (c :: x)).
    rewrite E. reflexivity.
Qed.

Lemma ascii_only_app_r (x y : str) :
  ascii_only (x ++ y) = true -> ascii_only y = true.
Proof.
  unfold ascii_only. rewrite forallb_app. intros H.
  apply andb_true_iff in H as [_ H]. exact H.
Qed.

(** The second substitution finds nothing in ASCII text. *)
Lemma sub_translation_suffix (t : str) :
  ascii_only t = true -> sub translation_suffix_re [] t = t.
Proof.
  intros H. apply sub_from_no_match. intros p x y E.
  pose proof (first_match_ends translation_suffix_re p y eq_refl) as Hm.
  rewrite ends_translation_suffix in Hm
    by (apply (ascii_only_app_r x); rewrite <- E; exact H).
  destruct (first_match translation_suffix_re p y); [discriminate|].
  reflexivity.
Qed.

Lemma ascii_only_lstrip (s : str) :
  ascii_only s = true -> ascii_only (lstrip s) = true.
Proof.
  destruct (lstrip_suffix s) as [m E]. intros H.
  apply (ascii_only_app_r m). rewrite <- E. exact H.
Qed.

(** X20.  The title of an entry is taken from what stands behind the
    last hyphen of the song title: for a title that is some text without
    a line feed, a hyphen, and ASCII text [b] without a hyphen, the
    helper [format_filename] is given [b] without its leading white
    space; a title without a hyphen is given to it whole. *)
Theorem entry_title_after_last_hyphen
        (sf_format_filename : str -> str) (a b : str) :
  lf_free a = true -> hyphen_free b = true -> ascii_only b = true ->
  entry_title sf_format_filename (a ++ ch "-" :: b)
  = sf_format_filename (lstrip b)
  /\ entry_title sf_format_filename b = sf_format_filename b.
Proof.
  intros Ha Hb Hc. unfold entry_title. split.
  - rewrite sub_artist_prefix by assumption.
    rewrite sub_translation_suffix by (apply ascii_only_lstrip; exact Hc).
    reflexivity.
  - rewrite sub_artist_prefix_none by exact Hb.
    rewrite sub_translation_suffix by exact Hc. reflexivity.
Qed.

Lemma entry_title_after_last_hyphen_witness :
  entry_title format_filename (u "Artist - Song" ++ ch "-" :: u " Remix")
  = format_filename (lstrip (u " Remix"))
  /\ entry_title format_filename (u " Remix") = format_filename (u " Remix").
Proof.
  apply (entry_title_after_last_hyphen format_filename
           (u "Artist - Song") (u " Remix")); reflexivity.
Defined.
(* ================================================================== *)
(** * create_zip: the names of the entries *)
(* ================================================================== *)


(** [ZipInfo] keeps a name without a null character; otherwise the name
    ends where the first part that holds one is cut. *)
Lemma zip_name_app (a b : str) :
  zip_name (a ++ b) = if null_free a then a ++ zip_name b else zip_name a.
Proof.
  induction a as [|c a IH]; [reflexivity|].
  cbn [app zip_name null_free forallb]. fold (null_free a).
  destruct (c =? 0)%N; [reflexivity|].
  cbn [negb andb]. rewrite IH. destruct (null_free a); reflexivity.
Qed.

Lemma zip_name_null_free (s : str) : null_free s = true -> zip_name s = s.
Proof.
  intros H. rewrite <- (app_nil_r s) at 1. rewrite zip_name_app, H.
  apply app_nil_r.
Qed.






(* ================================================================== *)
(** * get_description *)
(* ================================================================== *)

Lemma lstrip_head (s : str) (c : char) (t : str) :
  lstrip s = c :: t -> is_space c = false.
Proof.
  induction s as [|x s IH]; [discriminate|].
  cbn [lstrip]. destruct (is_space x) eqn:E; [exact IH|].
  intros H. injection H as <- _. exact E.
Qed.

(** What [strip] returns neither begins nor ends with white space. *)
Lemma strip_trimmed (s : str) :
  (forall c t, strip s = c :: t -> is_space c = false)
  /\ (forall t c, strip s = t ++ [c] -> is_space c = false).
Proof.
  unfold strip. set (y := lstrip s). set (z := lstrip (rev y)). split.
  - intros c t H.
    destruct (lstrip_suffix (rev y)) as [w Hw]. fold z in Hw.
    apply (f_equal (@rev char)) in Hw.
    rewrite rev_involutive, rev_app_distr, H in Hw.
    apply (lstrip_head s c (t ++ rev w)). exact Hw.
  - intros t c H. apply (f_equal (@rev char)) in H.
    rewrite rev_involutive, rev_app_distr in H. cbn [rev app] in H.
    apply (lstrip_head (rev y) c (rev t)). exact H.
Qed.

(** X21.  Whatever the entity holds, a description that
    [get_description] returns neither begins nor ends with white space. *)
Theorem get_description_trimmed (entity : list (str * value)) (s : str) :
  get_description entity = Returns s ->
  (forall c t, s = c :: t -> is_space c = false)
  /\ (forall t c, s = t ++ [c] -> is_space c = false).
Proof.
  assert (Hnil : (forall (c : char) t, @nil char = c :: t -> is_space c = false)
                 /\ (forall t (c : char), @nil char = t ++ [c]
                                          -> is_space c = false)).
  { split; [discriminate|]. intros [|x t] c H; discriminate. }
  unfold get_description.
  destruct (dict_get (u "description_annotation") entity) as [da|];
    [|intros H; injection H as <-; exact Hnil].
  destruct (negb (truthy da)); [intros H; injection H as <-; exact Hnil|].
  destruct (item da (u "annotations")) as [l|e]; [|discriminate].
  cbn [and_then].
  destruct (first_item l) as [first|e]; [|discriminate].
  cbn [and_then].
  destruct (item first (u "body")) as [body|e]; [|discriminate].
  cbn [and_then].
  destruct (item body (u "plain")) as [description|e]; [|discriminate].
  cbn [and_then].
  destruct (negb (truthy description));
    [intros H; injection H as <-; exact Hnil|].
  destruct description as [|b|z|d|l'|d']; try discriminate.
  intros H. injection H as <-. apply strip_trimmed.
Qed.

Lemma get_description_trimmed_witness :
  (forall c t, u "About" = c :: t -> is_space c = false)
  /\ (forall t c, u "About" = t ++ [c] -> is_space c = false).
Proof.
  apply (get_description_trimmed
           (entity_with [annotation_with (JStr (u "  About" ++ [LF; LF]))])
           (u "About")).
  vm_compute. reflexivity.
Defined.

(** X22.  Missing data, for every entity whose description annotation
    is a dict that is not empty, whatever else the dicts hold: without
    the key ["annotations"] the call raises [KeyError]; with an empty list
    of annotations it raises [IndexError]; when the first annotation is a
    dict without the key ["body"], or its body a dict without the key
    ["plain"], it raises [KeyError]; and when the plain text counts as
    false ([None], the empty string) the description is empty. *)
Theorem get_description_missing_data
        (entity d a b : list (str * value)) (rest : list value)
        (plain : value) :
  dict_get (u "description_annotation") entity = Some (JDict d) ->
  d <> [] ->
  (dict_get (u "annotations") d = None ->
   get_description entity = Raises (Builtin KeyError))
  /\ (dict_get (u "annotations") d = Some (JList []) ->
      get_description entity = Raises IndexError)
  /\ (dict_get (u "annotations") d = Some (JList (JDict a :: rest)) ->
      (dict_get (u "body") a = None ->
       get_description entity = Raises (Builtin KeyError))
      /\ (dict_get (u "body") a = Some (JDict b) ->
          (dict_get (u "plain") b = None ->
           get_description entity = Raises (Builtin KeyError))
          /\ (dict_get (u "plain") b = Some plain ->
              truthy plain = false ->
              get_description entity = Returns []))).
Proof.
  intros He Hd. unfold get_description. rewrite He.
  replace (negb (truthy (JDict d))) with false
    by (destruct d; [congruence | reflexivity]).
  cbn [item]. split; [|split].
  - intros ->. reflexivity.
  - intros ->. reflexivity.
  - intros ->. cbn [and_then first_item item]. split.
    + intros ->. reflexivity.
    + intros ->. cbn [and_then item]. split.
      * intros ->. reflexivity.
      * intros -> Hp. cbn [and_then]. rewrite Hp. reflexivity.
Qed.

Lemma get_description_missing_data_witness :
  get_description empty_plain_entity = Returns [].
Proof.
  exact (proj2 (proj2 (proj2 (proj2
           (get_description_missing_data
              empty_plain_entity empty_plain_description
              empty_plain_annotation empty_plain_body [] (JStr [])
              eq_refl ltac:(discriminate)))
           eq_refl) eq_refl) eq_refl eq_refl).
Defined.

(* ================================================================== *)
(** * fix_section_headers *)
(* ================================================================== *)

(** [sub_with] on the matcher of a pattern is [sub_from]. *)
Lemma sub_with_run (r : re) (repl : list piece) (s : str) :
  forall p k, sub_with (run r) repl p s k = sub_from r repl p s k.
Proof.
  induction s as [|c s IH]; intros p k; [reflexivity|].
  cbn [sub_with sub_from]. unfold first_match, first_nonempty.
  destruct k as [|k]; [|apply IH].
  destruct (hd_error (run r (mk p (c :: s) []))) as [st|];
    [|rewrite IH; reflexivity].
  destruct (match_len (c :: s) st); [|rewrite IH; reflexivity].
  destruct (List.find _ _); rewrite IH; reflexivity.
Qed.

(** [sub_with] is a scan, for a matcher whose matches are never empty. *)
Lemma sub_with_scan (m : state -> list state) (repl : list piece) :
  (forall p s st, hd_error (m (mk p s [])) = Some st -> 0 < match_len s st) ->
  forall s p k,
    sub_with m repl p s k
    = scan (fun p s => match hd_error (m (mk p s [])) with
                       | Some st => Some (expand repl st, match_len s st)
                       | None => None
                       end) p s k.
Proof.
  intros Hne. induction s as [|c s IH]; intros p k.
  - cbn [sub_with scan]. destruct (hd_error (m (mk p [] []))) as [st|] eqn:E;
      [|reflexivity].
    apply Hne in E. unfold match_len in E. simpl in E. lia.
  - cbn [sub_with scan]. destruct k as [|k]; [|apply IH].
    destruct (hd_error (m (mk p (c :: s) []))) as [st|] eqn:E.
    + pose proof (Hne _ _ _ E) as Hpos.
      destruct (match_len (c :: s) st) as [|n]; [lia|].
      rewrite IH. reflexivity.
    + rewrite IH. reflexivity.
Qed.

Lemma run_fix (p : option char) (s : str) :
  runx FIX_SECTION_HEADERS (mk p s [])
  = if startswith [LF; ch "["] s && negb (after_lf p)
    then [mk (Some (ch "[")) (skipn 2 s) []]
    else [].
Proof.
  unfold FIX_SECTION_HEADERS. cbn [runx prev].
  assert (H : run (lit [LF; ch "["]) (mk p s [])
              = if startswith [LF; ch "["] s
                then [mk (Some (ch "[")) (skipn 2 s) []] else []).
  { cbn [lit c1 run rest caps]. destruct s as [|x s]; [reflexivity|].
    cbn [startswith]. destruct (ceqb LF x); [|reflexivity].
    cbn [flat_map run rest caps]. rewrite app_nil_r.
    destruct s as [|y s]; [reflexivity|].
    cbn [startswith andb skipn]. destruct (ceqb (ch "[") y) eqn:E;
      [|reflexivity].
    apply ceqb_eq in E. subst y. reflexivity. }
  destruct p as [c|]; cbn [after_lf].
  - destruct (ceqb LF c); cbn [flat_map negb].
    + rewrite andb_false_r. reflexivity.
    + rewrite app_nil_r, andb_true_r. exact H.
  - cbn [flat_map negb]. rewrite app_nil_r, andb_true_r. exact H.
Qed.

(** [fix_section_headers] as a scan with the pattern read directly. *)
Lemma fix_section_headers_scan (s : str) :
  fix_section_headers s = scan fix_step None s 0.
Proof.
  unfold fix_section_headers, subx. rewrite sub_with_scan.
  - apply scan_ext. intros p x. rewrite run_fix. unfold fix_step.
    destruct (startswith [LF; ch "["] x) eqn:E; [|reflexivity].
    destruct (negb _); [|reflexivity].
    cbn [andb hd_error expand flat_map app]. unfold match_len. cbn [rest].
    apply startswith_app in E as [t ->]. do 2 f_equal.
    change (skipn 2 ([LF; ch "["] ++ t)) with t.
    change (length ([LF; ch "["] ++ t)) with (S (S (length t))). lia.
  - intros p x st. rewrite run_fix.
    destruct (startswith [LF; ch "["] x) eqn:E; [|discriminate].
    destruct (negb _); [|discriminate].
    cbn [andb hd_error]. intros H. injection H as <-.
    unfold match_len. cbn [rest].
    apply startswith_app in E as [t ->].
    cbn [app skipn length]. lia.
Qed.


Lemma fix_step_some (p : option char) (s out : str) (n : nat) :
  fix_step p s = Some (out, n) ->
  exists t, s = LF :: ch "[" :: t /\ after_lf p = false
            /\ out = [LF; LF; ch "["] /\ n = 2.
Proof.
  unfold fix_step. destruct (startswith [LF; ch "["] s) eqn:E;
    [|discriminate].
  destruct (after_lf p); [discriminate|].
  cbn [negb andb]. intros H. injection H as <- <-.
  apply startswith_app in E as [t ->]. exists t. repeat split.
Qed.

Lemma fix_step_none (p : option char) (c : char) (s : str) :
  fix_step p (c :: s) = None ->
  ceqb LF c && startswith (u "[") s = true -> after_lf p = true.
Proof.
  unfold fix_step.
  change (startswith [LF; ch "["] (c :: s))
    with (ceqb LF c && startswith (u "[") s).
  intros H E. rewrite E in H. destruct (after_lf p); [reflexivity|].
  discriminate.
Qed.

Lemma scan_fix_match (p : option char) (t : str) :
  after_lf p = false ->
  scan fix_step p (LF :: ch "[" :: t) 0
  = LF :: LF :: ch "[" :: scan fix_step (Some (ch "[")) t 0.
Proof.
  intros H. cbn [scan]. unfold fix_step at 1.
  rewrite H. reflexivity.
Qed.

Lemma scan_fix_head (p : option char) (s : str) :
  startswith (u "[") (scan fix_step p s 0) = startswith (u "[") s.
Proof.
  destruct s as [|c s]; [reflexivity|].
  destruct (fix_step p (c :: s)) as [[out n]|] eqn:E.
  - apply fix_step_some in E as (t & Hs & Hp & _). injection Hs as -> ->.
    rewrite scan_fix_match by exact Hp. reflexivity.
  - rewrite scan_keep by exact E. reflexivity.
Qed.

(** After [fix_section_headers] every line feed before an opening bracket
    stands behind a line feed. *)
Lemma scan_fix_spaced (s : str) :
  forall p, spaced (after_lf p) (scan fix_step p s 0) = true.
Proof.
  remember (length s) as n eqn:Hn. revert s Hn.
  induction n as [n IH] using lt_wf_ind. intros s Hn p.
  destruct s as [|c s]; [reflexivity|].
  destruct (fix_step p (c :: s)) as [[out k]|] eqn:E.
  - apply fix_step_some in E as (t & Hs & Hp & _). injection Hs as -> ->.
    rewrite scan_fix_match by exact Hp.
    change (spaced (after_lf p)
                   (LF :: LF :: ch "[" :: scan fix_step (Some (ch "[")) t 0))
      with (spaced (after_lf (Some (ch "[")))
                   (scan fix_step (Some (ch "[")) t 0)).
    apply (IH (length t)); [|reflexivity].
    rewrite Hn. cbn [length]. lia.
  - rewrite scan_keep by exact E. cbn [spaced].
    rewrite scan_fix_head.
    change (ceqb LF c) with (after_lf (Some c)) at 2.
    rewrite (IH (length s)) by (rewrite ?Hn; cbn [length]; lia || reflexivity).
    rewrite andb_true_r.
    destruct (ceqb LF c && startswith (u "[") s) eqn:E2; [|reflexivity].
    apply (fix_step_none p c s E E2).
Qed.

(** Text that is spaced already is left as it is. *)
Lemma scan_fix_fixed (t : str) :
  forall p, spaced (after_lf p) t = true -> scan fix_step p t 0 = t.
Proof.
  induction t as [|c t IH]; intros p H; [reflexivity|].
  cbn [spaced] in H. apply andb_true_iff in H as [H1 H2].
  rewrite scan_keep.
  - f_equal. apply IH. exact H2.
  - unfold fix_step.
    change (startswith [LF; ch "["] (c :: t))
      with (ceqb LF c && startswith (u "[") t).
    destruct (ceqb LF c && startswith (u "[") t); [|reflexivity].
    rewrite H1. reflexivity.
Qed.

Lemma spaced_sound (x : str) :
  forall behind a b,
    spaced behind x = true -> x = a ++ LF :: ch "[" :: b ->
    a = [] /\ behind = true \/ exists a', a = a' ++ [LF].
Proof.
  intros behind a. revert x behind.
  induction a as [|c a IH]; intros x behind b H ->.
  - left. split; [reflexivity|].
    cbn [app spaced] in H. apply andb_true_iff in H as [H _]. exact H.
  - right. cbn [app spaced] in H. apply andb_true_iff in H as [_ H].
    destruct (IH _ _ b H eq_refl) as [[-> Hc]|[a' ->]].
    + apply ceqb_eq in Hc. subst c. exists []. reflexivity.
    + exists (c :: a'). reflexivity.
Qed.

Lemma scan_fix_filter (s : str) :
  forall p, List.filter not_lf (scan fix_step p s 0) = List.filter not_lf s.
Proof.
  remember (length s) as n eqn:Hn. revert s Hn.
  induction n as [n IH] using lt_wf_ind. intros s Hn p.
  destruct s as [|c s]; [reflexivity|].
  destruct (fix_step p (c :: s)) as [[out k]|] eqn:E.
  - apply fix_step_some in E as (t & Hs & Hp & _). injection Hs as -> ->.
    rewrite scan_fix_match by exact Hp.
    change (List.filter not_lf
              (LF :: LF :: ch "[" :: scan fix_step (Some (ch "[")) t 0))
      with (ch "[" :: List.filter not_lf
                        (scan fix_step (Some (ch "[")) t 0)).
    rewrite (IH (length t)) by (rewrite ?Hn; cbn [length]; lia || reflexivity).
    reflexivity.
  - rewrite scan_keep by exact E. cbn [List.filter].
    rewrite (IH (length s)) by (rewrite ?Hn; cbn [length]; lia || reflexivity).
    reflexivity.
Qed.

(** X23.  After [fix_section_headers] every section header that begins
    a line has a blank line before it: wherever a line feed stands before
    an opening bracket in the result, another line feed stands before
    that line feed, also at the very beginning of the text. *)
Theorem fix_section_headers_spaces_headers (s a b : str) :
  fix_section_headers s = a ++ LF :: ch "[" :: b ->
  exists a', a = a' ++ [LF].
Proof.
  intros H.
  pose proof (scan_fix_spaced s None) as Hs.
  rewrite <- fix_section_headers_scan in Hs.
  destruct (spaced_sound _ _ a b Hs H) as [[_ Hf]|Ha];
    [discriminate | exact Ha].
Qed.

Lemma fix_section_headers_spaces_headers_witness :
  exists a', u "la" ++ [LF] = a' ++ [LF].
Proof.
  apply (fix_section_headers_spaces_headers
           (u "la" ++ [LF] ++ u "[Chorus]") (u "la" ++ [LF]) (u "Chorus]")).
  vm_compute. reflexivity.
Defined.

(** X24.  [fix_section_headers] adds line feeds and nothing else, and a
    second call changes nothing. *)
Theorem fix_section_headers_idempotent (s : str) :
  List.filter not_lf (fix_section_headers s) = List.filter not_lf s
  /\ fix_section_headers (fix_section_headers s) = fix_section_headers s.
Proof.
  split.
  - rewrite fix_section_headers_scan. apply scan_fix_filter.
  - rewrite (fix_section_headers_scan (fix_section_headers s)).
    apply scan_fix_fixed. rewrite fix_section_headers_scan.
    apply (scan_fix_spaced s None).
Qed.

(* ================================================================== *)
(** * extract_lyrics_for_card *)
(* ================================================================== *)

(** A line feed right before an opening bracket, somewhere in a text. *)
Lemma adjacent_cons (c : char) (t : str) :
  contains [LF; ch "["] (c :: t)
  = ceqb LF c && startswith (u "[") t || contains [LF; ch "["] t.
Proof. rewrite contains_unfold. reflexivity. Qed.

Lemma adjacent_app (a b : str) :
  contains [LF; ch "["] (a ++ b)
  = contains [LF; ch "["] a
    || ends_in_newline a && startswith (u "[") b
    || contains [LF; ch "["] b.
Proof.
  induction a as [|c a IH]; [reflexivity|].
  cbn [app]. rewrite !adjacent_cons, IH.
  destruct a as [|d a].
  - cbn [app]. change (ends_in_newline [c]) with (ceqb LF c).
    change (contains [LF; ch "["] []) with false.
    change (startswith (u "[") []) with false.
    change (ends_in_newline []) with false.
    destruct (ceqb LF c), (startswith (u "[") b),
             (contains [LF; ch "["] b); reflexivity.
  - replace (ends_in_newline (c :: d :: a)) with (ends_in_newline (d :: a))
      by (symmetry; apply (ends_in_newline_app [c] d a)).
    change (startswith (u "[") ((d :: a) ++ b))
      with (startswith (u "[") (d :: a)).
    destruct (ceqb LF c), (startswith (u "[") (d :: a)),
             (contains [LF; ch "["] (d :: a)),
             (ends_in_newline (d :: a)), (startswith (u "[") b),
             (contains [LF; ch "["] b); reflexivity.
Qed.

Lemma bracket_free_adjacent (t : str) :
  bracket_free t = true -> contains [LF; ch "["] t = false.
Proof.
  induction t as [|c t IH]; intros H; [reflexivity|].
  unfold bracket_free in H. cbn [forallb] in H.
  apply andb_true_iff in H as [_ H].
  rewrite adjacent_cons, (IH H), orb_false_r.
  destruct t as [|d t]; [apply andb_false_r|].
  cbn [forallb] in H. apply andb_true_iff in H as [H _].
  apply negb_true_iff in H.
  change (startswith (u "[") (d :: t)) with (ceqb (ch "[") d && true).
  rewrite H. apply andb_false_r.
Qed.

Lemma lf_free_adjacent (t : str) :
  lf_free t = true -> contains [LF; ch "["] t = false.
Proof.
  induction t as [|c t IH]; intros H; [reflexivity|].
  unfold lf_free in H. cbn [forallb] in H.
  apply andb_true_iff in H as [Hc H].
  rewrite adjacent_cons, (IH H), orb_false_r, not_lf_ceqb, Hc.
  reflexivity.
Qed.

Lemma lf_free_ends (t : str) : lf_free t = true -> ends_in_newline t = false.
Proof.
  intros H. unfold ends_in_newline.
  destruct (rev t) as [|c r] eqn:E; [reflexivity|].
  assert (Hin : In c t) by (apply in_rev; rewrite E; left; reflexivity).
  unfold lf_free in H. rewrite forallb_forall in H.
  specialize (H c Hin). rewrite not_lf_ceqb, H. reflexivity.
Qed.

Lemma header_lf_free (h : str) :
  forallb header_class h = true -> lf_free h = true.
Proof. apply class_not_lf. apply header_class_not_lf. Qed.

(** No line feed right before an opening bracket: nothing for
    [fix_section_headers] to do. *)
Lemma scan_fix_pass (x y : str) :
  forall p,
    contains [LF; ch "["] (x ++ firstn 1 y) = false ->
    scan fix_step p (x ++ y) 0 = x ++ scan fix_step (prev_after p x) y 0.
Proof.
  induction x as [|c x IH]; intros p H; [reflexivity|].
  cbn [app] in *. rewrite adjacent_cons in H.
  apply orb_false_iff in H as [H1 H2].
  rewrite scan_keep.
  - rewrite prev_after_cons, IH by exact H2. reflexivity.
  - unfold fix_step.
    change (startswith [LF; ch "["] (c :: x ++ y))
      with (ceqb LF c && startswith (u "[") (x ++ y)).
    replace (startswith (u "[") (x ++ y))
      with (startswith (u "[") (x ++ firstn 1 y)).
    + rewrite H1. reflexivity.
    + destruct x as [|d x]; [|reflexivity].
      destruct y as [|e y]; reflexivity.
Qed.

(** [fix_section_headers] on lyrics in sections: every section gets its
    blank line. *)
Lemma prev_after_app (p : option char) (a b : str) :
  b <> [] -> after_lf (prev_after p (a ++ b)) = ends_in_newline b.
Proof.
  intros Hb. unfold prev_after, ends_in_newline. rewrite rev_app_distr.
  destruct (rev b) as [|c r] eqn:E; [|reflexivity].
  apply (f_equal (@rev _)) in E. rewrite rev_involutive in E.
  contradiction.
Qed.

Lemma good_section_parts (sec : lyric_section) :
  good_section sec = true ->
  forallb header_class (heading sec) = true
  /\ bracket_free (verses sec) = true
  /\ verses sec <> []
  /\ ends_in_newline (verses sec) = false.
Proof.
  unfold good_section. intros H.
  apply andb_true_iff in H as [H H4]. apply andb_true_iff in H as [H H3].
  apply andb_true_iff in H as [H1 H2].
  apply negb_true_iff in H4. apply negb_true_iff in H3.
  repeat split; try assumption.
  intros E. rewrite E in H3. discriminate.
Qed.

Lemma later_sections_head (l : list lyric_section) :
  later_sections l = [] \/ exists t, later_sections l = LF :: t.
Proof.
  destruct l as [|sec l]; [left; reflexivity|].
  right. unfold later_sections. cbn [flat_map].
  destruct (blank_before sec); eexists; reflexivity.
Qed.

(** Behind the opening bracket of a section there is nothing to fix. *)
Lemma scan_fix_section (sec : lyric_section) (y : str) (p : option char) :
  good_section sec = true ->
  (y = [] \/ exists t, y = LF :: t) ->
  exists p',
    scan fix_step p ((heading sec ++ ch "]" :: LF :: verses sec) ++ y) 0
    = (heading sec ++ ch "]" :: LF :: verses sec) ++ scan fix_step p' y 0
    /\ after_lf p' = false.
Proof.
  intros Hg Hy. apply good_section_parts in Hg as (Hh & Hb & Hne & He).
  exists (prev_after p (heading sec ++ ch "]" :: LF :: verses sec)).
  split.
  - apply scan_fix_pass.
    assert (Hz : startswith (u "[") (firstn 1 y) = false
                 /\ contains [LF; ch "["] (firstn 1 y) = false).
    { destruct Hy as [->|[t ->]]; split; reflexivity. }
    destruct Hz as [Hz1 Hz2].
    rewrite <- app_assoc. cbn [app].
    rewrite adjacent_app, (lf_free_adjacent _ (header_lf_free _ Hh)).
    rewrite (lf_free_ends _ (header_lf_free _ Hh)). cbn [andb orb].
    rewrite !adjacent_cons.
    change (ceqb LF (ch "]")) with false. cbn [andb orb].
    rewrite ceqb_refl. cbn [andb].
    rewrite adjacent_app, (bracket_free_adjacent _ Hb), He, Hz2.
    cbn [andb orb]. rewrite orb_false_r.
    destruct (verses sec) as [|c b]; [contradiction|].
    unfold bracket_free in Hb. cbn [forallb] in Hb.
    apply andb_true_iff in Hb as [Hc _]. apply negb_true_iff in Hc.
    cbn [app]. change (startswith (u "[") (c :: b ++ firstn 1 y))
      with (ceqb (ch "[") c && true).
    rewrite Hc. reflexivity.
  - change (heading sec ++ ch "]" :: LF :: verses sec)
      with (heading sec ++ [ch "]"; LF] ++ verses sec).
    rewrite app_assoc, prev_after_app by exact Hne. exact He.
Qed.

Lemma later_sections_fix (l : list lyric_section) :
  forallb good_section l = true ->
  forall p, after_lf p = false ->
            scan fix_step p (later_sections l) 0
            = later_sections (List.map with_blank l).
Proof.
  induction l as [|sec l IH]; intros Hl p Hp; [reflexivity|].
  cbn [forallb] in Hl. apply andb_true_iff in Hl as [Hg Hl].
  unfold later_sections. cbn [flat_map List.map].
  fold (later_sections l). fold (later_sections (List.map with_blank l)).
  cbn [with_blank blank_before]. unfold section_text at 2.
  cbn [with_blank heading verses].
  destruct (scan_fix_section sec (later_sections l) (Some (ch "[")) Hg
                             (later_sections_head l)) as (p' & Hs & Hp').
  assert (Hout : scan fix_step (Some (ch "["))
                   ((heading sec ++ ch "]" :: LF :: verses sec)
                      ++ later_sections l) 0
                 = (heading sec ++ ch "]" :: LF :: verses sec)
                     ++ later_sections (List.map with_blank l)).
  { rewrite Hs, (IH Hl p' Hp'). reflexivity. }
  unfold section_text.
  destruct (blank_before sec).
  - cbn [app].
    rewrite scan_keep by reflexivity.
    rewrite scan_keep by reflexivity.
    rewrite scan_keep by reflexivity.
    cbn [app] in Hout. rewrite Hout. reflexivity.
  - cbn [app]. rewrite scan_fix_match by exact Hp.
    cbn [app] in Hout. rewrite Hout. reflexivity.
Qed.

Lemma song_text_fix (l : list lyric_section) :
  forallb good_section l = true ->
  fix_section_headers (song_text l) = song_text (List.map with_blank l).
Proof.
  intros Hl. rewrite fix_section_headers_scan.
  destruct l as [|sec l]; [reflexivity|].
  cbn [forallb] in Hl. apply andb_true_iff in Hl as [Hg Hl].
  cbn [song_text List.map]. unfold section_text.
  cbn [with_blank heading verses app].
  rewrite scan_keep by reflexivity.
  destruct (scan_fix_section sec (later_sections l) (Some (ch "[")) Hg
                             (later_sections_head l)) as (p' & Hs & Hp').
  cbn [app] in Hs. rewrite Hs, (later_sections_fix l Hl p' Hp').
  reflexivity.
Qed.

(** * SECTION_HEADERS, read where it is needed *)

Lemma iters_le (g : bool) (f : str -> list str) :
  forall fuel s t, In t (iters g f fuel s) -> length t <= length s.
Proof.
  induction fuel as [|k IH]; intros s t Hin.
  - destruct Hin as [<-|[]]. lia.
  - cbn [iters] in Hin.
    assert (Hmore : forall x,
      In x (flat_map (fun s' => if length s' <? length s
                                then iters g f k s' else []) (f s)) ->
      length x <= length s).
    { intros x Hx. apply in_flat_map in Hx as (s1 & H1 & Hx).
      destruct (Nat.ltb_spec (length s1) (length s)); [|destruct Hx].
      apply IH in Hx. lia. }
    destruct g.
    + apply in_app_or in Hin as [Hin|[<-|[]]]; [apply Hmore; exact Hin|lia].
    + destruct Hin as [<-|Hin]; [lia | apply Hmore; exact Hin].
Qed.

(** A match never ends before it begins. *)
Lemma ends_le (r : re) :
  forall s t, In t (ends r s) -> length t <= length s.
Proof.
  induction r as [|P|a IHa b IHb|a IHa b IHb|g a IHa|n a IHa| |a IHa];
    intros s t Hin; cbn [ends] in Hin.
  - destruct Hin as [<-|[]]. lia.
  - destruct s as [|c s]; [destruct Hin|].
    destruct (P c); [|destruct Hin].
    destruct Hin as [<-|[]]. cbn [length]. lia.
  - apply in_flat_map in Hin as (x & Hx & Ht).
    apply IHa in Hx. apply IHb in Ht. lia.
  - apply in_app_or in Hin as [Hin|Hin]; [apply IHa | apply IHb]; exact Hin.
  - apply iters_le in Hin. exact Hin.
  - apply IHa. exact Hin.
  - destruct Hin as [<-|[]]. lia.
  - destruct (ends a s); [|destruct Hin].
    destruct Hin as [<-|[]]. lia.
Qed.

Lemma section_headers_shorter (s t : str) :
  In t (ends SECTION_HEADERS s) -> length t < length s.
Proof.
  unfold SECTION_HEADERS. rewrite ends_seq. intros H.
  apply in_flat_map in H as (x & Hx & Ht).
  apply ends_le in Hx. rewrite ends_seq, ends_c1 in Ht.
  destruct x as [|c x]; [destruct Ht|].
  destruct (ceqb (ch "[") c); [|destruct Ht].
  cbn [flat_map] in Ht. rewrite app_nil_r in Ht.
  apply ends_le in Ht. cbn [length] in Hx. lia.
Qed.

Lemma section_headers_positive (p : option char) (s : str) (st : state) :
  first_match SECTION_HEADERS p s = Some st -> 0 < match_len s st.
Proof.
  intros H.
  pose proof (first_match_ends SECTION_HEADERS p s eq_refl) as E.
  rewrite H in E. cbn [option_map] in E. symmetry in E.
  apply hd_error_In, section_headers_shorter in E.
  unfold match_len. lia.
Qed.

Lemma step_of_section_headers (p : option char) (s : str) :
  step_of SECTION_HEADERS [] p s
  = option_map (fun t => ([], length s - length t))
               (hd_error (ends SECTION_HEADERS s)).
Proof. apply step_of_ends; reflexivity. Qed.

Lemma ends_opt_seq (a b : re) (s : str) :
  ends (Seq (opt a) b) s = flat_map (ends b) (ends a s) ++ ends b s.
Proof.
  unfold opt. rewrite ends_seq, ends_alt.
  change (ends Eps s) with [s].
  rewrite flat_map_app. cbn [flat_map]. rewrite app_nil_r. reflexivity.
Qed.

(** Nothing is found at a character that is not an opening bracket,
    unless it is a line feed right before one. *)
Lemma section_headers_none (c : char) (t : str) :
  ceqb (ch "[") c = false ->
  ceqb LF c && startswith (u "[") t = false ->
  ends SECTION_HEADERS (c :: t) = [].
Proof.
  intros H1 H2. unfold SECTION_HEADERS. rewrite ends_opt_seq.
  set (X := Seq (c1 (ch "["))
                (Seq (Star false dot)
                     (Seq (c1 (ch "]")) (opt (c1 LF))))).
  assert (Hx : ends X (c :: t) = []).
  { unfold X. rewrite ends_seq, ends_c1, H1. reflexivity. }
  rewrite Hx, app_nil_r, ends_c1.
  destruct (ceqb LF c); [|reflexivity].
  cbn [flat_map]. rewrite app_nil_r.
  cbn [andb] in H2. unfold X. rewrite ends_seq, ends_c1.
  destruct t as [|d t]; [reflexivity|].
  change (startswith (u "[") (d :: t)) with (ceqb (ch "[") d && true) in H2.
  rewrite andb_true_r in H2. rewrite H2. reflexivity.
Qed.

Lemma header_tail_ends (h w : str) :
  forallb header_class h = true ->
  hd_error (flat_map (ends (Seq (c1 (ch "]")) (opt (c1 LF))))
                     (lazy_tails not_lf (h ++ ch "]" :: LF :: w)))
  = Some w.
Proof.
  intros Hh. induction h as [|c h IH].
  - cbn [app lazy_tails flat_map]. rewrite ends_seq, ends_c1.
    rewrite ceqb_refl. reflexivity.
  - cbn [forallb] in Hh. apply andb_true_iff in Hh as [Hc Hh].
    cbn [app lazy_tails flat_map].
    rewrite (header_class_not_lf c Hc).
    rewrite ends_seq, ends_c1.
    unfold header_class in Hc. apply negb_true_iff in Hc.
    apply orb_false_iff in Hc as [Hc _]. rewrite ceqb_sym, Hc.
    cbn [flat_map app]. apply (IH Hh).
Qed.

Lemma section_headers_at_header (h w : str) :
  forallb header_class h = true ->
  hd_error (ends SECTION_HEADERS (ch "[" :: h ++ ch "]" :: LF :: w))
  = Some w
  /\ hd_error (ends SECTION_HEADERS
                    (LF :: ch "[" :: h ++ ch "]" :: LF :: w))
     = Some w.
Proof.
  intros Hh. unfold SECTION_HEADERS. rewrite !ends_opt_seq.
  set (X := Seq (c1 (ch "["))
                (Seq (Star false dot)
                     (Seq (c1 (ch "]")) (opt (c1 LF))))).
  assert (Hx : hd_error (ends X (ch "[" :: h ++ ch "]" :: LF :: w))
               = Some w).
  { unfold X. rewrite ends_seq, ends_c1, ceqb_refl.
    cbn [flat_map]. rewrite app_nil_r, ends_seq. unfold dot.
    change (fun c0 : char => negb (ceqb c0 LF)) with not_lf.
    rewrite ends_lazy_class. apply (header_tail_ends h w Hh). }
  split.
  - rewrite ends_c1. change (ceqb LF (ch "[")) with false. cbv iota.
    cbn [flat_map app]. exact Hx.
  - rewrite ends_c1, ceqb_refl. cbn [flat_map].
    rewrite app_nil_r, hd_error_app, Hx. reflexivity.
Qed.


Lemma scan_section_headers_pass (x y : str) (p : option char) :
  bracket_free x = true ->
  ends_in_newline x && startswith (u "[") y = false ->
  scan sh_step p (x ++ y) 0 = x ++ scan sh_step p y 0.
Proof.
  revert p; induction x as [|c x IH]; intros p Hb He; [reflexivity|].
  unfold bracket_free in Hb. cbn [forallb] in Hb.
  apply andb_true_iff in Hb as [Hc Hb]. apply negb_true_iff in Hc.
  cbn [app]. rewrite scan_keep.
  - f_equal. rewrite (IH (Some c) Hb).
    + f_equal. apply scan_prev. intros q q' s. unfold sh_step.
      rewrite !step_of_section_headers. reflexivity.
    + destruct x as [|d x]; [reflexivity|].
      rewrite <- (ends_in_newline_app [c] d x). exact He.
  - unfold sh_step. rewrite step_of_section_headers.
    rewrite section_headers_none; [reflexivity | exact Hc |].
    destruct x as [|d x]; [exact He|].
    cbn [forallb] in Hb. apply andb_true_iff in Hb as [Hd _].
    apply negb_true_iff in Hd.
    change (startswith (u "[") ((d :: x) ++ y)) with (ceqb (ch "[") d && true).
    rewrite Hd. apply andb_false_r.
Qed.

Lemma scan_section_headers_jump (a w : str) (p : option char) :
  a <> [] ->
  hd_error (ends SECTION_HEADERS (a ++ w)) = Some w ->
  scan sh_step p (a ++ w) 0 = scan sh_step p w 0.
Proof.
  intros Ha H.
  rewrite (@scan_jump sh_step p a w []).
  - apply scan_prev. intros q q' s. unfold sh_step.
    rewrite !step_of_section_headers. reflexivity.
  - exact Ha.
  - unfold sh_step. rewrite step_of_section_headers, H.
    cbn [option_map]. do 2 f_equal. rewrite length_app. lia.
Qed.

Lemma later_sections_removed (l : list lyric_section) (p : option char) :
  forallb good_section l = true ->
  scan sh_step p (later_sections (List.map with_blank l)) 0
  = flat_map (fun sec => [LF] ++ verses sec) l.
Proof.
  revert p; induction l as [|sec l IH]; intros p Hl; [reflexivity|].
  cbn [forallb] in Hl. apply andb_true_iff in Hl as [Hg Hl].
  apply good_section_parts in Hg as (Hh & Hb & Hne & He).
  unfold later_sections. cbn [flat_map List.map].
  fold (later_sections (List.map with_blank l)).
  cbn [with_blank blank_before]. unfold section_text.
  cbn [with_blank heading verses app].
  rewrite scan_keep.
  - f_equal.
    match goal with
    | |- scan _ _ ?t _ = _ =>
        replace t
          with ((LF :: ch "[" :: heading sec ++ [ch "]"; LF])
                  ++ verses sec ++ later_sections (List.map with_blank l))
    end.
    + rewrite scan_section_headers_jump.
      * rewrite scan_section_headers_pass.
        -- rewrite (IH (Some LF) Hl). reflexivity.
        -- exact Hb.
        -- rewrite He. reflexivity.
      * discriminate.
      * cbn [app]. rewrite <- app_assoc. cbn [app].
        apply (section_headers_at_header (heading sec) _ Hh).
    + cbn [app]. rewrite <- !app_assoc. reflexivity.
  - unfold sh_step. rewrite step_of_section_headers.
    rewrite section_headers_none; reflexivity.
Qed.

Lemma song_text_removed (l : list lyric_section) :
  forallb good_section l = true ->
  sub SECTION_HEADERS [] (song_text (List.map with_blank l))
  = join [LF] (List.map verses l).
Proof.
  intros Hl. unfold sub.
  rewrite (@sub_from_scan SECTION_HEADERS [] section_headers_positive).
  fold sh_step.
  destruct l as [|sec l]; [reflexivity|].
  cbn [forallb] in Hl. apply andb_true_iff in Hl as [Hg Hl].
  apply good_section_parts in Hg as (Hh & Hb & Hne & He).
  cbn [song_text List.map]. unfold section_text.
  cbn [with_blank heading verses]. rewrite join_cons.
  replace ((ch "[" :: heading sec ++ ch "]" :: LF :: verses sec)
             ++ later_sections (List.map with_blank l))
    with ((ch "[" :: heading sec ++ [ch "]"; LF])
            ++ verses sec ++ later_sections (List.map with_blank l))
    by (cbn [app]; rewrite <- !app_assoc; reflexivity).
  rewrite scan_section_headers_jump.
  - rewrite scan_section_headers_pass.
    + rewrite (later_sections_removed l None Hl), flat_map_concat_map.
      rewrite <- flat_map_concat_map, flat_map_map. reflexivity.
    + exact Hb.
    + rewrite He. reflexivity.
  - discriminate.
  - cbn [app]. rewrite <- app_assoc. cbn [app].
    apply (section_headers_at_header (heading sec) _ Hh).
Qed.

(** X25.  Lyrics in sections lose their headers and keep their lines:
    when the stripped text of the page is a sequence of sections, each a
    header between brackets on a line of its own followed by its lines,
    with one line feed or a blank line between two sections,
    [extract_lyrics_for_card] returns the lines of the sections joined by
    single line feeds. *)
Theorem extract_lyrics_for_card_removes_headers
        (html_parser : str -> list node) (html_lyrics : str)
        (l : list lyric_section) :
  forallb good_section l = true ->
  strip (get_text (html_parser html_lyrics)) = song_text l ->
  extract_lyrics_for_card html_parser html_lyrics
  = join [LF] (List.map verses l).
Proof.
  intros Hl Ht. unfold extract_lyrics_for_card.
  rewrite Ht, (song_text_fix l Hl). apply song_text_removed. exact Hl.
Qed.

Lemma extract_lyrics_for_card_removes_headers_witness :
  extract_lyrics_for_card
    Lib.parse_plain
    (u " [Verse 1]" ++ [LF] ++ u "la la" ++ [LF] ++ u "[Chorus]" ++ [LF]
       ++ u "na na" ++ [LF; LF] ++ u "[Outro]" ++ [LF] ++ u "bye" ++ [LF])
  = u "la la" ++ [LF] ++ u "na na" ++ [LF] ++ u "bye".
Proof.
  apply (extract_lyrics_for_card_removes_headers
           Lib.parse_plain _
           [ {| blank_before := false; heading := u "Verse 1";
                verses := u "la la" |};
             {| blank_before := false; heading := u "Chorus";
                verses := u "na na" |};
             {| blank_before := true; heading := u "Outro";
                verses := u "bye" |} ]).
  - reflexivity.
  - vm_compute. reflexivity.
Defined.

Lemma bracket_free_lstrip (s : str) :
  bracket_free s = true -> bracket_free (lstrip s) = true.
Proof.
  destruct (lstrip_suffix s) as [m E]. intros H.
  rewrite E in H. unfold bracket_free in *. rewrite forallb_app in H.
  apply andb_true_iff in H as [_ H]. exact H.
Qed.

Lemma bracket_free_rev (s : str) :
  bracket_free s = true -> bracket_free (rev s) = true.
Proof.
  unfold bracket_free. rewrite !forallb_forall. intros H c Hc.
  apply H. apply in_rev. exact Hc.
Qed.

(** X26.  Lyrics without an opening bracket hold no section header:
    [extract_lyrics_for_card] returns the text of the page, stripped, and
    changes nothing else. *)
Theorem extract_lyrics_for_card_without_headers
        (html_parser : str -> list node) (html_lyrics : str) :
  bracket_free (get_text (html_parser html_lyrics)) = true ->
  extract_lyrics_for_card html_parser html_lyrics
  = strip (get_text (html_parser html_lyrics)).
Proof.
  intros H. unfold extract_lyrics_for_card.
  set (t := strip (get_text (html_parser html_lyrics))).
  assert (Ht : bracket_free t = true).
  { unfold t, strip. apply bracket_free_rev, bracket_free_lstrip,
      bracket_free_rev, bracket_free_lstrip. exact H. }
  assert (Hfix : fix_section_headers t = t).
  { rewrite fix_section_headers_scan.
    rewrite <- (app_nil_r t) at 1. rewrite scan_fix_pass.
    - apply app_nil_r.
    - cbn [firstn]. rewrite app_nil_r.
      apply bracket_free_adjacent. exact Ht. }
  rewrite Hfix. unfold sub.
  rewrite (@sub_from_scan SECTION_HEADERS [] section_headers_positive).
  fold sh_step. rewrite <- (app_nil_r t) at 1.
  rewrite scan_section_headers_pass.
  - apply app_nil_r.
  - exact Ht.
  - apply andb_false_r.
Qed.

Lemma extract_lyrics_for_card_without_headers_witness :
  extract_lyrics_for_card Lib.parse_plain (u "  la la" ++ [LF])
  = strip (get_text (Lib.parse_plain (u "  la la" ++ [LF]))).
Proof.
  apply extract_lyrics_for_card_without_headers. reflexivity.
Defined.

(* ================================================================== *)
(** * The language filters: what is left on plain text *)
(* ================================================================== *)

Lemma squeeze_In (v w : str) (c : char) :
  squeeze v w -> In c v -> In c w.
Proof.
  induction 1 as [|x v w H IH|v w H IH]; intros Hc.
  - exact Hc.
  - destruct Hc as [->|Hc]; [left; reflexivity | right; apply IH; exact Hc].
  - right. apply IH. exact Hc.
Qed.

Lemma join_In (ls : list str) (c : char) :
  In c (join [LF] ls) -> c = LF \/ exists l, In l ls /\ In c l.
Proof.
  destruct ls as [|l ls]; [intros []|].
  rewrite join_cons. intros H. apply in_app_or in H as [H|H].
  - right. exists l. split; [left; reflexivity | exact H].
  - apply in_flat_map in H as (x & Hx & Hc). cbn [app] in Hc.
    destruct Hc as [<-|Hc]; [left; reflexivity|].
    right. exists x. split; [right; exact Hx | exact Hc].
Qed.

Lemma In_join (ls : list str) (l : str) (c : char) :
  In l ls -> In c l -> In c (join [LF] ls).
Proof.
  intros Hl Hc. destruct ls as [|l0 ls]; [destruct Hl|].
  rewrite join_cons. apply in_or_app. destruct Hl as [->|Hl].
  - left. exact Hc.
  - right. apply in_flat_map. exists l. split; [exact Hl|].
    right. exact Hc.
Qed.

(** What is left after the lines are emptied: line feeds and characters
    of lines that hold no character of the class. *)
Lemma blank_lines_In (Q : char -> bool) (s : str) (c : char) :
  In c (blank_lines Q s) -> c = LF \/ In c s /\ Q c = false.
Proof.
  unfold blank_lines. intros H.
  apply join_In in H as [H|(l & Hl & Hc)]; [left; exact H|].
  right. apply in_map_iff in Hl as (l0 & <- & Hl0).
  destruct (existsb Q l0) eqn:E; [destruct Hc|]. split.
  - rewrite <- (join_split s). apply (In_join _ l0 c Hl0 Hc).
  - destruct (Q c) eqn:Eq; [|reflexivity].
    assert (existsb Q l0 = true)
      by (apply existsb_exists; exists c; split; assumption).
    congruence.
Qed.

Lemma no_angle_br_free (x : str) :
  (forall c, In c x -> ceqb (ch "<") c = false) -> br_free x = true.
Proof.
  unfold br_free. intros H. apply negb_true_iff.
  induction x as [|c x IH]; [reflexivity|].
  rewrite contains_unfold.
  change (startswith (u "<br") (c :: x))
    with (ceqb (ch "<") c && startswith (u "br") x).
  rewrite (H c) by (left; reflexivity). cbn [andb orb].
  apply IH. intros d Hd. apply H. right. exact Hd.
Qed.

Lemma opener_free_no_angle (s : str) (c : char) :
  opener_free s = true -> In c s -> ceqb (ch "<") c = false.
Proof.
  unfold opener_free. rewrite forallb_forall. intros H Hc.
  specialize (H c Hc). apply negb_true_iff in H.
  apply orb_false_iff in H as [_ H]. exact H.
Qed.

Lemma filtered_text_In (Q : char -> bool) (s : str) (c : char) :
  opener_free s = true -> Q LF = false ->
  In c (remove_extra_newlines (blank_lines Q s)) -> Q c = false.
Proof.
  intros Ho Hq Hc.
  assert (Hb : br_free (blank_lines Q s) = true).
  { apply no_angle_br_free. intros d Hd.
    apply blank_lines_In in Hd as [->|[Hd _]]; [reflexivity|].
    apply (opener_free_no_angle s d Ho Hd). }
  apply (squeeze_In _ _ c (remove_extra_newlines_squeeze _ Hb)) in Hc.
  apply blank_lines_In in Hc as [->|[_ Hc]]; assumption.
Qed.

(** X27.  On text in which no protected span can begin, the English
    preference leaves no non-ASCII character and the Non-English
    preference leaves no ASCII letter. *)
Theorem string_formatter_filters_plain_text (s : str) :
  opener_free s = true ->
  ascii_only (string_formatter (u "English") s) = true
  /\ forallb (fun c => negb (ascii_letter c))
             (string_formatter (u "Non-English") s) = true.
Proof.
  intros Ho. unfold string_formatter, ascii_only.
  change (Str.eqb (u "English") (u "English")) with true.
  change (Str.eqb (u "Non-English") (u "English")) with false.
  change (Str.eqb (u "Non-English") (u "Non-English")) with true.
  cbv iota. rewrite sub_remove_non_english, sub_remove_english.
  rewrite (strip_scan_plain_lines false false non_ascii s None Ho eq_refl).
  rewrite (strip_scan_plain_lines true true ascii_letter s None Ho eq_refl).
  split; apply forallb_forall; intros c Hc; apply negb_true_iff.
  - apply (filtered_text_In non_ascii s c Ho eq_refl Hc).
  - apply (filtered_text_In ascii_letter s c Ho eq_refl Hc).
Qed.

Lemma string_formatter_filters_plain_text_witness :
  ascii_only (string_formatter
                (u "English")
                (u "Hello" ++ [LF] ++ salam ++ [LF] ++ u "world")) = true
  /\ forallb (fun c => negb (ascii_letter c))
             (string_formatter
                (u "Non-English")
                (u "Hello" ++ [LF] ++ salam ++ [LF] ++ u "world")) = true.
Proof.
  apply (string_formatter_filters_plain_text
           (u "Hello" ++ [LF] ++ salam ++ [LF] ++ u "world")).
  reflexivity.
Defined.

(* ================================================================== *)
(** * get_song_metadata: a translation with one hyphen in its title *)
(* ================================================================== *)

Lemma split_from_hyphen_free (b acc : str) :
  hyphen_free b = true -> split_from (u "-") b acc 0 = [rev acc ++ b].
Proof.
  revert acc; induction b as [|c b IH]; intros acc H.
  - cbn [split_from]. rewrite app_nil_r. reflexivity.
  - unfold hyphen_free in H. cbn [forallb] in H.
    apply andb_true_iff in H as [Hc Hb]. apply negb_true_iff in Hc.
    cbn [split_from]. change (u "-") with [ch "-"].
    cbn [startswith]. rewrite Hc. cbn [andb].
    change [ch "-"] with (u "-"). rewrite (IH (c :: acc) Hb).
    cbn [rev]. rewrite <- app_assoc. reflexivity.
Qed.

Lemma split_from_one_hyphen (a b acc : str) :
  hyphen_free a = true -> hyphen_free b = true ->
  split_from (u "-") (a ++ ch "-" :: b) acc 0 = [rev acc ++ a; b].
Proof.
  revert acc; induction a as [|c a IH]; intros acc Ha Hb.
  - cbn [app split_from]. change (u "-") with [ch "-"].
    cbn [startswith]. rewrite ceqb_refl. cbn [andb length Nat.sub].
    change [ch "-"] with (u "-").
    rewrite (split_from_hyphen_free b [] Hb), app_nil_r. reflexivity.
  - unfold hyphen_free in Ha. cbn [forallb] in Ha.
    apply andb_true_iff in Ha as [Hc Ha]. apply negb_true_iff in Hc.
    cbn [app split_from]. change (u "-") with [ch "-"].
    cbn [startswith]. rewrite Hc. cbn [andb].
    change [ch "-"] with (u "-"). rewrite (IH (c :: acc) Ha Hb).
    cbn [rev]. rewrite <- app_assoc. reflexivity.
Qed.

(** X28.  A translation (primary artist name beginning with Genius, no
    featured artist) whose title, once the translation parentheses are
    taken out and it is stripped, holds exactly one hyphen: the text
    before the hyphen names the artists, split at [" & "], the text after
    it is the title, both stripped. *)
Theorem get_song_metadata_translation (s : song) (a b : str) :
  startswith (u "Genius") (name (primary_artist s)) = true ->
  featured_artists s = [] ->
  strip (sub TRANSLATION_PARENTHESES [] (title s)) = a ++ ch "-" :: b ->
  hyphen_free a = true -> hyphen_free b = true ->
  get_song_metadata s = Ok (strip b, split (u " & ") (strip a), []).
Proof.
  intros Hg Hf Ht Ha Hb. unfold get_song_metadata.
  rewrite (split_genius _ Hg), Hf. cbn [List.map length Nat.eqb andb].
  rewrite Ht. unfold split at 1.
  rewrite (split_from_one_hyphen a b [] Ha Hb). reflexivity.
Qed.

Lemma get_song_metadata_translation_witness :
  get_song_metadata
    {| title := u "Adele & Sia - Hello (" ++ [1601%N] ++ u ")";
       primary_artist := {| name := u "Genius Farsi" |};
       featured_artists := [] |}
  = Ok (strip (u " Hello"), split (u " & ") (strip (u "Adele & Sia ")), []).
Proof.
  apply (get_song_metadata_translation
           {| title := u "Adele & Sia - Hello (" ++ [1601%N] ++ u ")";
              primary_artist := {| name := u "Genius Farsi" |};
              featured_artists := [] |}
           (u "Adele & Sia ") (u " Hello")).
  - reflexivity.
  - reflexivity.
  - vm_compute. reflexivity.
  - reflexivity.
  - reflexivity.
Defined.

(* ================================================================== *)
(** * Database.user: the keys of the preferences *)
(* ================================================================== *)

Lemma dict_get_set_same (k : str) (v : value) (d : list (str * value)) :
  dict_get k (dict_set k v d) = Some v.
Proof.
  induction d as [|[k' v'] d IH]; cbn [dict_set dict_get].
  - rewrite str_eqb_refl. reflexivity.
  - destruct (Str.eqb k' k) eqn:E; cbn [dict_get]; rewrite E;
      [reflexivity | exact IH].
Qed.

Lemma dict_get_set_other (k k' : str) (v : value) (d : list (str * value)) :
  Str.eqb k k' = false -> dict_get k' (dict_set k v d) = dict_get k' d.
Proof.
  intros H. induction d as [|[k0 v0] d IH]; cbn [dict_set dict_get].
  - rewrite H. reflexivity.
  - destruct (Str.eqb k0 k) eqn:E; cbn [dict_get].
    + apply str_eqb_eq in E. subst k0. rewrite H. reflexivity.
    + rewrite IH. reflexivity.
Qed.

(** X29.  A chat without a row: [user] writes the default preferences
    under the keys [include_annotations], [lyrics_language] and
    [menu_language], leaves the keys [lyrics_lang] and [menu_lang] as
    they were, and then does not return: the call of [insert] raises. *)
Theorem user_new_chat (insert_connects : bool) (chat_id : value)
        (user_data : list (str * value)) :
  let after := user (Some []) insert_connects chat_id user_data in
  dict_get (u "include_annotations") (fst after) = Some (JBool false)
  /\ dict_get (u "lyrics_language") (fst after)
     = Some (JStr (u "English + Non-English"))
  /\ dict_get (u "menu_language") (fst after) = Some (JStr (u "English"))
  /\ dict_get (u "lyrics_lang") (fst after)
     = dict_get (u "lyrics_lang") user_data
  /\ dict_get (u "menu_lang") (fst after)
     = dict_get (u "menu_lang") user_data
  /\ exists e, snd after = Failed e.
Proof.
  cbn [user select fst snd]. unfold dict_update, default_preferences.
  cbn [fold_left fst snd].
  repeat split.
  - rewrite !dict_get_set_other by reflexivity. apply dict_get_set_same.
  - rewrite dict_get_set_other by reflexivity. apply dict_get_set_same.
  - apply dict_get_set_same.
  - rewrite !dict_get_set_other by reflexivity. reflexivity.
  - rewrite !dict_get_set_other by reflexivity. reflexivity.
  - unfold insert. destruct insert_connects; eexists; reflexivity.
Qed.

(** X30.  A chat with a row of four columns or more: [user] returns,
    and [user_data] then holds the first four columns of the first row
    under the keys [chat_id], [include_annotations], [lyrics_lang] and
    [menu_lang]; the keys [lyrics_language] and [menu_language] are as
    they were. *)
Theorem user_known_chat (insert_connects : bool) (chat_id : value)
        (user_data : list (str * value))
        (c0 c1 c2 c3 : value) (more : list value)
        (rows : list (list value)) :
  let after :=
    user (Some ((c0 :: c1 :: c2 :: c3 :: more) :: rows)) insert_connects
         chat_id user_data in
  snd after = Done tt
  /\ dict_get (u "chat_id") (fst after) = Some c0
  /\ dict_get (u "include_annotations") (fst after) = Some c1
  /\ dict_get (u "lyrics_lang") (fst after) = Some c2
  /\ dict_get (u "menu_lang") (fst after) = Some c3
  /\ dict_get (u "lyrics_language") (fst after)
     = dict_get (u "lyrics_language") user_data
  /\ dict_get (u "menu_language") (fst after)
     = dict_get (u "menu_language") user_data.
Proof.
  cbn [user select fst snd]. unfold dict_update.
  cbn [fold_left fst snd].
  repeat split.
  - rewrite !dict_get_set_other by reflexivity. apply dict_get_set_same.
  - rewrite !dict_get_set_other by reflexivity. apply dict_get_set_same.
  - rewrite dict_get_set_other by reflexivity. apply dict_get_set_same.
  - apply dict_get_set_same.
  - rewrite !dict_get_set_other by reflexivity. reflexivity.
  - rewrite !dict_get_set_other by reflexivity. reflexivity.
Qed.

(* ================================================================== *)
(** * remove_unsupported_tags: at a document *)
(* ================================================================== *)

Lemma remove_unsupported_tags_top_level_witness :
  In (Elem (u "b") [] [Text (u "x")])
     (remove_unsupported_tags
        [Elem (u "p") [] [Elem (u "b") [] [Text (u "x")]]] [u "b"])
  /\ is_supported [u "b"] (u "b") = true.
Proof.
  split; [left; reflexivity|].
  apply (@remove_unsupported_tags_top_level
           [Elem (u "p") [] [Elem (u "b") [] [Text (u "x")]]] [u "b"]
           (u "b") [] [Text (u "x")]).
  left. reflexivity.
Defined.
